(** * Cross-chain modulus switching (Grafting on Lattigo v5): a shallow embedding

    The development follows the Go sources of the modulus switcher
    ([NewModulusSwitcher], [SwitchSecretKey], [SwitchNew]) and of the
    out-sourced bootstrapping pipeline of the example program.

    - Go [int] values (levels, degrees) are [Z].  Levels are slice lengths
      minus one, far below 2^62, so the additions of [SwitchNew] never wrap.
    - A [ring.Poly] is a handle on residue storage that library calls write
      in place; storage lives in a store (a list of residue matrices) and a
      polynomial is a location in it.  [NewPoly] appends to the store.
    - A Go panic is the [Err] branch of [result]; code runs in a state and
      error monad over the store.
    - The numeric kernels of the ring library (transforms and basis
      extension) belong to the [ring] and [rlwe] packages that the switcher
      imports: they are the operations of the class [RingLibrary].  What
      these packages say about the shape of rings, polynomials, ciphertexts
      and keys is modelled from the specification. *)

From Stdlib Require Import ZArith String.
From stdpp Require Import base list.

Local Open Scope Z_scope.

(** ** Panics and results *)

Inductive panic : Type :=
| IndexOutOfRange (index len : Z)     (* Go runtime: index out of range [index] with length len *)
| NilDereference                      (* Go runtime: nil pointer dereference *)
| Panic (msg : string)                (* an explicit panic(msg) of the switcher *)
| LibraryPanic (msg : string).        (* a panic raised inside a library call *)

Inductive result (A : Type) : Type :=
| Ok (a : A)
| Err (e : panic).
Arguments Ok {A} a.
Arguments Err {A} e.

Definition is_ok {A} (r : result A) : bool :=
  match r with Ok _ => true | Err _ => false end.

(** ** The store of residue matrices *)

Abbreviation loc := nat.

(** [ring.Poly.Coeffs]: one row of coefficients per active prime. *)
Abbreviation Coeffs := (list (list Z)).
Abbreviation Store := (list (list (list Z))).

(** State and error monad: a panic keeps the state reached so far. *)
Definition ST (S A : Type) : Type := S -> S * result A.

Definition ret {S A} (a : A) : ST S A := fun s => (s, Ok a).

Definition bind {S A B} (m : ST S A) (k : A -> ST S B) : ST S B :=
  fun s =>
    match m s with
    | (s', Ok a) => k a s'
    | (s', Err e) => (s', Err e)
    end.

Definition raise {S A} (e : panic) : ST S A := fun s => (s, Err e).

Definition lift {S A} (r : result A) : ST S A := fun s => (s, r).

(** Code of the switcher runs over the store. *)
Abbreviation M := (ST (list (list (list Z)))).

Declare Scope go_scope.
Delimit Scope go_scope with go.
Notation "x <- m ;; k" := (bind m (fun x => k))
  (at level 100, m at next level, right associativity) : go_scope.
Notation "m ;;; k" := (bind m (fun _ => k))
  (at level 100, right associativity) : go_scope.
Local Open Scope go_scope.

(** Dereference of a possibly nil pointer. *)
Definition deref {A} (p : option A) : M A :=
  match p with
  | Some a => ret a
  | None => raise NilDereference
  end.

(** [s[i]] on a slice. *)
Definition index {A} (s : list A) (i : nat) : M A :=
  match s !! i with
  | Some a => ret a
  | None => raise (IndexOutOfRange (Z.of_nat i) (Z.of_nat (length s)))
  end.

(** [a[i]] on a [[2]ring.Poly] array. *)
Definition index2 {A} (a : A * A) (i : nat) : M A :=
  match i with
  | O => ret (fst a)
  | S O => ret (snd a)
  | _ => raise (IndexOutOfRange (Z.of_nat i) 2)
  end.

(** Allocation of fresh storage: the new location is the old length. *)
Definition alloc (c : Coeffs) : M loc :=
  fun s => (s ++ [c], Ok (length s)).

Definition load (l : loc) : M Coeffs :=
  fun s =>
    match s !! l with
    | Some c => (s, Ok c)
    | None => (s, Err NilDereference)
    end.

(** What a callee leaves in a destination whose slice header it received
    by value: the rows it wrote, then the rows it did not reach. *)
Definition overwrite (old new : Coeffs) : Coeffs :=
  new ++ drop (length new) old.

(** An in-place write of the rows [new] into the polynomial at [l].  The
    callee cannot grow the destination: writing past its last row is an
    index panic. *)
Definition write (l : loc) (new : Coeffs) : M unit :=
  fun s =>
    match s !! l with
    | Some old =>
        if (length old <? length new)%nat
        then (s, Err (IndexOutOfRange (Z.of_nat (length old)) (Z.of_nat (length old))))
        else (<[l := overwrite old new]> s, Ok tt)
    | None => (s, Err NilDereference)
    end.

(** [for i := range s { body i }] *)
Fixpoint for_range (idxs : list nat) (body : nat -> M unit) : M unit :=
  match idxs with
  | [] => ret tt
  | i :: rest => body i ;;; for_range rest body
  end.

(** ** Rings, parameters, ciphertexts and keys *)

(** Modelled from the spec: the ring descriptor of a chain ([ring.Ring],
    declared in the imported packages): the chain of primes, the ring degree and
    the level the ring currently operates at. *)
Record Ring : Type := mkRing {
  SubRings : list Z;
  RingDegree : Z;
  level : Z
}.

Definition Level (r : Ring) : Z := level r.
Definition MaxLevel (r : Ring) : Z := Z.of_nat (length (SubRings r)) - 1.

(** Modelled from the spec: the scale of a ciphertext ([rlwe.Scale]); the
    switcher only ever copies it. *)
Definition Scale := Z.

(** Modelled from the spec: a moduli-chain parameter set
    ([ckks.Parameters], declared in the imported packages), reduced to what the
    switcher reads: the chain, its ring (a pointer, possibly nil), the
    auxiliary ring, the default scale and the transform flag given to new
    ciphertexts. *)
Record Parameters : Type := mkParameters {
  qi : list Z;
  ringQ : option Ring;
  ringP : option Ring;
  defaultScale : Scale;
  nttFlag : bool
}.

Definition RingQ (p : Parameters) : option Ring := ringQ p.
Definition RingP (p : Parameters) : option Ring := ringP p.
Definition QCount (p : Parameters) : Z := Z.of_nat (length (qi p)).
Definition MaxLevelQ (p : Parameters) : Z := QCount p - 1.
Definition DefaultScale (p : Parameters) : Scale := defaultScale p.

(** Number of primes of a chain, the spec's sizeOf. *)
Definition sizeOf (p : Parameters) : Z := QCount p.

(** Parameters as the library's constructor builds them: [RingQ] is the
    ring over the whole chain, at its top level. *)
Definition params_built (p : Parameters) : Prop :=
  exists r, ringQ p = Some r /\ SubRings r = qi p /\ level r = MaxLevel r.

(** Modelled from the spec: a ciphertext ([rlwe.Ciphertext], declared
    in the imported packages): value components, scale, domain flag and batching
    metadata.  Its level is the level of its first component. *)
Record Ciphertext : Type := mkCiphertext {
  Value : list loc;
  CtScale : Scale;
  IsNTT : bool;
  IsBatched : bool;
  LogDimensions : Z * Z
}.

(** Modelled from the spec: a secret key ([rlwe.SecretKey]): one
    polynomial over the chain, [Value.Q], and one over the auxiliary primes,
    [Value.P]. *)
Record SecretKey : Type := mkSecretKey {
  ValueQ : loc;
  ValueP : loc
}.

(** Modelled from the spec: [ring.BasisExtender] and [ring.Decomposer]
    between a ring Q and a ring P. *)
Record BasisExtender : Type := mkBasisExtender {
  beRingQ : Ring;
  beRingP : Ring
}.

Record Decomposer : Type := mkDecomposer {
  dcRingQ : Ring;
  dcRingP : Ring
}.

(** ** The ring library

    The numeric kernels, as functions from what they read to the rows
    they write; [None] when the call panics. *)
Class RingLibrary : Type := {
  (* ring.Ring.INTTLazy(p1, p2): p2 = INTT(p1) *)
  INTTLazy_rows : Ring -> Coeffs -> option Coeffs;
  (* ring.Ring.NTT(p1, p2): p2 = NTT(p1) *)
  NTT_rows : Ring -> Coeffs -> option Coeffs;
  (* ring.Ring.NTTLazy(p1, p2) *)
  NTTLazy_rows : Ring -> Coeffs -> option Coeffs;
  (* BasisExtender.ModUpQtoP(levelQ, levelP, polQ, polP) *)
  ModUpQtoP_rows : BasisExtender -> Z -> Z -> Coeffs -> option Coeffs;
  (* BasisExtender.ModUpPtoQ(levelP, levelQ, polP, polQ) *)
  ModUpPtoQ_rows : BasisExtender -> Z -> Z -> Coeffs -> option Coeffs;
  (* rlwe.ExtendBasisSmallNormAndCenterNTTMontgomery(ringQ, ringP, polQ, buff, polP):
     the rows left in buff and the rows written to polP *)
  ExtendBasisSmallNorm_rows : Ring -> Ring -> Coeffs -> option (Coeffs * Coeffs)
}.

(** A panic inside a kernel is a panic of the library. *)
Definition from_library {A} (o : option A) : M A :=
  match o with
  | Some a => ret a
  | None => raise (LibraryPanic "ring")
  end.

(** Modelled from the spec: [ring.Ring.AtLevel] belongs to the imported
    ring package.  The spec makes an invalid level fatal
    (a negative level must fail, never proceed silently); a level above the
    top of the chain names no prime and is refused as well. *)
Definition AtLevel (r : Ring) (l : Z) : result Ring :=
  if l <? 0 then Err (LibraryPanic "level cannot be negative")
  else if MaxLevel r <? l then Err (LibraryPanic "level cannot be larger than max level")
  else Ok (mkRing (SubRings r) (RingDegree r) l).

(** Modelled from the spec: the ring descriptor's constructor for a zero
    polynomial at the ring's level ([ring.Ring.NewPoly]): [level + 1] rows
    of [RingDegree] zeros.  A negative length is a runtime panic of
    [make]. *)
Definition zero_poly (r : Ring) : Coeffs :=
  replicate (Z.to_nat (level r + 1)) (replicate (Z.to_nat (RingDegree r)) 0).

Definition NewPoly (r : Ring) : M loc :=
  if (level r + 1 <? 0) || (RingDegree r <? 0)
  then raise (LibraryPanic "makeslice: len out of range")
  else alloc (zero_poly r).

Fixpoint NewPolys (n : nat) (r : Ring) : M (list loc) :=
  match n with
  | O => ret []
  | S n' => l <- NewPoly r ;; ls <- NewPolys n' r ;; ret (l :: ls)
  end.

(** Modelled from the spec: the constructor for a ciphertext of a chain at
    a given level ([rlwe.NewCiphertext]): [degree + 1] zero polynomials
    over the chain's ring at that level, with the chain's transform flag
    and otherwise empty metadata. *)
Definition NewCiphertext (params : Parameters) (degree lvl : Z) : M Ciphertext :=
  rq <- deref (RingQ params) ;;
  r <- lift (AtLevel rq lvl) ;;
  if degree + 1 <? 0 then raise (LibraryPanic "makeslice: len out of range")
  else
    vs <- NewPolys (Z.to_nat (degree + 1)) r ;;
    ret (mkCiphertext vs 0 (nttFlag params) false (0, 0)).

(** Modelled from the spec: [rlwe.NewSecretKey]: a zero key over the
    chain's whole prime set and the auxiliary prime set. *)
Definition NewSecretKey (params : Parameters) : M SecretKey :=
  rq <- deref (RingQ params) ;;
  q <- NewPoly rq ;;
  rp <- deref (RingP params) ;;
  p <- NewPoly rp ;;
  ret (mkSecretKey q p).

(** Modelled from the spec: [ring.Poly.Level], the number of rows minus
    one. *)
Definition poly_Level (l : loc) : M Z :=
  c <- load l ;; ret (Z.of_nat (length c) - 1).

(** Modelled from the spec: [rlwe.Ciphertext.Level], the level of
    [Value[0]]. *)
Definition ct_Level (ct : Ciphertext) : M Z :=
  v0 <- index (Value ct) 0 ;; poly_Level v0.

(** Modelled from the spec: [rlwe.Ciphertext.Degree], the number of value
    components minus one. *)
Definition Degree (ct : Ciphertext) : Z := Z.of_nat (length (Value ct)) - 1.

(** Modelled from the spec: [rlwe.SecretKey.LevelQ], the level of
    [Value.Q]. *)
Definition sk_LevelQ (sk : SecretKey) : M Z := poly_Level (ValueQ sk).

(** Modelled from the spec: [ring.NewBasisExtender] and
    [ring.NewDecomposer] record the two rings they work between. *)
Definition NewBasisExtender (rq rp : Ring) : BasisExtender := mkBasisExtender rq rp.
Definition NewDecomposer (rq rp : Ring) : Decomposer := mkDecomposer rq rp.

(** ** Library calls on stored polynomials *)

Section Switcher.
Context {L : RingLibrary}.

(** A call [f(p1, p2)] that reads the polynomial [p1] and writes [p2]. *)
Definition transform (k : Coeffs -> option Coeffs) (p1 p2 : loc) : M unit :=
  c <- load p1 ;; r <- from_library (k c) ;; write p2 r.

Definition INTTLazy (r : Ring) (p1 p2 : loc) : M unit := transform (INTTLazy_rows r) p1 p2.
Definition NTT (r : Ring) (p1 p2 : loc) : M unit := transform (NTT_rows r) p1 p2.
Definition NTTLazy (r : Ring) (p1 p2 : loc) : M unit := transform (NTTLazy_rows r) p1 p2.

Definition ModUpQtoP (be : option BasisExtender) (levelQ levelP : Z) (polQ polP : loc) : M unit :=
  b <- deref be ;; transform (ModUpQtoP_rows b levelQ levelP) polQ polP.

Definition ModUpPtoQ (be : option BasisExtender) (levelP levelQ : Z) (polP polQ : loc) : M unit :=
  b <- deref be ;; transform (ModUpPtoQ_rows b levelP levelQ) polP polQ.

Definition ExtendBasisSmallNormAndCenterNTTMontgomery
    (rQ rP : option Ring) (polQ buff polP : loc) : M unit :=
  rq <- deref rQ ;;
  rp <- deref rP ;;
  c <- load polQ ;;
  bp <- from_library (ExtendBasisSmallNorm_rows rq rp c) ;;
  write buff (fst bp) ;;;
  write polP (snd bp).

(** ** The modulus switcher *)

(** The map [PermuteNTTIndex] of the Go struct is never set nor read and is
    left out. *)
Record ModulusSwitcher : Type := mkModulusSwitcher {
  (* ModulusSwitcherBase *)
  params1 : Parameters;
  params2 : Parameters;
  (* ModulusSwitcherBuffers *)
  BuffQ1 : loc * loc;
  BuffQ2 : loc * loc;
  rsBasisExtender : option BasisExtender;
  rsDecomposer : option Decomposer
}.

Definition newModulusSwitcherBase (p1 p2 : Parameters) : Parameters * Parameters :=
  (p1, p2).

Definition newModulusSwitcherBuffers (p1 p2 : Parameters) : M ((loc * loc) * (loc * loc)) :=
  r1 <- deref (RingQ p1) ;;
  a0 <- NewPoly r1 ;;
  r1' <- deref (RingQ p1) ;;
  a1 <- NewPoly r1' ;;
  r2 <- deref (RingQ p2) ;;
  b0 <- NewPoly r2 ;;
  r2' <- deref (RingQ p2) ;;
  b1 <- NewPoly r2' ;;
  ret ((a0, a1), (b0, b1)).

Definition NewModulusSwitcher (p1 p2 : Parameters) : M ModulusSwitcher :=
  let base := newModulusSwitcherBase p1 p2 in
  buffs <- newModulusSwitcherBuffers p1 p2 ;;
  (* Warning! omit checking RingP of srcparams and dstparams are the same *)
  match RingQ p1, RingQ p2 with
  | Some r1, Some r2 =>
      ret (mkModulusSwitcher (fst base) (snd base) (fst buffs) (snd buffs)
             (Some (NewBasisExtender r1 r2)) (Some (NewDecomposer r1 r2)))
  | _, _ =>
      ret (mkModulusSwitcher (fst base) (snd base) (fst buffs) (snd buffs) None None)
  end.

Definition no_match_msg : string :=
  "skIn LevelQ does not match any of the MaxLevelQ of the parameters".

(** The branch of [SwitchSecretKey] on the key's level: destination
    parameters, source ring, destination ring, scratch pair. *)
Definition select_chains (rs : ModulusSwitcher) (lvl : Z)
  : result (Parameters * option Ring * option Ring * (loc * loc)) :=
  if lvl =? MaxLevelQ (params1 rs) then
    Ok (params2 rs, RingQ (params1 rs), RingQ (params2 rs), BuffQ1 rs)
  else if lvl =? MaxLevelQ (params2 rs) then
    Ok (params1 rs, RingQ (params2 rs), RingQ (params1 rs), BuffQ2 rs)
  else Err (Panic no_match_msg).

Definition SwitchSecretKey (rs : ModulusSwitcher) (skIn : SecretKey) : M SecretKey :=
  lvl <- sk_LevelQ skIn ;;
  sel <- lift (select_chains rs lvl) ;;
  let '(params_dst, ringQ1, ringQ2, buff) := sel in
  skOut <- NewSecretKey params_dst ;;
  ExtendBasisSmallNormAndCenterNTTMontgomery
    ringQ1 ringQ2 (ValueQ skIn) (fst buff) (ValueQ skOut) ;;;
  ExtendBasisSmallNormAndCenterNTTMontgomery
    ringQ1 (RingP (params1 rs)) (ValueQ skIn) (fst buff) (ValueP skOut) ;;;
  ret skOut.

(** The locals of [SwitchNew] after its first branch on [dir]. *)
Record SwitchLocals : Type := mkSwitchLocals {
  buffQ1 : loc * loc;
  buffQ2 : loc * loc;
  levelQ2 : Z;
  ctOut0 : Ciphertext;
  ringQ1 : Ring;
  ringQ2 : Ring
}.

Definition set_Scale (ct : Ciphertext) (sc : Scale) : Ciphertext :=
  mkCiphertext (Value ct) sc (IsNTT ct) (IsBatched ct) (LogDimensions ct).

Definition copy_MetaData (ctOut ctIn : Ciphertext) : Ciphertext :=
  mkCiphertext (Value ctOut) (CtScale ctOut)
    (IsNTT ctIn) (IsBatched ctIn) (LogDimensions ctIn).

Definition SwitchNew_setup (rs : ModulusSwitcher) (ctIn : Ciphertext) (dir : bool)
    (levelQ1 : Z) : M SwitchLocals :=
  if dir then
    r1 <- deref (RingQ (params1 rs)) ;;
    r2 <- deref (RingQ (params2 rs)) ;;
    let lQ2 := levelQ1 - Level r1 + Level r2 in
    ctOut <- NewCiphertext (params1 rs) (Degree ctIn) levelQ1 ;;
    rq1 <- lift (AtLevel r1 levelQ1) ;;
    rq2 <- lift (AtLevel r2 lQ2) ;;
    ret (mkSwitchLocals (BuffQ1 rs) (BuffQ2 rs) lQ2
           (set_Scale ctOut (DefaultScale (params2 rs))) rq1 rq2)
  else
    r2 <- deref (RingQ (params2 rs)) ;;
    r1 <- deref (RingQ (params1 rs)) ;;
    let lQ2 := levelQ1 - Level r2 + Level r1 in
    ctOut <- NewCiphertext (params1 rs) (Degree ctIn) lQ2 ;;
    rq1 <- lift (AtLevel r2 levelQ1) ;;
    rq2 <- lift (AtLevel r1 lQ2) ;;
    ret (mkSwitchLocals (BuffQ2 rs) (BuffQ1 rs) lQ2
           (set_Scale ctOut (DefaultScale (params1 rs))) rq1 rq2).

Definition SwitchNew (rs : ModulusSwitcher) (ctIn : Ciphertext) (dir : bool) : M Ciphertext :=
  levelQ1 <- ct_Level ctIn ;;
  lc <- SwitchNew_setup rs ctIn dir levelQ1 ;;
  let ctOut := copy_MetaData (ctOut0 lc) ctIn in
  (if dir then
     for_range (seq 0 (length (Value ctIn))) (fun i =>
       v <- index (Value ctIn) i ;;
       b1 <- index2 (buffQ1 lc) i ;;
       INTTLazy (ringQ1 lc) v b1 ;;;
       b2 <- index2 (buffQ2 lc) i ;;
       ModUpQtoP (rsBasisExtender rs) levelQ1 (levelQ2 lc) b1 b2 ;;;
       o <- index (Value ctOut) i ;;
       NTT (ringQ2 lc) b2 o)
   else
     for_range (seq 0 (length (Value ctIn))) (fun i =>
       v <- index (Value ctIn) i ;;
       b1 <- index2 (buffQ1 lc) i ;;
       INTTLazy (ringQ1 lc) v b1 ;;;
       b2 <- index2 (buffQ2 lc) i ;;
       ModUpPtoQ (rsBasisExtender rs) levelQ1 (levelQ2 lc) b1 b2 ;;;
       o <- index (Value ctOut) i ;;
       NTTLazy (ringQ2 lc) b2 o)) ;;;
  ret ctOut.

(** The two loops differ in the basis extension and in the final
    transform only; the proofs work on their common shape. *)
Definition modup_rows (rs : ModulusSwitcher) (dir : bool) (levelQ1 lQ2 : Z)
  : Coeffs -> option Coeffs :=
  match rsBasisExtender rs with
  | Some be => if dir then ModUpQtoP_rows be levelQ1 lQ2 else ModUpPtoQ_rows be levelQ1 lQ2
  | None => fun _ => None
  end.

Definition ntt_rows (dir : bool) (r : Ring) : Coeffs -> option Coeffs :=
  if dir then NTT_rows r else NTTLazy_rows r.

Definition SwitchNew_body (rs : ModulusSwitcher) (ctIn ctOut : Ciphertext) (dir : bool)
    (levelQ1 : Z) (lc : SwitchLocals) (i : nat) : M unit :=
  v <- index (Value ctIn) i ;;
  b1 <- index2 (buffQ1 lc) i ;;
  INTTLazy (ringQ1 lc) v b1 ;;;
  b2 <- index2 (buffQ2 lc) i ;;
  (if dir
   then ModUpQtoP (rsBasisExtender rs) levelQ1 (levelQ2 lc) b1 b2
   else ModUpPtoQ (rsBasisExtender rs) levelQ1 (levelQ2 lc) b1 b2) ;;;
  o <- index (Value ctOut) i ;;
  (if dir then NTT (ringQ2 lc) b2 o else NTTLazy (ringQ2 lc) b2 o).

End Switcher.

(** ** Rings of degree one

    Modelled from the spec: the Basis Extender of the spec (section 4.1)
    computes, for each destination prime, the residue of the signed integer
    that the source residues represent, centred modulo the product of the
    active source primes; this instance of the library does so exactly.
    At ring degree one the transforms are the identity on each residue, and
    a call at level [l] reads and writes the rows [0..l] only.  The secret
    key extension centres the residue modulo the first prime. *)

Definition crt_step (acc rq : Z * Z) : Z * Z :=
  match find (fun t => (fst acc + snd acc * t) mod snd rq =? fst rq mod snd rq)
             (map Z.of_nat (seq 0 (Z.to_nat (snd rq)))) with
  | Some t => (fst acc + snd acc * t, snd acc * snd rq)
  | None => (fst acc, snd acc * snd rq)
  end.

(** The value in [0, product of moduli) with the given residues, and the product. *)
Definition crt (residues moduli : list Z) : Z * Z :=
  fold_left crt_step (zip residues moduli) (0, 1).

Definition centered (xm : Z * Z) : Z :=
  if snd xm <? 2 * fst xm then fst xm - snd xm else fst xm.

Definition column (j : nat) (c : Coeffs) : list Z :=
  map (fun row => nth j row 0) c.

Definition extend_rows (src dst : list Z) (c : Coeffs) : Coeffs :=
  map (fun p =>
         map (fun j => centered (crt (column j c) src) mod p)
             (seq 0 (length (hd [] c))))
      dst.

Definition rows_at_level (lvl : Z) (c : Coeffs) : option Coeffs :=
  let n := Z.to_nat (lvl + 1) in
  if (length c <? n)%nat then None else Some (take n c).

Definition mod_up (src dst : Ring) (lsrc ldst : Z) (c : Coeffs) : option Coeffs :=
  match rows_at_level lsrc c with
  | Some c' =>
      Some (extend_rows (take (Z.to_nat (lsrc + 1)) (SubRings src))
                        (take (Z.to_nat (ldst + 1)) (SubRings dst)) c')
  | None => None
  end.

Definition small_norm (rq rp : Ring) (c : Coeffs) : option (Coeffs * Coeffs) :=
  match rows_at_level 0 c with
  | Some c0 =>
      Some (c0, extend_rows (take 1 (SubRings rq))
                            (take (Z.to_nat (level rp + 1)) (SubRings rp)) c0)
  | None => None
  end.

Definition DegreeOneRings : RingLibrary := {|
  INTTLazy_rows r c := rows_at_level (level r) c;
  NTT_rows r c := rows_at_level (level r) c;
  NTTLazy_rows r c := rows_at_level (level r) c;
  ModUpQtoP_rows be lQ lP c := mod_up (beRingQ be) (beRingP be) lQ lP c;
  ModUpPtoQ_rows be lP lQ c := mod_up (beRingP be) (beRingQ be) lP lQ c;
  ExtendBasisSmallNorm_rows rq rp c := small_norm rq rp c
|}.

(** ** The out-sourced bootstrapping pipeline of the example program

    The stages are calls into the bootstrapping evaluators of the two
    chains and into the modulus switcher; each call is recorded, and an
    error returned by a stage is raised as a panic, as [main] does. *)

Inductive Evaluator : Type := eval | eval2.

Inductive Part : Type := realct | imagct.

Inductive Call : Type :=
| CallSlotsToCoeffs (ev : Evaluator)
| CallSwitchNew (dir : bool)
| CallScaleDown (ev : Evaluator)
| CallModUp (ev : Evaluator)
| CallCoeffsToSlots (ev : Evaluator)
| CallEvalMod (ev : Evaluator) (part : Part)
| CallMul_i (ev : Evaluator) (part : Part)
| CallAdd (ev : Evaluator).

Definition call {A} (c : Call) (r : result A) : ST (list Call) A :=
  fun tr => (tr ++ [c], r).

Section Pipeline.
Context {Ct : Type}.

(** The external stages: homomorphic evaluator operations and the two
    directions of the modulus switcher. *)
Record Stages : Type := mkStages {
  SlotsToCoeffs : Evaluator -> Ct -> result Ct;
  ScaleDown : Evaluator -> Ct -> result Ct;
  ModUp : Evaluator -> Ct -> result Ct;
  CoeffsToSlots : Evaluator -> Ct -> result (Ct * Ct);
  EvalMod : Evaluator -> Ct -> result Ct;
  Mul_i : Evaluator -> Ct -> result Ct;
  Add : Evaluator -> Ct -> Ct -> result Ct;
  ms_SwitchNew : Ct -> bool -> result Ct
}.

Context (st : Stages).

(** [main], from "Out-sourced bootstrapping.." to "Done". *)
Definition outsourced_bootstrap (ciphertext : Ct) : ST (list Call) Ct :=
  (* Step 1 : SlotsToCoeffs (Homomorphic decoding) *)
  ciphertext <- call (CallSlotsToCoeffs eval) (SlotsToCoeffs st eval ciphertext) ;;
  (* ModSwitch to chain2 *)
  ciphertext2 <- call (CallSwitchNew true) (ms_SwitchNew st ciphertext true) ;;
  (* Step 3: scale to q/|m| *)
  ciphertext2 <- call (CallScaleDown eval2) (ScaleDown st eval2 ciphertext2) ;;
  (* Step 4 : Extend the basis from q to Q *)
  ciphertext2 <- call (CallModUp eval2) (ModUp st eval2 ciphertext2) ;;
  (* Step 5 : CoeffsToSlots (Homomorphic encoding) *)
  ri <- call (CallCoeffsToSlots eval2) (CoeffsToSlots st eval2 ciphertext2) ;;
  (* Step 6 : EvalMod (Homomorphic modular reduction) *)
  realct2 <- call (CallEvalMod eval2 realct) (EvalMod st eval2 (fst ri)) ;;
  imagct2 <- call (CallEvalMod eval2 imagct) (EvalMod st eval2 (snd ri)) ;;
  (* Recombines the real and imaginary part *)
  imagct2 <- call (CallMul_i eval2 imagct) (Mul_i st eval2 imagct2) ;;
  ciphertext2 <- call (CallAdd eval2) (Add st eval2 realct2 imagct2) ;;
  (* ModSwitch back to chain1 *)
  ciphertext21 <- call (CallSwitchNew false) (ms_SwitchNew st ciphertext2 false) ;;
  ret ciphertext21.

(** The calls of a run in which no stage fails. *)
Definition full_run : list Call :=
  [ CallSlotsToCoeffs eval;
    CallSwitchNew true;
    CallScaleDown eval2;
    CallModUp eval2;
    CallCoeffsToSlots eval2;
    CallEvalMod eval2 realct;
    CallEvalMod eval2 imagct;
    CallMul_i eval2 imagct;
    CallAdd eval2;
    CallSwitchNew false ].

End Pipeline.

(** ** Predicates used by the statements *)

(** The four scratch polynomials of a switcher. *)
Definition buffers (rs : ModulusSwitcher) : list loc :=
  [fst (BuffQ1 rs); snd (BuffQ1 rs); fst (BuffQ2 rs); snd (BuffQ2 rs)].

(** Source and destination chain of a switch in direction [dir]. *)
Definition source_params (rs : ModulusSwitcher) (dir : bool) : Parameters :=
  if dir then params1 rs else params2 rs.
Definition destination_params (rs : ModulusSwitcher) (dir : bool) : Parameters :=
  if dir then params2 rs else params1 rs.

(** The scratch array that the components go through first, and second. *)
Definition scratch_in (rs : ModulusSwitcher) (dir : bool) : loc * loc :=
  if dir then BuffQ1 rs else BuffQ2 rs.
Definition scratch_out (rs : ModulusSwitcher) (dir : bool) : loc * loc :=
  if dir then BuffQ2 rs else BuffQ1 rs.

(** The element of a two-element scratch array used by component [i]. *)
Definition pick (a : loc * loc) (i : nat) : loc :=
  match i with
  | O => fst a
  | _ => snd a
  end.

(** The three steps applied to one value component: contents [cv] of the
    component and [old1], [old2] of the two scratch polynomials it goes
    through. *)
Definition switch_rows {L : RingLibrary} (rs : ModulusSwitcher) (dir : bool)
    (r1 r2 : Ring) (l1 l2 : Z) (cv old1 old2 : Coeffs) : option Coeffs :=
  match INTTLazy_rows r1 cv with
  | Some a =>
      match modup_rows rs dir l1 l2 (overwrite old1 a) with
      | Some b => ntt_rows dir r2 (overwrite old2 b)
      | None => None
      end
  | None => None
  end.

(** The setup and the first two iterations of [SwitchNew]. *)
Definition SwitchNew_first_two {L : RingLibrary}
    (rs : ModulusSwitcher) (ctIn : Ciphertext) (dir : bool) : M unit :=
  levelQ1 <- ct_Level ctIn ;;
  lc <- SwitchNew_setup rs ctIn dir levelQ1 ;;
  let ctOut := copy_MetaData (ctOut0 lc) ctIn in
  SwitchNew_body rs ctIn ctOut dir levelQ1 lc 0 ;;;
  SwitchNew_body rs ctIn ctOut dir levelQ1 lc 1.

(** Ownership: the scratch polynomials are four distinct polynomials of
    the store, and no value component of the ciphertext is one of them. *)
Definition switcher_owns (rs : ModulusSwitcher) (s : Store) : Prop :=
  NoDup (buffers rs) /\ Forall (fun l => (l < length s)%nat) (buffers rs).

Definition separate (rs : ModulusSwitcher) (ct : Ciphertext) (s : Store) : Prop :=
  Forall (fun v => (v < length s)%nat /\ v ∉ buffers rs) (Value ct).

(** The two chains disagree on the ring degree or on the auxiliary ring. *)
Definition chains_mismatch (p1 p2 : Parameters) : Prop :=
  (RingDegree <$> RingQ p1) <> (RingDegree <$> RingQ p2) \/ RingP p1 <> RingP p2.

(** A ring whose polynomials can be allocated. *)
Definition ring_sizes_ok (r : Ring) : Prop :=
  0 <= level r + 1 /\ 0 <= RingDegree r.

(** The reading of the selection in which either match decides by itself. *)
Definition selects_by_level (rs : ModulusSwitcher) (lvl : Z) : Prop :=
  (lvl = MaxLevelQ (params1 rs) ->
   select_chains rs lvl =
     Ok (params2 rs, RingQ (params1 rs), RingQ (params2 rs), BuffQ1 rs)) /\
  (lvl = MaxLevelQ (params2 rs) ->
   select_chains rs lvl =
     Ok (params1 rs, RingQ (params2 rs), RingQ (params1 rs), BuffQ2 rs)) /\
  (select_chains rs lvl = Err (Panic no_match_msg) <->
   lvl <> MaxLevelQ (params1 rs) /\ lvl <> MaxLevelQ (params2 rs)).

(** Counting the calls to [SwitchNew] in a direction, and the evaluator a
    call goes to. *)
Definition is_switch (dir : bool) (c : Call) : bool :=
  match c with
  | CallSwitchNew d => Bool.eqb d dir
  | _ => false
  end.

Definition count_switch (dir : bool) (tr : list Call) : nat :=
  length (List.filter (is_switch dir) tr).

Definition evaluator_of (c : Call) : option Evaluator :=
  match c with
  | CallSlotsToCoeffs ev | CallScaleDown ev | CallModUp ev | CallCoeffsToSlots ev
  | CallEvalMod ev _ | CallMul_i ev _ | CallAdd ev => Some ev
  | CallSwitchNew _ => None
  end.

(** ** Relations between the stores before and after a run *)

(** Two stores with the same polynomials of the same numbers of rows, and
    the same contents outside the locations in [W]. *)
Definition same_but (W : loc -> Prop) (s s' : Store) : Prop :=
  map length s' = map length s /\
  (forall l, ~ W l -> s' !! l = s !! l).

(** Every run of [m] relates the stores before and after by [R]. *)
Definition keeps {A} (R : Store -> Store -> Prop) (m : M A) : Prop :=
  forall s s' r, m s = (s', r) -> R s s'.

(** Every value returned by [m] satisfies [P]. *)
Definition returns {A} (m : M A) (P : A -> Prop) : Prop :=
  forall s s' a, m s = (s', Ok a) -> P a.

(** The computation [m] raises no panic of the switcher's own. *)
Definition no_own_panic {A} (m : M A) : Prop :=
  forall s s' msg, m s <> (s', Err (Panic msg)).

(** ** A small configuration

    Chain 1 has the primes 5, 7, 11, chain 2 the primes 13, 17, the
    auxiliary chain the prime 19; the ring degree is one.  The two default
    scales differ so that they can be told apart. *)

Definition chain1 : list Z := [5; 7; 11].
Definition chain2 : list Z := [13; 17].
Definition chainP : list Z := [19].

Definition top_ring (q : list Z) : Ring := mkRing q 1 (Z.of_nat (length q) - 1).

Definition chain_params (q : list Z) (sc : Scale) : Parameters :=
  mkParameters q (Some (top_ring q)) (Some (top_ring chainP)) sc true.

Definition small_params1 : Parameters := chain_params chain1 40.
Definition small_params2 : Parameters := chain_params chain2 41.

(** The residues of the integer [x] modulo the first [n] primes of a chain. *)
Definition residues (x : Z) (n : nat) (q : list Z) : Coeffs :=
  map (fun p => [x mod p]) (take n q).

(** The switcher that [NewModulusSwitcher] builds in an empty store. *)
Definition small_switcher : ModulusSwitcher :=
  mkModulusSwitcher small_params1 small_params2 (0, 1)%nat (2, 3)%nat
    (Some (NewBasisExtender (top_ring chain1) (top_ring chain2)))
    (Some (NewDecomposer (top_ring chain1) (top_ring chain2))).

(** Its scratch polynomials, followed by the given polynomials. *)
Definition small_store (polys : list Coeffs) : Store :=
  [zero_poly (top_ring chain1); zero_poly (top_ring chain1);
   zero_poly (top_ring chain2); zero_poly (top_ring chain2)] ++ polys.

(** A ciphertext whose value components are the locations after the
    scratch polynomials. *)
Definition small_ct (components : nat) : Ciphertext :=
  mkCiphertext (seq 4 components) 40 true true (3, 4).

(** Stores of the small configuration: two components that encode the
    integers 3 and 4 over chain 1 at level 1 and at level 2, and over
    chain 2 at level 1; the key -1 over chain 2; one component at level 0;
    three components. *)
Definition store_level1 : Store := small_store [residues 3 2 chain1; residues 4 2 chain1].
Definition store_level2 : Store := small_store [residues 3 3 chain1; residues 4 3 chain1].
Definition store_chain2 : Store := small_store [residues 3 2 chain2; residues 4 2 chain2].
Definition key_store : Store := small_store [residues (-1) 2 chain2; residues (-1) 1 chainP].
Definition store_three : Store :=
  small_store [residues 3 2 chain1; residues 4 2 chain1; residues 5 2 chain1].

(** A second chain over a ring of degree two with another auxiliary prime. *)
Definition other_degree_params : Parameters :=
  mkParameters chain2 (Some (mkRing chain2 2 1)) (Some (mkRing [23] 2 0)) 41 true.

(** A second small configuration, with chains of equal length: chain 1 has
    the primes 5, 7 and chain 2 the primes 13, 17. *)
Definition short_chain1 : list Z := [5; 7].

Definition equal_switcher : ModulusSwitcher :=
  mkModulusSwitcher (chain_params short_chain1 40) (chain_params chain2 41)
    (0, 1)%nat (2, 3)%nat
    (Some (NewBasisExtender (top_ring short_chain1) (top_ring chain2)))
    (Some (NewDecomposer (top_ring short_chain1) (top_ring chain2))).

Definition equal_store (polys : list Coeffs) : Store :=
  [zero_poly (top_ring short_chain1); zero_poly (top_ring short_chain1);
   zero_poly (top_ring chain2); zero_poly (top_ring chain2)] ++ polys.

(** Stages of the pipeline that all succeed, on integers standing for
    ciphertexts. *)
Definition plain_stages : Stages (Ct := Z) :=
  mkStages (fun _ c => Ok c) (fun _ c => Ok c) (fun _ c => Ok c)
           (fun _ c => Ok (c, c)) (fun _ c => Ok c) (fun _ c => Ok c)
           (fun _ a b => Ok (a + b)) (fun c _ => Ok c).

(** ** The rest of the example programs *)

Section OriginalPipeline.
Context {Ct : Type} (st : Stages (Ct := Ct)).

(** [main], from "Original Bootstrappingping.." to its "Done": the same
    stages, all on the evaluator of chain 1. *)
Definition original_bootstrap (ciphertext : Ct) : ST (list Call) Ct :=
  (* Step 1 : SlotsToCoeffs (Homomorphic decoding) *)
  ciphertext_out1 <- call (CallSlotsToCoeffs eval) (SlotsToCoeffs st eval ciphertext) ;;
  (* Step 3: Scale down to q/|m| *)
  ciphertext_out1 <- call (CallScaleDown eval) (ScaleDown st eval ciphertext_out1) ;;
  (* Step 4 : Extend the basis from q to Q *)
  ciphertext_out1 <- call (CallModUp eval) (ModUp st eval ciphertext_out1) ;;
  (* Step 5 : CoeffsToSlots (Homomorphic encoding) *)
  ri <- call (CallCoeffsToSlots eval) (CoeffsToSlots st eval ciphertext_out1) ;;
  (* Step 6 : EvalMod (Homomorphic modular reduction) *)
  re <- call (CallEvalMod eval realct) (EvalMod st eval (fst ri)) ;;
  im <- call (CallEvalMod eval imagct) (EvalMod st eval (snd ri)) ;;
  (* Recombines the real and imaginary part *)
  im <- call (CallMul_i eval imagct) (Mul_i st eval im) ;;
  ciphertext_out1 <- call (CallAdd eval) (Add st eval re im) ;;
  ret ciphertext_out1.

(** The calls of a run of the original pipeline in which no stage fails. *)
Definition original_run : list Call :=
  [ CallSlotsToCoeffs eval;
    CallScaleDown eval;
    CallModUp eval;
    CallCoeffsToSlots eval;
    CallEvalMod eval realct;
    CallEvalMod eval imagct;
    CallMul_i eval imagct;
    CallAdd eval ].

End OriginalPipeline.

(** Go's [int] on the 64-bit targets: the integers from [-2^63] to
    [2^63 - 1], with sums and differences wrapping around. *)
Definition is_int (z : Z) : Prop := - 2 ^ 63 <= z < 2 ^ 63.

Definition wrap_int (z : Z) : Z := (z + 2 ^ 63) mod 2 ^ 64 - 2 ^ 63.

Definition int_add (a b : Z) : Z := wrap_int (a + b).
Definition int_sub (a b : Z) : Z := wrap_int (a - b).

(** The comparison program, [main]: the ring degree and the integer flag
    handed to [BenchBTS]. *)
Definition compare_LogN (flagShort : bool) : Z :=
  let LogN := 16 in
  if flagShort then int_sub LogN 3 else LogN.

Definition compare_flagShortInt (flagShort : bool) : Z :=
  let flagShortInt := 0 in
  if flagShort then 1 else flagShortInt.

(** [BenchBTS]: the message ratio after the guarded correction
    [LogMessageRatio += 16 - params.LogN()]; [paramsLogN] is the ring
    degree the parameters were built with. *)
Definition BenchBTS_LogMessageRatio (paramsLogN flagShortInt LogMessageRatio : Z) : Z :=
  if flagShortInt =? 0 then int_add LogMessageRatio (int_sub 16 paramsLogN)
  else LogMessageRatio.

(** ** What the library promises about rows

    A call at a level writes the rows of that level, all of them, and
    reads no other row of its source. *)
Definition writes_level_rows (k : Ring -> Coeffs -> option Coeffs) : Prop :=
  forall r c b, k r c = Some b -> length b = Z.to_nat (level r + 1).

Definition reads_level_rows (k : Ring -> Coeffs -> option Coeffs) : Prop :=
  forall r c c',
    take (Z.to_nat (level r + 1)) c = take (Z.to_nat (level r + 1)) c' -> k r c = k r c'.

Definition modup_writes_rows (k : BasisExtender -> Z -> Z -> Coeffs -> option Coeffs) : Prop :=
  forall be lsrc ldst c b, k be lsrc ldst c = Some b -> length b = Z.to_nat (ldst + 1).

Definition modup_reads_rows (k : BasisExtender -> Z -> Z -> Coeffs -> option Coeffs) : Prop :=
  forall be lsrc ldst c c',
    take (Z.to_nat (lsrc + 1)) c = take (Z.to_nat (lsrc + 1)) c' ->
    k be lsrc ldst c = k be lsrc ldst c'.

Record level_local (L : RingLibrary) : Prop := {
  INTTLazy_writes : writes_level_rows INTTLazy_rows;
  ModUpQtoP_reads : modup_reads_rows ModUpQtoP_rows;
  ModUpQtoP_writes : modup_writes_rows ModUpQtoP_rows;
  ModUpPtoQ_reads : modup_reads_rows ModUpPtoQ_rows;
  ModUpPtoQ_writes : modup_writes_rows ModUpPtoQ_rows;
  NTT_reads : reads_level_rows NTT_rows;
  NTTLazy_reads : reads_level_rows NTTLazy_rows
}.

(** A third small configuration, in which chain 2 is the longer chain:
    chain 1 has the primes 13, 17 and chain 2 the primes 5, 7, 11. *)
Definition longer_switcher : ModulusSwitcher :=
  mkModulusSwitcher (chain_params chain2 40) (chain_params chain1 41)
    (0, 1)%nat (2, 3)%nat
    (Some (NewBasisExtender (top_ring chain2) (top_ring chain1)))
    (Some (NewDecomposer (top_ring chain2) (top_ring chain1))).

Definition longer_store : Store :=
  [zero_poly (top_ring chain2); zero_poly (top_ring chain2);
   zero_poly (top_ring chain1); zero_poly (top_ring chain1)]
  ++ [residues 3 2 chain2; residues 4 2 chain2].

(** The store [store_level1] after an earlier use of the switcher left
    residues in its scratch polynomials. *)
Definition store_level1_used : Store :=
  [[[1]; [2]; [3]]; [[4]; [5]; [6]]; [[7]; [8]]; [[9]; [10]]]
  ++ [residues 3 2 chain1; residues 4 2 chain1].


(** Parameters whose ring was never set. *)
Definition nil_params : Parameters := mkParameters chain2 None None 41 true.


(** ** Two runs side by side

    Whatever [m] does from the store [sA], it does the same from every
    store [sB] related to [sA] by [P]: same result, and stores related by
    [Q] when it returns. *)
Definition simulates {A} (P Q : Store -> Store -> Prop) (m : M A) : Prop :=
  forall sA sB sA' r,
    P sA sB -> m sA = (sA', r) ->
    exists sB', m sB = (sB', r) /\ (forall a, r = Ok a -> Q sA' sB').

(** The first [n] rows of the polynomial at [l] are the same in both
    stores. *)
Definition same_rows (n : nat) (l : loc) (sA sB : Store) : Prop :=
  take n <$> sA !! l = take n <$> sB !! l.

(** The rings of degree one, with a basis extension that panics when it
    cannot write all the rows of the destination level (the library indexes
    a prime of the destination chain for each of them). *)
Definition exactly (n : nat) (o : option Coeffs) : option Coeffs :=
  match o with
  | Some b => if (length b =? n)%nat then Some b else None
  | None => None
  end.

Definition LevelCheckedRings : RingLibrary := {|
  INTTLazy_rows r c := rows_at_level (level r) c;
  NTT_rows r c := rows_at_level (level r) c;
  NTTLazy_rows r c := rows_at_level (level r) c;
  ModUpQtoP_rows be lQ lP c :=
    exactly (Z.to_nat (lP + 1)) (mod_up (beRingQ be) (beRingP be) lQ lP c);
  ModUpPtoQ_rows be lP lQ c :=
    exactly (Z.to_nat (lQ + 1)) (mod_up (beRingP be) (beRingQ be) lP lQ c);
  ExtendBasisSmallNorm_rows rq rp c := small_norm rq rp c
|}.


(** The bootstrapping example, [main]: the ring degree, and the message
    ratio after the correction guarded by the flag itself. *)
Definition slim_LogN (flagShort : bool) : Z :=
  let LogN := 16 in
  if flagShort then int_sub LogN 3 else LogN.

Definition slim_LogMessageRatio (flagShort : bool) (LogMessageRatio : Z) : Z :=
  if flagShort then int_add LogMessageRatio (int_sub 16 (slim_LogN flagShort))
  else LogMessageRatio.

(** ** When the library returns

    A transform at a level returns, with the rows of that level, whenever
    its source has them; a basis extension between two levels of its two
    chains returns, with the rows of the destination level, whenever its
    source has the rows of the source level. *)
Definition total_at_level (k : Ring -> Coeffs -> option Coeffs) : Prop :=
  forall r c,
    (Z.to_nat (level r + 1) <= length c)%nat ->
    exists b, k r c = Some b /\ length b = Z.to_nat (level r + 1).

Definition modup_total (src dst : BasisExtender -> Ring)
    (k : BasisExtender -> Z -> Z -> Coeffs -> option Coeffs) : Prop :=
  forall be lsrc ldst c,
    0 <= lsrc <= MaxLevel (src be) -> 0 <= ldst <= MaxLevel (dst be) ->
    (Z.to_nat (lsrc + 1) <= length c)%nat ->
    exists b, k be lsrc ldst c = Some b /\ length b = Z.to_nat (ldst + 1).

Record returns_at_level (L : RingLibrary) : Prop := {
  INTTLazy_total : total_at_level INTTLazy_rows;
  NTT_total : total_at_level NTT_rows;
  NTTLazy_total : total_at_level NTTLazy_rows;
  ModUpQtoP_total : modup_total beRingQ beRingP ModUpQtoP_rows;
  ModUpPtoQ_total : modup_total beRingP beRingQ ModUpPtoQ_rows
}.

(** The polynomial at [l] has at least [n] rows. *)
Definition enough_rows (s : Store) (l : loc) (n : Z) : Prop :=
  exists c, s !! l = Some c /\ n <= Z.of_nat (length c).


(** ** Keys and evaluators of the bootstrapping example

    [main], from the generation of the evaluation keys of chain 1 to the
    second bootstrapping evaluator.  An [error] is nil or a message; the
    library calls are given by what they return. *)
Definition error := option string.

(** What [main] stops with: [panic] called on an error value, or a panic
    raised inside the switcher. *)
Inductive Stopped : Type :=
| panic_error (err : error)
| panic_switcher (p : panic).

Section KeySetup.
Context {Sk Evk Boot : Type}.

Record KeyCalls : Type := mkKeyCalls {
  (* btpParams.GenEvaluationKeys(sk) *)
  GenEvaluationKeys : Sk -> Evk * error;
  (* hefloat.NewModulusSwitcher(params, params2), then ms.SwitchSecretKey(kgen, kgen2, sk) *)
  ms_SwitchSecretKey : Sk -> result Sk;
  (* btpParams2.GenEvaluationKeys(sk2) *)
  GenEvaluationKeys2 : Sk -> Evk * error;
  (* bootstrapping.NewEvaluator(btpParams, evk) *)
  NewEvaluator : Evk -> Boot * error;
  (* bootstrapping.NewEvaluator(btpParams2, evk2) *)
  NewEvaluator2 : Evk -> Boot * error
}.

Definition main_keys (kc : KeyCalls) (sk : Sk) : Stopped + Boot * Boot :=
  let '(evk, err) := GenEvaluationKeys kc sk in
  match err with
  | Some _ => inl (panic_error err)
  | None =>
      match ms_SwitchSecretKey kc sk with
      | Err p => inl (panic_switcher p)
      | Ok sk2 =>
          let '(evk2, err2) := GenEvaluationKeys2 kc sk2 in
          match err2 with
          | Some _ => inl (panic_error err)
          | None =>
              let '(ev, err) := NewEvaluator kc evk in
              match err with
              | Some _ => inl (panic_error err)
              | None =>
                  let '(ev2, err2) := NewEvaluator2 kc evk2 in
                  match err2 with
                  | Some _ => inl (panic_error err2)
                  | None => inr (ev, ev2)
                  end
              end
          end
      end
  end.

End KeySetup.

(** Calls on integers standing for keys, in which only the generation of
    the evaluation keys of chain 2 fails. *)
Definition failing_keys2 : KeyCalls (Sk := Z) (Evk := Z) (Boot := Z) :=
  mkKeyCalls (fun sk => (sk, None)) (fun sk => Ok (sk + 1))
             (fun sk => (sk, Some "keys"%string)) (fun evk => (evk, None))
             (fun evk => (evk, None)).


(** Three components at level 0 of chain 1. *)
Definition store_three_level0 : Store :=
  small_store [residues 3 1 chain1; residues 4 1 chain1; residues 5 1 chain1].


(** * Proofs *)

(** ** Running the monad *)

Lemma bind_inv {S A B} (m : ST S A) (k : A -> ST S B) s s' r :
  bind m k s = (s', r) ->
  (exists s1 a, m s = (s1, Ok a) /\ k a s1 = (s', r)) \/
  (exists e, m s = (s', Err e) /\ r = Err e).
Proof.
  unfold bind. destruct (m s) as [s1 [a | e]]; intros H.
  - left. eauto.
  - right. injection H as <- <-. eauto.
Qed.

Lemma bind_ok_inv {S A B} (m : ST S A) (k : A -> ST S B) s s' b :
  bind m k s = (s', Ok b) ->
  exists s1 a, m s = (s1, Ok a) /\ k a s1 = (s', Ok b).
Proof.
  intros H. destruct (bind_inv _ _ _ _ _ H) as [? | (e & _ & ?)]; [assumption | discriminate].
Qed.

Lemma bind_run_ok {S A B} (m : ST S A) (k : A -> ST S B) s s1 a :
  m s = (s1, Ok a) -> bind m k s = k a s1.
Proof. unfold bind. intros ->. reflexivity. Qed.

Lemma bind_run_err {S A B} (m : ST S A) (k : A -> ST S B) s s1 e :
  m s = (s1, Err e) -> bind m k s = (s1, Err e).
Proof. unfold bind. intros ->. reflexivity. Qed.

Lemma bind_assoc {S A B C} (m : ST S A) (k : A -> ST S B) (k' : B -> ST S C) s :
  bind (bind m k) k' s = bind m (fun a => bind (k a) k') s.
Proof. unfold bind. destruct (m s) as [s1 [a | e]]; reflexivity. Qed.

Lemma bind_ret_l {S A B} (a : A) (k : A -> ST S B) s : bind (ret a) k s = k a s.
Proof. reflexivity. Qed.

Lemma ret_inv {S A} (a : A) (s s' : S) r : ret a s = (s', r) -> s' = s /\ r = Ok a.
Proof. unfold ret. intros H. injection H as <- <-. auto. Qed.

Lemma lift_inv {S A} (x : result A) (s s' : S) r : lift x s = (s', r) -> s' = s /\ r = x.
Proof. unfold lift. intros H. injection H as <- <-. auto. Qed.

Lemma deref_inv {A} (p : option A) (s s' : Store) r :
  deref p s = (s', r) ->
  s' = s /\ (match p with Some a => r = Ok a | None => r = Err NilDereference end).
Proof. destruct p; cbn; intros H; injection H as <- <-; auto. Qed.

Lemma index_inv {A} (l : list A) i (s s' : Store) r :
  index l i s = (s', r) ->
  s' = s /\ (match l !! i with
             | Some a => r = Ok a
             | None => r = Err (IndexOutOfRange (Z.of_nat i) (Z.of_nat (length l)))
             end).
Proof. unfold index. destruct (l !! i); cbn; intros H; injection H as <- <-; auto. Qed.

Lemma index2_inv {A} (a : A * A) i (s s' : Store) r :
  index2 a i s = (s', r) ->
  s' = s /\ (match i with
             | O => r = Ok (fst a)
             | S O => r = Ok (snd a)
             | _ => r = Err (IndexOutOfRange (Z.of_nat i) 2)
             end).
Proof. destruct i as [| [| i]]; cbn; intros H; injection H as <- <-; auto. Qed.

Lemma from_library_inv {A} (o : option A) (s s' : Store) r :
  from_library o s = (s', r) ->
  s' = s /\ (match o with Some a => r = Ok a | None => r = Err (LibraryPanic "ring") end).
Proof. destruct o; cbn; intros H; injection H as <- <-; auto. Qed.

Lemma load_inv l (s s' : Store) r :
  load l s = (s', r) ->
  s' = s /\ (match s !! l with Some c => r = Ok c | None => r = Err NilDereference end).
Proof. unfold load. destruct (s !! l); intros H; injection H as <- <-; auto. Qed.

Lemma write_inv l new (s s' : Store) r :
  write l new s = (s', r) ->
  (exists old, s !! l = Some old /\ (length new <= length old)%nat /\
               s' = <[l := overwrite old new]> s /\ r = Ok tt) \/
  (s' = s /\ exists e, r = Err e).
Proof.
  unfold write. destruct (s !! l) as [old |] eqn:E.
  - destruct (length old <? length new)%nat eqn:E2; intros H; injection H as <- <-.
    + right. eauto.
    + left. exists old. apply Nat.ltb_ge in E2. auto.
  - intros H; injection H as <- <-. right. eauto.
Qed.

Lemma overwrite_length (old new : Coeffs) :
  (length new <= length old)%nat -> length (overwrite old new) = length old.
Proof. intros H. unfold overwrite. rewrite length_app, length_drop. lia. Qed.

(** Inversion of a successful or failed run, one bind at a time. *)
Ltac run_inv H :=
  lazymatch type of H with
  | bind _ _ _ = (_, Ok _) =>
      let s1 := fresh "s" in let a := fresh "a" in
      let H1 := fresh "Hrun" in let H2 := fresh "Hrun" in
      apply bind_ok_inv in H; destruct H as (s1 & a & H1 & H2);
      run_inv H1; run_inv H2
  | ret _ _ = _ => apply ret_inv in H; destruct H as [? H]; subst
  | lift _ _ = _ => apply lift_inv in H; destruct H as [? H]; subst
  | deref _ _ = (_, Ok _) =>
      let E := fresh "Hderef" in
      apply deref_inv in H; destruct H as [? H]; subst;
      lazymatch type of H with
      | match ?p with _ => _ end => destruct p eqn:E; [| discriminate H]
      end
  | index _ _ _ = (_, Ok _) =>
      let E := fresh "Hindex" in
      apply index_inv in H; destruct H as [? H]; subst;
      lazymatch type of H with
      | match ?p with _ => _ end => destruct p eqn:E; [| discriminate H]
      end
  | load _ _ = (_, Ok _) =>
      let E := fresh "Hload" in
      apply load_inv in H; destruct H as [? H]; subst;
      lazymatch type of H with
      | match ?p with _ => _ end => destruct p eqn:E; [| discriminate H]
      end
  | _ => idtac
  end.

Section SwitcherProofs.
Context {L : RingLibrary}.

Lemma SwitchNew_unfold rs ctIn dir :
  SwitchNew rs ctIn dir =
  (levelQ1 <- ct_Level ctIn ;;
   lc <- SwitchNew_setup rs ctIn dir levelQ1 ;;
   for_range (seq 0 (length (Value ctIn)))
     (SwitchNew_body rs ctIn (copy_MetaData (ctOut0 lc) ctIn) dir levelQ1 lc) ;;;
   ret (copy_MetaData (ctOut0 lc) ctIn)).
Proof. unfold SwitchNew, SwitchNew_body. destruct dir; reflexivity. Qed.

(** A successful run, taken apart. *)
Lemma SwitchNew_ok_inv rs ctIn dir s s' out :
  SwitchNew rs ctIn dir s = (s', Ok out) ->
  exists levelQ1 s1 lc,
    ct_Level ctIn s = (s, Ok levelQ1) /\
    SwitchNew_setup rs ctIn dir levelQ1 s = (s1, Ok lc) /\
    for_range (seq 0 (length (Value ctIn)))
      (SwitchNew_body rs ctIn (copy_MetaData (ctOut0 lc) ctIn) dir levelQ1 lc) s1
      = (s', Ok tt) /\
    out = copy_MetaData (ctOut0 lc) ctIn.
Proof.
  rewrite SwitchNew_unfold. intros H.
  apply bind_ok_inv in H. destruct H as (s0 & levelQ1 & Hlvl & H).
  apply bind_ok_inv in H. destruct H as (s1 & lc & Hsetup & H).
  apply bind_ok_inv in H. destruct H as (s2 & u & Hloop & H).
  apply ret_inv in H. destruct H as [-> H]. injection H as ->.
  assert (s0 = s) as ->.
  { unfold ct_Level, poly_Level in Hlvl. run_inv Hlvl. injection Hrun1 as <-. reflexivity. }
  destruct u. eauto 10.
Qed.

(** C7. Whatever the direction, a ciphertext returned by [SwitchNew]
    carries the domain flag, the batching flag and the log-dimensions of
    the input ciphertext. *)
Theorem SwitchNew_copies_metadata rs ctIn dir s s' out :
  SwitchNew rs ctIn dir s = (s', Ok out) ->
  IsNTT out = IsNTT ctIn /\
  IsBatched out = IsBatched ctIn /\
  LogDimensions out = LogDimensions ctIn.
Proof.
  intros H. apply SwitchNew_ok_inv in H.
  destruct H as (levelQ1 & s1 & lc & _ & _ & _ & ->).
  cbn. auto.
Qed.

End SwitcherProofs.

Section ThreeComponents.
Context {L : RingLibrary}.

Lemma SwitchNew_body_third rs ctIn ctOut dir levelQ1 lc s :
  (3 <= length (Value ctIn))%nat ->
  SwitchNew_body rs ctIn ctOut dir levelQ1 lc 2 s = (s, Err (IndexOutOfRange 2 2)).
Proof.
  intros Hlen. unfold SwitchNew_body.
  destruct (lookup_lt_is_Some_2 (Value ctIn) 2%nat ltac:(lia)) as [v Hv].
  unfold bind at 1. unfold index. rewrite Hv. cbn. reflexivity.
Qed.

(** C10, as the code has it.  On a ciphertext with three or more value
    components [SwitchNew] never returns: once the setup and the first two
    iterations have run, the third iteration indexes the two-element
    scratch arrays at 2 and panics with index out of range; a panic raised
    earlier, by the setup or by one of the first two iterations, is the
    panic of the call. *)
Theorem SwitchNew_three_components rs ctIn dir s :
  (3 <= length (Value ctIn))%nat ->
  (exists s1 e, SwitchNew rs ctIn dir s = (s1, Err e)) /\
  SwitchNew rs ctIn dir s =
    match SwitchNew_first_two rs ctIn dir s with
    | (s1, Ok _) => (s1, Err (IndexOutOfRange 2 2))
    | (s1, Err e) => (s1, Err e)
    end.
Proof.
  intros Hlen.
  assert (SwitchNew rs ctIn dir s =
          match SwitchNew_first_two rs ctIn dir s with
          | (s1, Ok _) => (s1, Err (IndexOutOfRange 2 2))
          | (s1, Err e) => (s1, Err e)
          end) as Heq.
  { rewrite SwitchNew_unfold. unfold SwitchNew_first_two.
    destruct (Value ctIn) as [| v0 [| v1 [| v2 vs]]] eqn:Hv; cbn [length] in Hlen; try lia.
    cbn [length seq for_range].
    destruct (ct_Level ctIn s) as [s0 [levelQ1 | e]] eqn:E0;
      [rewrite !(bind_run_ok _ _ _ _ _ E0) | rewrite !(bind_run_err _ _ _ _ _ E0); reflexivity].
    destruct (SwitchNew_setup rs ctIn dir levelQ1 s0) as [s1 [lc | e]] eqn:E1;
      [rewrite !(bind_run_ok _ _ _ _ _ E1) | rewrite !(bind_run_err _ _ _ _ _ E1); reflexivity].
    rewrite !bind_assoc.
    destruct (SwitchNew_body rs ctIn (copy_MetaData (ctOut0 lc) ctIn) dir levelQ1 lc 0 s1)
      as [s2 [u0 | e]] eqn:E2;
      [rewrite !(bind_run_ok _ _ _ _ _ E2) | rewrite !(bind_run_err _ _ _ _ _ E2); reflexivity].
    rewrite !bind_assoc.
    destruct (SwitchNew_body rs ctIn (copy_MetaData (ctOut0 lc) ctIn) dir levelQ1 lc 1 s2)
      as [s3 [u1 | e]] eqn:E3;
      [rewrite !(bind_run_ok _ _ _ _ _ E3) | rewrite !(bind_run_err _ _ _ _ _ E3); reflexivity].
    rewrite !bind_assoc.
    erewrite bind_run_err; [reflexivity |].
    apply SwitchNew_body_third. rewrite Hv. cbn. lia. }
  split; [| exact Heq].
  rewrite Heq. destruct (SwitchNew_first_two rs ctIn dir s) as [s1 [u | e]]; eauto.
Qed.

End ThreeComponents.

Lemma SwitchNew_three_components_witness :
  (3 <= length (Value (small_ct 3)))%nat /\
  snd (SwitchNew (L := DegreeOneRings) small_switcher (small_ct 3) true store_three)
  = Err (IndexOutOfRange 2 2).
Proof.
  split; [cbn; lia |].
  pose proof (SwitchNew_three_components (L := DegreeOneRings) small_switcher (small_ct 3) true
    store_three ltac:(cbn; lia)) as [_ H].
  rewrite H. vm_compute. reflexivity.
Defined.

Lemma SwitchNew_copies_metadata_witness :
  exists s' out,
    SwitchNew (L := DegreeOneRings) small_switcher (small_ct 2) false store_chain2
      = (s', Ok out) /\
    (IsNTT out = IsNTT (small_ct 2) /\
     IsBatched out = IsBatched (small_ct 2) /\
     LogDimensions out = LogDimensions (small_ct 2)).
Proof.
  eexists. eexists. split; [vm_compute; reflexivity |].
  eapply (SwitchNew_copies_metadata (L := DegreeOneRings) small_switcher (small_ct 2) false
            store_chain2).
  vm_compute. reflexivity.
Defined.

(** ** The pipeline *)

Section PipelineProofs.
Context {Ct : Type} (st : Stages (Ct := Ct)).

Ltac step_stage :=
  match goal with
  | |- context [match ?x with Ok _ => _ | Err _ => _ end] =>
      let E := fresh "E" in destruct x eqn:E; cbn
  end.

(** C9. In the out-sourced bootstrap the calls are, in order: homomorphic
    decoding under chain 1, one switch from chain 1 to chain 2, then scale
    down, basis raise, homomorphic encoding, the modular reduction of the
    real and of the imaginary part, the multiplication by i and the
    addition, all on the evaluator of chain 2, and last one switch from
    chain 2 to chain 1.  A stage that fails ends the run with its error:
    the calls made are those up to the failing one. *)
Theorem outsourced_bootstrap_calls (ct : Ct) :
  (forall tr out,
     outsourced_bootstrap st ct [] = (tr, Ok out) ->
     tr = full_run /\
     tr !! 0%nat = Some (CallSlotsToCoeffs eval) /\
     tr !! 1%nat = Some (CallSwitchNew true) /\
     count_switch true tr = 1%nat /\
     (forall k c, (2 <= k < 9)%nat -> tr !! k = Some c -> evaluator_of c = Some eval2) /\
     last tr = Some (CallSwitchNew false) /\
     count_switch false tr = 1%nat) /\
  (forall tr e,
     outsourced_bootstrap st ct [] = (tr, Err e) ->
     exists k, (k < 10)%nat /\ tr = take (S k) full_run).
Proof.
  split.
  - intros tr out. unfold outsourced_bootstrap, call, bind, ret. cbn.
    repeat step_stage; intros H; try discriminate H.
    injection H as <- <-.
    repeat split; try reflexivity.
    intros k c Hk Hc.
    do 9 (destruct k as [| k]; [try lia; cbn in Hc; injection Hc as <-; reflexivity |]).
    lia.
  - intros tr e. unfold outsourced_bootstrap, call, bind, ret. cbn.
    repeat step_stage; intros H; try discriminate H; injection H as <- <-.
    + exists 9%nat. split; [lia | reflexivity].
    + exists 8%nat. split; [lia | reflexivity].
    + exists 7%nat. split; [lia | reflexivity].
    + exists 6%nat. split; [lia | reflexivity].
    + exists 5%nat. split; [lia | reflexivity].
    + exists 4%nat. split; [lia | reflexivity].
    + exists 3%nat. split; [lia | reflexivity].
    + exists 2%nat. split; [lia | reflexivity].
    + exists 1%nat. split; [lia | reflexivity].
    + exists 0%nat. split; [lia | reflexivity].
Qed.

End PipelineProofs.

Lemma outsourced_bootstrap_calls_witness :
  outsourced_bootstrap plain_stages 1 [] = (full_run, Ok 2) /\
  full_run !! 1%nat = Some (CallSwitchNew true) /\
  last full_run = Some (CallSwitchNew false).
Proof.
  split; [reflexivity |].
  destruct (proj1 (outsourced_bootstrap_calls plain_stages 1) full_run 2 eq_refl)
    as (_ & _ & H1 & _ & _ & H2 & _).
  split; [exact H1 | exact H2].
Defined.

(** ** Construction *)

Lemma NewPoly_run (r : Ring) (s : Store) :
  ring_sizes_ok r -> NewPoly r s = (s ++ [zero_poly r], Ok (length s)).
Proof.
  intros [H1 H2]. unfold NewPoly.
  destruct (level r + 1 <? 0) eqn:E1; [apply Z.ltb_lt in E1; lia |].
  destruct (RingDegree r <? 0) eqn:E2; [apply Z.ltb_lt in E2; lia |].
  reflexivity.
Qed.

(** C5, as the code has it.  [NewModulusSwitcher] compares neither the ring
    degrees nor the auxiliary rings of the two chains: whenever both chains
    have a ring whose polynomials can be allocated, it returns the switcher
    over the two parameter sets, with four fresh zero scratch polynomials
    and a basis extender and a decomposer between the two rings; and it
    never raises a panic of its own. *)
Theorem NewModulusSwitcher_no_validation (p1 p2 : Parameters) (r1 r2 : Ring) (s : Store) :
  RingQ p1 = Some r1 -> RingQ p2 = Some r2 ->
  ring_sizes_ok r1 -> ring_sizes_ok r2 ->
  NewModulusSwitcher p1 p2 s =
    (s ++ [zero_poly r1; zero_poly r1; zero_poly r2; zero_poly r2],
     Ok (mkModulusSwitcher p1 p2
           (length s, S (length s)) (S (S (length s)), S (S (S (length s))))
           (Some (NewBasisExtender r1 r2)) (Some (NewDecomposer r1 r2)))) /\
  (forall p1' p2' s0 s' msg, NewModulusSwitcher p1' p2' s0 <> (s', Err (Panic msg))).
Proof.
  intros H1 H2 Hr1 Hr2. split.
  - unfold NewModulusSwitcher, newModulusSwitcherBuffers, newModulusSwitcherBase.
    rewrite H1, H2. cbn [deref].
    repeat (rewrite ?bind_assoc;
            first [ rewrite bind_ret_l
                  | erewrite bind_run_ok by (apply NewPoly_run; assumption) ];
            cbv beta).
    unfold ret. cbn [fst snd]. rewrite !length_app. cbn [length].
    rewrite <- !app_assoc. cbn [app].
    repeat f_equal; lia.
  - intros p1' p2' s0 s' msg H.
    unfold NewModulusSwitcher, newModulusSwitcherBuffers, NewPoly in H.
    repeat match type of H with
    | bind _ _ _ = _ =>
        apply bind_inv in H;
        destruct H as [(? & ? & _ & H) | (? & H & ?)]
    end;
    repeat match type of H with
    | context [deref ?p] => destruct p; cbn in H
    | context [if ?c then _ else _] => destruct c
    | context [match RingQ ?p with _ => _ end] => destruct (RingQ p)
    end;
    unfold raise, alloc, ret in *; congruence.
Qed.

(** Counterexample to a validating constructor.  Two chains over rings of
    different degree and with different auxiliary rings are accepted. *)
Lemma NewModulusSwitcher_accepts_mismatch :
  (RingDegree <$> RingQ small_params1) <> (RingDegree <$> RingQ other_degree_params) /\
  RingP small_params1 <> RingP other_degree_params /\
  chains_mismatch small_params1 other_degree_params /\
  is_ok (snd (NewModulusSwitcher small_params1 other_degree_params [])) = true.
Proof.
  assert ((RingDegree <$> RingQ small_params1) <> (RingDegree <$> RingQ other_degree_params))
    as H by (cbn; discriminate).
  split; [exact H |]. split; [cbn; discriminate |].
  split; [left; exact H | reflexivity].
Qed.

Lemma NewModulusSwitcher_no_validation_witness :
  NewModulusSwitcher small_params1 other_degree_params [] =
    ([[[0]; [0]; [0]]; [[0]; [0]; [0]]; [[0; 0]; [0; 0]]; [[0; 0]; [0; 0]]],
     Ok (mkModulusSwitcher small_params1 other_degree_params (0, 1)%nat (2, 3)%nat
           (Some (NewBasisExtender (top_ring chain1) (mkRing chain2 2 1)))
           (Some (NewDecomposer (top_ring chain1) (mkRing chain2 2 1))))).
Proof.
  apply (NewModulusSwitcher_no_validation small_params1 other_degree_params
           (top_ring chain1) (mkRing chain2 2 1) []);
    [reflexivity | reflexivity | split; cbn; lia | split; cbn; lia].
Defined.

(** ** The store under writes and allocations *)

Lemma write_frame l new (s s' : Store) r :
  write l new s = (s', r) ->
  map length s' = map length s /\
  (forall l', l' <> l -> s' !! l' = s !! l').
Proof.
  intros H. apply write_inv in H.
  destruct H as [(old & Hold & Hlen & -> & _) | [-> _]]; [| auto].
  split.
  - apply list_eq. intros j. rewrite !list_lookup_fmap.
    destruct (decide (j = l)) as [-> |].
    + rewrite list_lookup_insert_eq by (eapply lookup_lt_Some; eauto).
      rewrite Hold. cbn. f_equal. apply overwrite_length. exact Hlen.
    + rewrite list_lookup_insert_ne by congruence. reflexivity.
  - intros l' Hne. apply list_lookup_insert_ne. congruence.
Qed.

Lemma transform_inv (k : Coeffs -> option Coeffs) p1 p2 (s s' : Store) :
  transform k p1 p2 s = (s', Ok tt) ->
  exists c r old,
    s !! p1 = Some c /\ k c = Some r /\ s !! p2 = Some old /\
    s' = <[p2 := overwrite old r]> s.
Proof.
  unfold transform. intros H.
  apply bind_ok_inv in H. destruct H as (s1 & c & Hc & H).
  apply load_inv in Hc. destruct Hc as [-> Hc].
  destruct (s !! p1) as [c' |] eqn:E1; [injection Hc as -> | discriminate].
  apply bind_ok_inv in H. destruct H as (s2 & r & Hr & H).
  apply from_library_inv in Hr. destruct Hr as [-> Hr].
  destruct (k c') as [r' |] eqn:Ek; [injection Hr as -> | discriminate].
  apply write_inv in H.
  destruct H as [(old & Hold & Hlen & -> & _) | (_ & e & He)]; [| discriminate].
  eauto 10.
Qed.

Lemma transform_frame (k : Coeffs -> option Coeffs) p1 p2 (s s' : Store) r :
  transform k p1 p2 s = (s', r) ->
  map length s' = map length s /\
  (forall l', l' <> p2 -> s' !! l' = s !! l').
Proof.
  unfold transform. intros H.
  apply bind_inv in H. destruct H as [(s1 & c & H1 & H) | (e & H1 & _)].
  - apply load_inv in H1. destruct H1 as [-> _].
    apply bind_inv in H. destruct H as [(s2 & x & H2 & H) | (e & H2 & _)].
    + apply from_library_inv in H2. destruct H2 as [-> _]. eapply write_frame; eauto.
    + apply from_library_inv in H2. destruct H2 as [-> _]. auto.
  - apply load_inv in H1. destruct H1 as [-> _]. auto.
Qed.

Lemma NewPoly_inv r (s s' : Store) l :
  NewPoly r s = (s', Ok l) -> s' = s ++ [zero_poly r] /\ l = length s.
Proof.
  unfold NewPoly. destruct (_ || _); [discriminate |].
  unfold alloc. intros H. injection H as <- <-. auto.
Qed.

Lemma NewPoly_grows r (s s' : Store) x :
  NewPoly r s = (s', x) -> exists ext, s' = s ++ ext.
Proof.
  unfold NewPoly. destruct (_ || _).
  - intros H. injection H as <- <-. exists []. symmetry. apply app_nil_r.
  - unfold alloc. intros H. injection H as <- <-. eauto.
Qed.

Lemma NewPolys_inv n r (s s' : Store) vs :
  NewPolys n r s = (s', Ok vs) ->
  s' = s ++ replicate n (zero_poly r) /\ vs = seq (length s) n.
Proof.
  revert s s' vs. induction n as [| n IH]; intros s s' vs H; cbn in H.
  - apply ret_inv in H. destruct H as [-> H]. injection H as ->.
    cbn. rewrite app_nil_r. auto.
  - apply bind_ok_inv in H. destruct H as (s1 & l & Hl & H).
    apply bind_ok_inv in H. destruct H as (s2 & ls & Hls & H).
    apply ret_inv in H. destruct H as [-> H]. injection H as ->.
    apply NewPoly_inv in Hl. destruct Hl as [-> ->].
    apply IH in Hls. destruct Hls as [-> ->].
    rewrite length_app. cbn. rewrite <- app_assoc. cbn.
    split; [reflexivity |]. f_equal. f_equal. lia.
Qed.

Lemma NewPolys_grows n r (s s' : Store) x :
  NewPolys n r s = (s', x) -> exists ext, s' = s ++ ext.
Proof.
  revert s s' x. induction n as [| n IH]; intros s s' x H; cbn in H.
  - apply ret_inv in H. destruct H as [-> _]. exists []. symmetry. apply app_nil_r.
  - apply bind_inv in H. destruct H as [(s1 & l & Hl & H) | (e & Hl & _)].
    + apply NewPoly_grows in Hl. destruct Hl as [e1 ->].
      apply bind_inv in H. destruct H as [(s2 & ls & Hls & H) | (e & Hls & _)].
      * apply ret_inv in H. destruct H as [-> _].
        apply IH in Hls. destruct Hls as [e2 ->]. exists (e1 ++ e2). apply eq_sym, app_assoc.
      * apply IH in Hls. destruct Hls as [e2 ->]. exists (e1 ++ e2). apply eq_sym, app_assoc.
    + eapply NewPoly_grows; eauto.
Qed.

Lemma NewCiphertext_inv p deg lvl (s s' : Store) ct :
  NewCiphertext p deg lvl s = (s', Ok ct) ->
  exists rq r,
    RingQ p = Some rq /\ AtLevel rq lvl = Ok r /\ 0 <= deg + 1 /\
    s' = s ++ replicate (Z.to_nat (deg + 1)) (zero_poly r) /\
    ct = mkCiphertext (seq (length s) (Z.to_nat (deg + 1))) 0 (nttFlag p) false (0, 0).
Proof.
  unfold NewCiphertext. intros H.
  apply bind_ok_inv in H. destruct H as (s1 & rq & Hrq & H).
  apply deref_inv in Hrq. destruct Hrq as [-> Hrq].
  destruct (RingQ p) as [rq' |] eqn:E; [injection Hrq as -> | discriminate].
  apply bind_ok_inv in H. destruct H as (s2 & r & Hr & H).
  apply lift_inv in Hr. destruct Hr as [-> Hr].
  destruct (deg + 1 <? 0) eqn:Edeg; [discriminate |].
  apply Z.ltb_ge in Edeg.
  apply bind_ok_inv in H. destruct H as (s3 & vs & Hvs & H).
  apply ret_inv in H. destruct H as [-> H]. injection H as ->.
  apply NewPolys_inv in Hvs. destruct Hvs as [-> ->].
  eauto 10.
Qed.

Lemma NewCiphertext_grows p deg lvl (s s' : Store) x :
  NewCiphertext p deg lvl s = (s', x) -> exists ext, s' = s ++ ext.
Proof.
  unfold NewCiphertext. intros H.
  assert (exists ext, s = s ++ ext) as Hself by (exists []; symmetry; apply app_nil_r).
  apply bind_inv in H. destruct H as [(s1 & rq & Hrq & H) | (e & Hrq & _)];
    apply deref_inv in Hrq; destruct Hrq as [-> _]; [| exact Hself].
  apply bind_inv in H. destruct H as [(s2 & r & Hr & H) | (e & Hr & _)];
    apply lift_inv in Hr; destruct Hr as [-> _]; [| exact Hself].
  destruct (deg + 1 <? 0).
  - injection H as <- _. exact Hself.
  - apply bind_inv in H. destruct H as [(s3 & vs & Hvs & H) | (e & Hvs & _)].
    + apply ret_inv in H. destruct H as [-> _]. eapply NewPolys_grows; eauto.
    + eapply NewPolys_grows; eauto.
Qed.

(** ** Frames *)

Lemma same_but_refl W s : same_but W s s.
Proof. split; auto. Qed.

Lemma same_but_trans W s1 s2 s3 :
  same_but W s1 s2 -> same_but W s2 s3 -> same_but W s1 s3.
Proof.
  intros [H1 H2] [H3 H4]. split; [congruence |].
  intros l Hl. rewrite H4, H2 by assumption. reflexivity.
Qed.

Lemma same_but_length W s s' : same_but W s s' -> length s' = length s.
Proof. intros [H _]. apply (f_equal length) in H. rewrite !length_map in H. exact H. Qed.

Lemma same_but_rows W s s' l c :
  same_but W s s' -> s !! l = Some c ->
  exists c', s' !! l = Some c' /\ length c' = length c.
Proof.
  intros [H _] Hc.
  assert (map length s' !! l = Some (length c)) as Hl
    by (rewrite H, list_lookup_fmap, Hc; reflexivity).
  rewrite list_lookup_fmap in Hl.
  destruct (s' !! l) as [c' |]; [| discriminate].
  injection Hl as Hl. eauto.
Qed.

Lemma keeps_ret {A} W (a : A) : keeps (same_but W) (ret a).
Proof. intros s s' r H. apply ret_inv in H. destruct H as [-> _]. apply same_but_refl. Qed.

Lemma keeps_deref {A} W (p : option A) : keeps (same_but W) (deref p).
Proof. intros s s' r H. apply deref_inv in H. destruct H as [-> _]. apply same_but_refl. Qed.

Lemma keeps_index {A} W (l : list A) i : keeps (same_but W) (index l i).
Proof. intros s s' r H. apply index_inv in H. destruct H as [-> _]. apply same_but_refl. Qed.

Lemma keeps_index2 {A} W (a : A * A) i : keeps (same_but W) (index2 a i).
Proof. intros s s' r H. apply index2_inv in H. destruct H as [-> _]. apply same_but_refl. Qed.

Lemma keeps_transform W k p1 p2 : W p2 -> keeps (same_but W) (transform k p1 p2).
Proof.
  intros HW s s' r H. apply transform_frame in H. destruct H as [H1 H2].
  split; [exact H1 |]. intros l Hl. apply H2. intros ->. contradiction.
Qed.

Lemma keeps_bind {A B} W (m : M A) (k : A -> M B) (P : A -> Prop) :
  keeps (same_but W) m -> returns m P ->
  (forall a, P a -> keeps (same_but W) (k a)) ->
  keeps (same_but W) (bind m k).
Proof.
  intros Hm HP Hk s s' r H.
  apply bind_inv in H. destruct H as [(s1 & a & H1 & H2) | (e & H1 & _)].
  - eapply same_but_trans; [eapply Hm; eauto |]. eapply Hk; eauto.
  - eapply Hm; eauto.
Qed.

Lemma keeps_bind_any {A B} W (m : M A) (k : A -> M B) :
  keeps (same_but W) m -> (forall a, keeps (same_but W) (k a)) ->
  keeps (same_but W) (bind m k).
Proof.
  intros Hm Hk. apply (keeps_bind W m k (fun _ => True)); auto.
  intros s s' a _. exact I.
Qed.

Lemma returns_index2 {A} (a : A * A) i : returns (index2 a i) (fun x => x = fst a \/ x = snd a).
Proof.
  intros s s' x H. apply index2_inv in H. destruct H as [_ H].
  destruct i as [| [| i]]; try discriminate; injection H as <-; auto.
Qed.

Lemma returns_index {A} (l : list A) i : returns (index l i) (fun x => x ∈ l).
Proof.
  intros s s' x H. apply index_inv in H. destruct H as [_ H].
  destruct (l !! i) eqn:E; [| discriminate]. injection H as <-.
  eapply list_elem_of_lookup_2; eauto.
Qed.

Lemma keeps_for_range W idxs body :
  (forall i, keeps (same_but W) (body i)) -> keeps (same_but W) (for_range idxs body).
Proof.
  intros Hb. induction idxs as [| i idxs IH]; cbn.
  - apply keeps_ret.
  - apply keeps_bind_any; auto.
Qed.

Section FrameProofs.
Context {L : RingLibrary}.

Lemma keeps_ModUp W (dir : bool) be l1 l2 p1 p2 :
  W p2 ->
  keeps (same_but W)
    (if dir then ModUpQtoP be l1 l2 p1 p2 else ModUpPtoQ be l1 l2 p1 p2).
Proof.
  intros HW. destruct dir; unfold ModUpQtoP, ModUpPtoQ;
    (apply keeps_bind_any; [apply keeps_deref | intros b; apply keeps_transform; exact HW]).
Qed.

(** One iteration writes the two scratch polynomials it goes through and
    the output component, nothing else. *)
Lemma keeps_SwitchNew_body rs ctIn ctOut dir levelQ1 lc i :
  keeps (same_but (fun l => l ∈ [fst (buffQ1 lc); snd (buffQ1 lc);
                                  fst (buffQ2 lc); snd (buffQ2 lc)] \/
                             l ∈ Value ctOut))
        (SwitchNew_body rs ctIn ctOut dir levelQ1 lc i).
Proof.
  unfold SwitchNew_body.
  apply keeps_bind_any; [apply keeps_index | intros v].
  eapply keeps_bind; [apply keeps_index2 | apply returns_index2 | intros b1 Hb1].
  apply keeps_bind_any.
  { apply keeps_transform. left. destruct Hb1 as [-> | ->]; repeat constructor. }
  intros _.
  eapply keeps_bind; [apply keeps_index2 | apply returns_index2 | intros b2 Hb2].
  apply keeps_bind_any.
  { apply keeps_ModUp. left. destruct Hb2 as [-> | ->]; repeat constructor. }
  intros _.
  eapply keeps_bind; [apply keeps_index | apply returns_index | intros o Ho].
  destruct dir; apply keeps_transform; right; exact Ho.
Qed.

End FrameProofs.

(** ** The setup of [SwitchNew] *)

Lemma AtLevel_inv r l r' :
  AtLevel r l = Ok r' ->
  0 <= l <= MaxLevel r /\ r' = mkRing (SubRings r) (RingDegree r) l.
Proof.
  unfold AtLevel. destruct (l <? 0) eqn:E1; [discriminate |].
  destruct (MaxLevel r <? l) eqn:E2; [discriminate |].
  intros H. injection H as <-. apply Z.ltb_ge in E1, E2. auto.
Qed.


Lemma AtLevel_err r l e : AtLevel r l = Err e -> exists msg, e = LibraryPanic msg.
Proof.
  unfold AtLevel. destruct (l <? 0); [intros H; injection H as <-; eauto |].
  destruct (MaxLevel r <? l); [intros H; injection H as <-; eauto | discriminate].
Qed.

Lemma Degree_components ct : Z.to_nat (Degree ct + 1) = length (Value ct).
Proof. unfold Degree. lia. Qed.

Lemma ct_Level_inv ct (s s' : Store) l :
  ct_Level ct s = (s', Ok l) ->
  s' = s /\ exists v0 c, Value ct !! 0%nat = Some v0 /\ s !! v0 = Some c /\
                         l = Z.of_nat (length c) - 1.
Proof.
  unfold ct_Level, poly_Level. intros H.
  apply bind_ok_inv in H. destruct H as (s1 & v0 & Hv & H).
  apply index_inv in Hv. destruct Hv as [-> Hv].
  destruct (Value ct !! 0%nat) as [v |] eqn:E; [injection Hv as -> | discriminate].
  apply bind_ok_inv in H. destruct H as (s2 & c & Hc & H).
  apply load_inv in Hc. destruct Hc as [-> Hc].
  destruct (s !! v) as [c' |] eqn:E'; [injection Hc as -> | discriminate].
  apply ret_inv in H. destruct H as [-> H]. injection H as ->.
  eauto 10.
Qed.

Lemma ct_Level_pure ct (s s' : Store) r : ct_Level ct s = (s', r) -> s' = s.
Proof.
  unfold ct_Level, poly_Level. intros H.
  apply bind_inv in H. destruct H as [(s1 & v0 & Hv & H) | (e & Hv & _)];
    apply index_inv in Hv; destruct Hv as [-> _]; [| reflexivity].
  apply bind_inv in H. destruct H as [(s2 & c & Hc & H) | (e & Hc & _)];
    apply load_inv in Hc; destruct Hc as [-> _]; [| reflexivity].
  apply ret_inv in H. tauto.
Qed.

Lemma ct_Level_run ct (s : Store) v0 c :
  Value ct !! 0%nat = Some v0 -> s !! v0 = Some c ->
  ct_Level ct s = (s, Ok (Z.of_nat (length c) - 1)).
Proof.
  intros Hv Hc. unfold ct_Level, poly_Level, bind, index, load.
  rewrite Hv. cbn. rewrite Hc. reflexivity.
Qed.

Section SetupProofs.
Context {L : RingLibrary}.

Lemma SwitchNew_setup_inv rs ctIn dir l1 (s s1 : Store) lc :
  SwitchNew_setup rs ctIn dir l1 s = (s1, Ok lc) ->
  exists rsrc rdst,
    RingQ (source_params rs dir) = Some rsrc /\
    RingQ (destination_params rs dir) = Some rdst /\
    levelQ2 lc = l1 - Level rsrc + Level rdst /\
    AtLevel rsrc l1 = Ok (ringQ1 lc) /\
    AtLevel rdst (levelQ2 lc) = Ok (ringQ2 lc) /\
    buffQ1 lc = scratch_in rs dir /\
    buffQ2 lc = scratch_out rs dir /\
    s1 = s ++ replicate (length (Value ctIn))
                 (zero_poly (if dir then ringQ1 lc else ringQ2 lc)) /\
    ctOut0 lc = mkCiphertext (seq (length s) (length (Value ctIn)))
                  (DefaultScale (destination_params rs dir))
                  (nttFlag (params1 rs)) false (0, 0).
Proof.
  unfold SwitchNew_setup. intros H. destruct dir.
  - apply bind_ok_inv in H. destruct H as (s2 & r1 & Hr1 & H).
    apply deref_inv in Hr1. destruct Hr1 as [-> Hr1].
    destruct (RingQ (params1 rs)) as [r1' |] eqn:E1; [injection Hr1 as -> | discriminate].
    apply bind_ok_inv in H. destruct H as (s2 & r2 & Hr2 & H).
    apply deref_inv in Hr2. destruct Hr2 as [-> Hr2].
    destruct (RingQ (params2 rs)) as [r2' |] eqn:E2; [injection Hr2 as -> | discriminate].
    apply bind_ok_inv in H. destruct H as (s2 & ct & Hct & H).
    apply NewCiphertext_inv in Hct.
    destruct Hct as (rq & r & Hrq & Hr & Hdeg & -> & ->).
    rewrite E1 in Hrq. injection Hrq as <-.
    apply bind_ok_inv in H. destruct H as (s3 & rq1 & Hrq1 & H).
    apply lift_inv in Hrq1. destruct Hrq1 as [-> Hrq1].
    apply bind_ok_inv in H. destruct H as (s3 & rq2 & Hrq2 & H).
    apply lift_inv in Hrq2. destruct Hrq2 as [-> Hrq2].
    apply ret_inv in H. destruct H as [-> H]. injection H as ->.
    rewrite Hr in Hrq1. injection Hrq1 as <-.
    rewrite Degree_components.
    do 2 eexists. cbn. repeat split; eauto.
  - apply bind_ok_inv in H. destruct H as (s2 & r2 & Hr2 & H).
    apply deref_inv in Hr2. destruct Hr2 as [-> Hr2].
    destruct (RingQ (params2 rs)) as [r2' |] eqn:E2; [injection Hr2 as -> | discriminate].
    apply bind_ok_inv in H. destruct H as (s2 & r1 & Hr1 & H).
    apply deref_inv in Hr1. destruct Hr1 as [-> Hr1].
    destruct (RingQ (params1 rs)) as [r1' |] eqn:E1; [injection Hr1 as -> | discriminate].
    apply bind_ok_inv in H. destruct H as (s2 & ct & Hct & H).
    apply NewCiphertext_inv in Hct.
    destruct Hct as (rq & r & Hrq & Hr & Hdeg & -> & ->).
    rewrite E1 in Hrq. injection Hrq as <-.
    apply bind_ok_inv in H. destruct H as (s3 & rq1 & Hrq1 & H).
    apply lift_inv in Hrq1. destruct Hrq1 as [-> Hrq1].
    apply bind_ok_inv in H. destruct H as (s3 & rq2 & Hrq2 & H).
    apply lift_inv in Hrq2. destruct Hrq2 as [-> Hrq2].
    apply ret_inv in H. destruct H as [-> H]. injection H as ->.
    rewrite Hr in Hrq2. injection Hrq2 as <-.
    rewrite Degree_components.
    do 2 eexists. cbn. repeat split; eauto.
Qed.

Lemma SwitchNew_setup_grows rs ctIn dir l1 (s s1 : Store) x :
  SwitchNew_setup rs ctIn dir l1 s = (s1, x) -> exists ext, s1 = s ++ ext.
Proof.
  assert (exists ext, s = s ++ ext) as Hself by (exists []; symmetry; apply app_nil_r).
  unfold SwitchNew_setup. intros H. destruct dir.
  - apply bind_inv in H. destruct H as [(s2 & r1 & Hr1 & H) | (e & Hr1 & _)];
      apply deref_inv in Hr1; destruct Hr1 as [-> _]; [| exact Hself].
    apply bind_inv in H. destruct H as [(s2 & r2 & Hr2 & H) | (e & Hr2 & _)];
      apply deref_inv in Hr2; destruct Hr2 as [-> _]; [| exact Hself].
    apply bind_inv in H. destruct H as [(s2 & ct & Hct & H) | (e & Hct & _)];
      apply NewCiphertext_grows in Hct; [| exact Hct].
    apply bind_inv in H. destruct H as [(s3 & rq1 & Hrq1 & H) | (e & Hrq1 & _)];
      apply lift_inv in Hrq1; destruct Hrq1 as [-> _]; [| exact Hct].
    apply bind_inv in H. destruct H as [(s3 & rq2 & Hrq2 & H) | (e & Hrq2 & _)];
      apply lift_inv in Hrq2; destruct Hrq2 as [-> _]; [| exact Hct].
    apply ret_inv in H. destruct H as [-> _]. exact Hct.
  - apply bind_inv in H. destruct H as [(s2 & r1 & Hr1 & H) | (e & Hr1 & _)];
      apply deref_inv in Hr1; destruct Hr1 as [-> _]; [| exact Hself].
    apply bind_inv in H. destruct H as [(s2 & r2 & Hr2 & H) | (e & Hr2 & _)];
      apply deref_inv in Hr2; destruct Hr2 as [-> _]; [| exact Hself].
    apply bind_inv in H. destruct H as [(s2 & ct & Hct & H) | (e & Hct & _)];
      apply NewCiphertext_grows in Hct; [| exact Hct].
    apply bind_inv in H. destruct H as [(s3 & rq1 & Hrq1 & H) | (e & Hrq1 & _)];
      apply lift_inv in Hrq1; destruct Hrq1 as [-> _]; [| exact Hct].
    apply bind_inv in H. destruct H as [(s3 & rq2 & Hrq2 & H) | (e & Hrq2 & _)];
      apply lift_inv in Hrq2; destruct Hrq2 as [-> _]; [| exact Hct].
    apply ret_inv in H. destruct H as [-> _]. exact Hct.
Qed.

End SetupProofs.

(** ** Frame of [SwitchNew] *)

Section SwitchNewFrame.
Context {L : RingLibrary}.

Lemma scratch_in_buffers rs dir l :
  l = fst (scratch_in rs dir) \/ l = snd (scratch_in rs dir) -> l ∈ buffers rs.
Proof. unfold buffers, scratch_in. destruct dir; intros [-> | ->]; repeat constructor. Qed.

Lemma scratch_out_buffers rs dir l :
  l = fst (scratch_out rs dir) \/ l = snd (scratch_out rs dir) -> l ∈ buffers rs.
Proof. unfold buffers, scratch_out. destruct dir; intros [-> | ->]; repeat constructor. Qed.

(** Whatever the outcome, polynomials that existed before the call and are
    not scratch polynomials of the switcher keep their contents, and a
    returned ciphertext has its components in storage allocated by the
    call. *)
Lemma SwitchNew_changes rs ctIn dir (s s' : Store) r :
  SwitchNew rs ctIn dir s = (s', r) ->
  (length s <= length s')%nat /\
  (forall l, (l < length s)%nat -> l ∉ buffers rs -> s' !! l = s !! l) /\
  (forall out, r = Ok out ->
     Value out = seq (length s) (length (Value ctIn)) /\
     length s' = (length s + length (Value ctIn))%nat).
Proof.
  rewrite SwitchNew_unfold. intros H.
  apply bind_inv in H. destruct H as [(s0 & l1 & Hl1 & H) | (e & Hl1 & ->)];
    apply ct_Level_pure in Hl1; subst;
    [| split; [lia | split; [auto | intros out Hout; discriminate]]].
  apply bind_inv in H. destruct H as [(s1 & lc & Hlc & H) | (e & Hlc & ->)].
  2:{ apply SwitchNew_setup_grows in Hlc. destruct Hlc as [ext ->].
      split; [rewrite length_app; lia |].
      split; [| intros out Hout; discriminate].
      intros l Hl _. apply lookup_app_l. exact Hl. }
  apply SwitchNew_setup_inv in Hlc.
  destruct Hlc as (rsrc & rdst & _ & _ & _ & _ & _ & Hb1 & Hb2 & -> & Hct).
  assert (same_but (fun l => l ∈ [fst (buffQ1 lc); snd (buffQ1 lc);
                                   fst (buffQ2 lc); snd (buffQ2 lc)] \/
                              l ∈ Value (copy_MetaData (ctOut0 lc) ctIn))
            (s ++ replicate (length (Value ctIn))
                    (zero_poly (if dir then ringQ1 lc else ringQ2 lc))) s') as Hsame.
  { apply bind_inv in H. destruct H as [(s2 & u & Hloop & H) | (e & Hloop & _)].
    - apply ret_inv in H. destruct H as [-> _].
      eapply keeps_for_range; [| exact Hloop]. intros i. apply keeps_SwitchNew_body.
    - eapply keeps_for_range; [| exact Hloop]. intros i. apply keeps_SwitchNew_body. }
  pose proof (same_but_length _ _ _ Hsame) as Hlen.
  rewrite length_app, length_replicate in Hlen.
  split; [lia |]. split.
  - intros l Hl Hnb. destruct Hsame as [_ Hsame]. rewrite Hsame.
    + apply lookup_app_l. exact Hl.
    + cbn [copy_MetaData Value]. rewrite Hct. cbn [Value]. rewrite Hb1, Hb2.
      intros [Hin | Hin].
      * apply Hnb. rewrite !elem_of_cons in Hin.
        destruct Hin as [Hin | [Hin | [Hin | [Hin | Hin]]]].
        -- apply (scratch_in_buffers rs dir). auto.
        -- apply (scratch_in_buffers rs dir). auto.
        -- apply (scratch_out_buffers rs dir). auto.
        -- apply (scratch_out_buffers rs dir). auto.
        -- inversion Hin.
      * apply elem_of_seq in Hin. lia.
  - intros out Hout. subst r.
    apply bind_ok_inv in H. destruct H as (s2 & u & _ & H).
    apply ret_inv in H. destruct H as [_ H]. injection H as ->.
    cbn [copy_MetaData Value]. rewrite Hct. cbn [Value]. split; [reflexivity | lia].
Qed.

(** C8. [SwitchNew] leaves the input ciphertext as it was and returns new
    storage: when no value component of the input is one of the switcher's
    scratch polynomials, then after the call, whatever its outcome, every
    polynomial that existed before and is not a scratch polynomial has its
    contents unchanged, in particular every value component of the input,
    and so has the input's level; and the value components of a returned
    ciphertext lie in storage allocated by the call, disjoint from the
    input's and from each other. *)
Theorem SwitchNew_frame rs ctIn dir (s s' : Store) r :
  separate rs ctIn s ->
  SwitchNew rs ctIn dir s = (s', r) ->
  (forall l, (l < length s)%nat -> l ∉ buffers rs -> s' !! l = s !! l) /\
  (forall v, v ∈ Value ctIn -> s' !! v = s !! v) /\
  (forall l1, ct_Level ctIn s = (s, Ok l1) -> ct_Level ctIn s' = (s', Ok l1)) /\
  (forall out, r = Ok out ->
     NoDup (Value out) /\
     forall o, o ∈ Value out ->
       (length s <= o < length s')%nat /\ o ∉ Value ctIn).
Proof.
  intros Hsep H. apply SwitchNew_changes in H. destruct H as (Hlen & Hkeep & Hout).
  assert (forall v, v ∈ Value ctIn -> s' !! v = s !! v) as Hvals.
  { intros v Hv. unfold separate in Hsep. rewrite Forall_forall in Hsep.
    destruct (Hsep v Hv) as [Hlt Hnb]. apply Hkeep; assumption. }
  split; [exact Hkeep |]. split; [exact Hvals |]. split.
  - intros l1 Hl1. apply ct_Level_inv in Hl1.
    destruct Hl1 as (_ & v0 & c & Hv0 & Hc & ->).
    apply (ct_Level_run ctIn s' v0 c Hv0).
    rewrite Hvals; [exact Hc |]. eapply list_elem_of_lookup_2; eauto.
  - intros out Hr. destruct (Hout out Hr) as [Hval Hlen'].
    rewrite Hval. split; [apply NoDup_seq |].
    intros o Ho. apply elem_of_seq in Ho. split; [lia |].
    intros Hin. unfold separate in Hsep. rewrite Forall_forall in Hsep.
    destruct (Hsep o Hin) as [Hlt _]. lia.
Qed.

End SwitchNewFrame.

Lemma small_separate n polys :
  (n <= length polys)%nat -> separate small_switcher (small_ct n) (small_store polys).
Proof.
  intros Hn. unfold separate. apply Forall_forall. intros v Hv.
  cbn in Hv. apply elem_of_seq in Hv. split.
  - unfold small_store. rewrite length_app. cbn. lia.
  - unfold buffers, small_switcher. cbn [BuffQ1 BuffQ2 fst snd].
    rewrite !elem_of_cons, elem_of_nil. lia.
Qed.

Lemma SwitchNew_frame_witness :
  separate small_switcher (small_ct 2) store_level2 /\
  exists s' out,
    SwitchNew (L := DegreeOneRings) small_switcher (small_ct 2) true store_level2
      = (s', Ok out) /\
    (forall v, v ∈ Value (small_ct 2) -> s' !! v = store_level2 !! v) /\
    NoDup (Value out).
Proof.
  pose proof (small_separate 2 [residues 3 3 chain1; residues 4 3 chain1] ltac:(cbn; lia))
    as Hsep.
  split; [exact Hsep |].
  eexists. eexists. split; [vm_compute; reflexivity |].
  destruct (SwitchNew_frame (L := DegreeOneRings) small_switcher (small_ct 2) true
              store_level2 _ _ Hsep ltac:(vm_compute; reflexivity))
    as (_ & Hv & _ & Hout).
  split; [exact Hv |]. apply (Hout _ eq_refl).
Defined.

(** ** Level and scale of the output *)

Lemma params_built_level p :
  params_built p -> exists r, RingQ p = Some r /\ Level r = sizeOf p - 1.
Proof.
  intros (r & Hr & Hq & Hl). exists r. split; [exact Hr |].
  unfold Level, sizeOf, QCount. rewrite Hl. unfold MaxLevel. rewrite Hq. reflexivity.
Qed.

Section OutputLevel.
Context {L : RingLibrary}.

Lemma zero_poly_rows r : 0 <= level r + 1 -> Z.of_nat (length (zero_poly r)) - 1 = level r.
Proof. intros H. unfold zero_poly. rewrite length_replicate. lia. Qed.

Lemma SwitchNew_loop_same rs ctIn ctOut dir levelQ1 lc idxs (s s' : Store) r :
  for_range idxs (SwitchNew_body rs ctIn ctOut dir levelQ1 lc) s = (s', r) ->
  map length s' = map length s.
Proof.
  intros H. eapply keeps_for_range in H; [apply H |].
  intros i. apply keeps_SwitchNew_body.
Qed.

(** The level of a returned ciphertext is the level of the ring it was
    allocated over: the source ring at the source level when [dir] is true,
    the destination ring at the destination level when it is false. *)
Lemma SwitchNew_output rs ctIn dir (s s' : Store) out :
  SwitchNew rs ctIn dir s = (s', Ok out) ->
  exists l1 rsrc rdst,
    ct_Level ctIn s = (s, Ok l1) /\
    RingQ (source_params rs dir) = Some rsrc /\
    RingQ (destination_params rs dir) = Some rdst /\
    CtScale out = DefaultScale (destination_params rs dir) /\
    ct_Level out s' = (s', Ok (if dir then l1 else l1 - Level rsrc + Level rdst)).
Proof.
  intros H. apply SwitchNew_ok_inv in H.
  destruct H as (l1 & s1 & lc & Hl1 & Hsetup & Hloop & ->).
  apply SwitchNew_setup_inv in Hsetup.
  destruct Hsetup as (rsrc & rdst & Hsrc & Hdst & HlQ2 & Hr1 & Hr2 & _ & _ & -> & Hct).
  exists l1, rsrc, rdst.
  split; [exact Hl1 |]. split; [exact Hsrc |]. split; [exact Hdst |].
  split; [cbn; rewrite Hct; reflexivity |].
  apply ct_Level_inv in Hl1. destruct Hl1 as (_ & v0 & c & Hv0 & _ & _).
  assert (0 < length (Value ctIn))%nat as Hn by (eapply lookup_lt_Some; eauto).
  apply SwitchNew_loop_same in Hloop.
  set (ralloc := if dir then ringQ1 lc else ringQ2 lc) in *.
  assert ((s ++ replicate (length (Value ctIn)) (zero_poly ralloc)) !! length s
          = Some (zero_poly ralloc)) as Hnew.
  { rewrite lookup_app_r by lia. rewrite Nat.sub_diag.
    apply lookup_replicate_2. exact Hn. }
  assert (map length s' !! length s = Some (length (zero_poly ralloc))) as Hrow.
  { rewrite Hloop, list_lookup_fmap, Hnew. reflexivity. }
  rewrite list_lookup_fmap in Hrow.
  destruct (s' !! length s) as [c' |] eqn:Hc'; [| discriminate].
  injection Hrow as Hrow.
  assert (Value (copy_MetaData (ctOut0 lc) ctIn) !! 0%nat = Some (length s)) as Hfirst.
  { cbn. rewrite Hct. cbn. apply lookup_seq. lia. }
  rewrite (ct_Level_run _ s' _ c' Hfirst Hc'). f_equal. f_equal.
  rewrite Hrow.
  apply AtLevel_inv in Hr1, Hr2. destruct Hr1 as [Hb1 Hr1], Hr2 as [Hb2 Hr2].
  subst ralloc. destruct dir.
  - rewrite zero_poly_rows; rewrite Hr1; cbn; lia.
  - rewrite zero_poly_rows; rewrite Hr2; cbn; lia.
Qed.

(** C1, as the code has it.  A ciphertext returned by [SwitchNew] has the
    default scale of the destination chain in both directions.  In
    direction chain 2 to chain 1 its level is the destination level, source
    level minus size of the source chain plus size of the destination
    chain.  In direction chain 1 to chain 2 it is not: the output is
    allocated over chain 1's parameters at the level of the input and keeps
    that level, which differs from the destination level as soon as the
    chains differ in length. *)
Theorem SwitchNew_output_level_scale rs ctIn dir (s s' : Store) out l1 :
  params_built (params1 rs) -> params_built (params2 rs) ->
  ct_Level ctIn s = (s, Ok l1) ->
  SwitchNew rs ctIn dir s = (s', Ok out) ->
  let dest := l1 - sizeOf (source_params rs dir) + sizeOf (destination_params rs dir) in
  CtScale out = DefaultScale (destination_params rs dir) /\
  (dir = false -> ct_Level out s' = (s', Ok dest)) /\
  (dir = true -> ct_Level out s' = (s', Ok l1)) /\
  (dir = true -> sizeOf (params1 rs) <> sizeOf (params2 rs) ->
   ct_Level out s' <> (s', Ok dest)).
Proof.
  intros Hp1 Hp2 Hl1 H dest.
  apply SwitchNew_output in H.
  destruct H as (l1' & rsrc & rdst & Hl1' & Hsrc & Hdst & Hsc & Hlvl).
  rewrite Hl1 in Hl1'. injection Hl1' as <-.
  destruct (params_built_level _ Hp1) as (r1 & Hr1 & Hlev1).
  destruct (params_built_level _ Hp2) as (r2 & Hr2 & Hlev2).
  split; [exact Hsc |]. subst dest.
  destruct dir; cbn [source_params destination_params] in *;
    rewrite Hr1 in *; rewrite Hr2 in *;
    injection Hsrc as <-; injection Hdst as <-.
  - split; [discriminate |]. split; [intros _; exact Hlvl |].
    intros _ Hne Heq. rewrite Hlvl in Heq. injection Heq as Heq. lia.
  - split; [intros _; rewrite Hlvl; f_equal; f_equal; lia |].
    split; discriminate.
Qed.

End OutputLevel.

Lemma SwitchNew_output_level_scale_witness :
  params_built small_params1 /\ params_built small_params2 /\
  ct_Level (small_ct 2) store_level2 = (store_level2, Ok 2) /\
  2 - sizeOf small_params1 + sizeOf small_params2 = 1 /\
  exists s' out,
    SwitchNew (L := DegreeOneRings) small_switcher (small_ct 2) true store_level2
      = (s', Ok out) /\
    CtScale out = DefaultScale small_params2 /\
    ct_Level out s' = (s', Ok 2).
Proof.
  split; [exists (top_ring chain1); repeat split; reflexivity |].
  split; [exists (top_ring chain2); repeat split; reflexivity |].
  split; [reflexivity |]. split; [reflexivity |].
  destruct (SwitchNew (L := DegreeOneRings) small_switcher (small_ct 2) true store_level2)
    as [s' [out | e]] eqn:Hrun; [| vm_compute in Hrun; discriminate Hrun].
  exists s', out. split; [reflexivity |].
  destruct (SwitchNew_output_level_scale (L := DegreeOneRings) small_switcher (small_ct 2) true
              store_level2 s' out 2) as (Hsc & _ & Hlvl & _).
  - exists (top_ring chain1). repeat split; reflexivity.
  - exists (top_ring chain2). repeat split; reflexivity.
  - reflexivity.
  - exact Hrun.
  - split; [exact Hsc | exact (Hlvl eq_refl)].
Defined.

(** ** The destination level *)

Lemma NewPoly_err r (s s' : Store) e :
  NewPoly r s = (s', Err e) -> exists msg, e = LibraryPanic msg.
Proof.
  unfold NewPoly. destruct (_ || _).
  - intros H. injection H as _ <-. eauto.
  - discriminate.
Qed.

Lemma NewPolys_err n r (s s' : Store) e :
  NewPolys n r s = (s', Err e) -> exists msg, e = LibraryPanic msg.
Proof.
  revert s s'. induction n as [| n IH]; intros s s' H; cbn in H.
  - discriminate.
  - apply bind_inv in H. destruct H as [(s1 & l & _ & H) | (e' & Hl & He)].
    + apply bind_inv in H. destruct H as [(s2 & ls & _ & H) | (e' & Hls & He)].
      * discriminate.
      * injection He as ->. eapply IH; eauto.
    + injection He as ->. eapply NewPoly_err; eauto.
Qed.

Lemma NewCiphertext_err p deg lvl (s s' : Store) e rq :
  RingQ p = Some rq ->
  NewCiphertext p deg lvl s = (s', Err e) -> exists msg, e = LibraryPanic msg.
Proof.
  intros Hrq. unfold NewCiphertext. rewrite Hrq. cbn [deref]. rewrite bind_ret_l.
  intros H.
  apply bind_inv in H. destruct H as [(s1 & r & _ & H) | (e' & Hr & He)].
  - destruct (deg + 1 <? 0).
    + injection H as _ <-. eauto.
    + apply bind_inv in H. destruct H as [(s2 & vs & _ & H) | (e' & Hvs & He)].
      * discriminate.
      * injection He as ->. eapply NewPolys_err; eauto.
  - injection He as ->. apply lift_inv in Hr. destruct Hr as [_ Hr].
    symmetry in Hr. eapply AtLevel_err; eauto.
Qed.

Section DestinationLevel.
Context {L : RingLibrary}.

Lemma SwitchNew_setup_err rs ctIn dir l1 (s s1 : Store) e r1 r2 :
  RingQ (params1 rs) = Some r1 -> RingQ (params2 rs) = Some r2 ->
  SwitchNew_setup rs ctIn dir l1 s = (s1, Err e) -> exists msg, e = LibraryPanic msg.
Proof.
  intros H1 H2. unfold SwitchNew_setup. rewrite H1, H2.
  destruct dir; cbn [deref]; rewrite !bind_ret_l; intros H.
  all: apply bind_inv in H; destruct H as [(s2 & ct & _ & H) | (e' & Hct & He)];
    [| injection He as ->; eapply (NewCiphertext_err _ _ _ _ _ _ _ H1); exact Hct].
  all: apply bind_inv in H; destruct H as [(s3 & rq1 & _ & H) | (e' & Hr & He)];
    [| injection He as ->; apply lift_inv in Hr; destruct Hr as [_ Hr];
       symmetry in Hr; eapply AtLevel_err; eauto].
  all: apply bind_inv in H; destruct H as [(s4 & rq2 & _ & H) | (e' & Hr & He)];
    [discriminate
    | injection He as ->; apply lift_inv in Hr; destruct Hr as [_ Hr];
      symmetry in Hr; eapply AtLevel_err; eauto].
Qed.

End DestinationLevel.


(** ** One value component *)

Section Components.
Context {L : RingLibrary}.

Lemma index2_ok_inv {A} (a : A * A) i (s s' : Store) x :
  index2 a i s = (s', Ok x) -> s' = s /\ (i < 2)%nat /\ x = match i with O => fst a | _ => snd a end.
Proof.
  intros H. apply index2_inv in H. destruct H as [-> H].
  destruct i as [| [| i]]; try discriminate; injection H as <-; repeat split; lia.
Qed.

Lemma ModUp_inv rs (dir : bool) l1 l2 p1 p2 (s s' : Store) :
  (if dir then ModUpQtoP (rsBasisExtender rs) l1 l2 p1 p2
   else ModUpPtoQ (rsBasisExtender rs) l1 l2 p1 p2) s = (s', Ok tt) ->
  transform (modup_rows rs dir l1 l2) p1 p2 s = (s', Ok tt).
Proof.
  unfold modup_rows, ModUpQtoP, ModUpPtoQ.
  destruct (rsBasisExtender rs) as [be |]; destruct dir; cbn [deref];
    rewrite ?bind_ret_l; auto; intros H; discriminate.
Qed.

Lemma NTT_inv (dir : bool) r p1 p2 (s s' : Store) :
  (if dir then NTT r p1 p2 else NTTLazy r p1 p2) s = (s', Ok tt) ->
  transform (ntt_rows dir r) p1 p2 s = (s', Ok tt).
Proof. unfold ntt_rows, NTT, NTTLazy. destruct dir; auto. Qed.

(** One iteration, when the two scratch polynomials and the output
    component are three different polynomials. *)
Lemma SwitchNew_body_result rs ctIn ctOut dir l1 lc i (s s' : Store) v o :
  SwitchNew_body rs ctIn ctOut dir l1 lc i s = (s', Ok tt) ->
  Value ctIn !! i = Some v ->
  Value ctOut !! i = Some o ->
  pick (buffQ1 lc) i <> pick (buffQ2 lc) i ->
  o <> pick (buffQ1 lc) i -> o <> pick (buffQ2 lc) i ->
  (i < 2)%nat /\
  exists cv old1 old2 oldo c,
    s !! v = Some cv /\
    s !! pick (buffQ1 lc) i = Some old1 /\
    s !! pick (buffQ2 lc) i = Some old2 /\
    s !! o = Some oldo /\
    switch_rows rs dir (ringQ1 lc) (ringQ2 lc) l1 (levelQ2 lc) cv old1 old2 = Some c /\
    s' !! o = Some (overwrite oldo c) /\
    (forall l, l <> pick (buffQ1 lc) i -> l <> pick (buffQ2 lc) i -> l <> o ->
               s' !! l = s !! l).
Proof.
  unfold SwitchNew_body. intros H Hv Ho Hb12 Hob1 Hob2.
  apply bind_ok_inv in H. destruct H as (s0 & v' & Hv' & H).
  apply index_inv in Hv'. destruct Hv' as [-> Hv']. rewrite Hv in Hv'. injection Hv' as ->.
  apply bind_ok_inv in H. destruct H as (s0 & b1 & Hb1 & H).
  apply index2_ok_inv in Hb1. destruct Hb1 as (-> & Hi & ->).
  fold (pick (buffQ1 lc) i) in *.
  apply bind_ok_inv in H. destruct H as (s1 & [] & Hintt & H).
  apply transform_inv in Hintt. destruct Hintt as (cv & a & old1 & Hcv & Ha & Hold1 & ->).
  apply bind_ok_inv in H. destruct H as (s0 & b2 & Hb2 & H).
  apply index2_ok_inv in Hb2. destruct Hb2 as (-> & _ & ->).
  fold (pick (buffQ2 lc) i) in *.
  apply bind_ok_inv in H. destruct H as (s2 & [] & Hmod & H).
  apply ModUp_inv, transform_inv in Hmod.
  destruct Hmod as (c1 & b & old2 & Hc1 & Hb & Hold2 & ->).
  apply bind_ok_inv in H. destruct H as (s0 & o' & Ho' & H).
  apply index_inv in Ho'. destruct Ho' as [-> Ho']. rewrite Ho in Ho'. injection Ho' as ->.
  apply NTT_inv, transform_inv in H.
  destruct H as (c2 & c & oldo & Hc2 & Hc & Holdo & ->).
  rewrite list_lookup_insert_eq in Hc1 by (eapply lookup_lt_Some; eauto).
  injection Hc1 as <-.
  rewrite list_lookup_insert_ne in Hold2 by exact Hb12.
  rewrite list_lookup_insert_eq in Hc2
    by (rewrite length_insert; eapply lookup_lt_Some; eauto).
  injection Hc2 as <-.
  rewrite list_lookup_insert_ne in Holdo by congruence.
  rewrite list_lookup_insert_ne in Holdo by congruence.
  split; [exact Hi |].
  exists cv, old1, old2, oldo, c.
  split; [exact Hcv |]. split; [exact Hold1 |]. split; [exact Hold2 |].
  split; [exact Holdo |]. split.
  { unfold switch_rows. rewrite Ha, Hb. exact Hc. }
  split.
  { apply list_lookup_insert_eq. rewrite !length_insert. eapply lookup_lt_Some; eauto. }
  intros l Hl1 Hl2 Hl3.
  rewrite !list_lookup_insert_ne by congruence. reflexivity.
Qed.

End Components.

Section ThreeSteps.
Context {L : RingLibrary}.

Lemma owns_distinct rs dir s :
  switcher_owns rs s ->
  let B1 := scratch_in rs dir in
  let B2 := scratch_out rs dir in
  (fst B1 <> snd B1 /\ fst B1 <> fst B2 /\ fst B1 <> snd B2 /\
   snd B1 <> fst B2 /\ snd B1 <> snd B2 /\ fst B2 <> snd B2) /\
  (fst B1 < length s /\ snd B1 < length s /\ fst B2 < length s /\ snd B2 < length s)%nat.
Proof.
  intros [Hnd Hlt]. unfold buffers in *.
  rewrite !NoDup_cons, !elem_of_cons, !elem_of_nil in Hnd.
  rewrite !Forall_cons in Hlt.
  unfold scratch_in, scratch_out. destruct dir; cbn; intuition congruence.
Qed.

(** The loop of [SwitchNew] over one or two components, from the store
    [s1] reached after the setup: [base] is the first location allocated
    for the output. *)
Lemma SwitchNew_loop_result rs ctIn ctOut dir l1 lc (s1 s' : Store) base i v :
  for_range (seq 0 (length (Value ctIn)))
    (SwitchNew_body rs ctIn ctOut dir l1 lc) s1 = (s', Ok tt) ->
  Value ctOut = seq base (length (Value ctIn)) ->
  Forall (fun v => (v < base)%nat /\
                   v <> fst (buffQ1 lc) /\ v <> snd (buffQ1 lc) /\
                   v <> fst (buffQ2 lc) /\ v <> snd (buffQ2 lc)) (Value ctIn) ->
  (fst (buffQ1 lc) <> snd (buffQ1 lc) /\ fst (buffQ1 lc) <> fst (buffQ2 lc) /\
   fst (buffQ1 lc) <> snd (buffQ2 lc) /\ snd (buffQ1 lc) <> fst (buffQ2 lc) /\
   snd (buffQ1 lc) <> snd (buffQ2 lc) /\ fst (buffQ2 lc) <> snd (buffQ2 lc)) ->
  (fst (buffQ1 lc) < base /\ snd (buffQ1 lc) < base /\
   fst (buffQ2 lc) < base /\ snd (buffQ2 lc) < base)%nat ->
  Value ctIn !! i = Some v ->
  exists cv old1 old2 oldo c,
    s1 !! v = Some cv /\
    s1 !! pick (buffQ1 lc) i = Some old1 /\
    s1 !! pick (buffQ2 lc) i = Some old2 /\
    s1 !! (base + i)%nat = Some oldo /\
    switch_rows rs dir (ringQ1 lc) (ringQ2 lc) l1 (levelQ2 lc) cv old1 old2 = Some c /\
    s' !! (base + i)%nat = Some (overwrite oldo c).
Proof.
  intros Hloop Hout Hsep Hdist Hlt Hv.
  destruct Hdist as (D1 & D2 & D3 & D4 & D5 & D6).
  destruct Hlt as (L1 & L2 & L3 & L4).
  rewrite Forall_forall in Hsep.
  assert (forall j, (j < length (Value ctIn))%nat -> Value ctOut !! j = Some (base + j)%nat)
    as Ho by (intros j Hj; rewrite Hout; apply lookup_seq; lia).
  destruct (Value ctIn) as [| v0 [| v1 [| v2 vs]]] eqn:Hvals.
  - discriminate.
  - (* one component *)
    destruct i as [| i]; [| discriminate]. injection Hv as <-.
    cbn [length seq for_range] in Hloop.
    apply bind_ok_inv in Hloop. destruct Hloop as (s2 & [] & Hb0 & Hret).
    apply ret_inv in Hret. destruct Hret as [-> _].
    eapply SwitchNew_body_result in Hb0;
      [| rewrite Hvals; reflexivity | apply Ho; cbn; lia
       | cbn; congruence | cbn; lia | cbn; lia].
    destruct Hb0 as (_ & cv & old1 & old2 & oldo & c & H1 & H2 & H3 & H4 & H5 & H6 & _).
    exists cv, old1, old2, oldo, c. auto 10.
  - (* two components *)
    cbn [length seq for_range] in Hloop.
    apply bind_ok_inv in Hloop. destruct Hloop as (s2 & [] & Hb0 & Hloop).
    apply bind_ok_inv in Hloop. destruct Hloop as (s3 & [] & Hb1 & Hret).
    apply ret_inv in Hret. destruct Hret as [-> _].
    eapply SwitchNew_body_result in Hb0;
      [| rewrite Hvals; reflexivity | apply Ho; cbn; lia
       | cbn; congruence | cbn; lia | cbn; lia].
    eapply SwitchNew_body_result in Hb1;
      [| rewrite Hvals; reflexivity | apply Ho; cbn; lia
       | cbn; congruence | cbn; lia | cbn; lia].
    destruct Hb0 as (_ & cv & old1 & old2 & oldo & c & H1 & H2 & H3 & H4 & H5 & H6 & F0).
    destruct Hb1 as (_ & cv' & old1' & old2' & oldo' & c' & H1' & H2' & H3' & H4' & H5' & H6' & F1).
    cbn [pick] in *.
    destruct (Hsep v0 ltac:(repeat constructor)) as (S01 & S02 & S03 & S04 & S05).
    destruct (Hsep v1 ltac:(repeat constructor)) as (S11 & S12 & S13 & S14 & S15).
    destruct i as [| [| i]]; [| | discriminate]; injection Hv as <-.
    + exists cv, old1, old2, oldo, c.
      repeat (split; [assumption |]).
      rewrite F1 by lia. exact H6.
    + rewrite F0 in H1', H2', H3', H4' by lia.
      exists cv', old1', old2', oldo', c'. auto 10.
  - (* three or more components: the loop does not return *)
    exfalso. cbn [length seq for_range] in Hloop.
    apply bind_ok_inv in Hloop. destruct Hloop as (s2 & [] & _ & Hloop).
    apply bind_ok_inv in Hloop. destruct Hloop as (s3 & [] & _ & Hloop).
    apply bind_ok_inv in Hloop. destruct Hloop as (s4 & [] & Hb2 & _).
    rewrite SwitchNew_body_third in Hb2 by (rewrite Hvals; cbn; lia).
    discriminate.
Qed.

End ThreeSteps.

Section ThreeStepsTheorem.
Context {L : RingLibrary}.

(** C6.  For every value component [v] of the input, at index [i], a
    successful [SwitchNew] leaves in the [i]-th component of the output
    the result of exactly three library calls in a row: the inverse
    transform of the component over the source ring at the source level,
    into a scratch polynomial; the basis extension of that polynomial from
    the source level to the destination level, into the other scratch
    polynomial; the forward transform of that one over the destination ring
    at the destination level, into the output component.  (Scratch and
    output polynomials keep the rows that a call does not write.) *)
Theorem SwitchNew_three_steps rs ctIn dir (s s' : Store) out i v :
  switcher_owns rs s -> separate rs ctIn s ->
  SwitchNew rs ctIn dir s = (s', Ok out) ->
  Value ctIn !! i = Some v ->
  exists l1 rsrc rdst r1 r2 cv old1 old2 c,
    ct_Level ctIn s = (s, Ok l1) /\
    RingQ (source_params rs dir) = Some rsrc /\
    RingQ (destination_params rs dir) = Some rdst /\
    AtLevel rsrc l1 = Ok r1 /\
    AtLevel rdst (l1 - Level rsrc + Level rdst) = Ok r2 /\
    s !! v = Some cv /\
    s !! pick (scratch_in rs dir) i = Some old1 /\
    s !! pick (scratch_out rs dir) i = Some old2 /\
    switch_rows rs dir r1 r2 l1 (l1 - Level rsrc + Level rdst) cv old1 old2 = Some c /\
    Value out !! i = Some (length s + i)%nat /\
    s' !! (length s + i)%nat = Some (overwrite (zero_poly (if dir then r1 else r2)) c).
Proof.
  intros Howns Hsep H Hv.
  apply SwitchNew_ok_inv in H.
  destruct H as (l1 & s1 & lc & Hl1 & Hsetup & Hloop & ->).
  apply SwitchNew_setup_inv in Hsetup.
  destruct Hsetup as (rsrc & rdst & Hsrc & Hdst & HlQ2 & Hr1 & Hr2 & Hb1 & Hb2 & -> & Hct).
  destruct (owns_distinct rs dir s Howns) as [Hdist Hlt]. cbn zeta in Hdist, Hlt.
  rewrite <- Hb1, <- Hb2 in Hdist, Hlt.
  assert (i < length (Value ctIn))%nat as Hi by (eapply lookup_lt_Some; eauto).
  eapply (SwitchNew_loop_result _ _ _ _ _ _ _ _ (length s) i v) in Hloop;
    [| cbn; rewrite Hct; reflexivity | | exact Hdist | exact Hlt | exact Hv].
  2:{ unfold separate in Hsep. rewrite Forall_forall in Hsep. apply Forall_forall.
      intros w Hw. destruct (Hsep w Hw) as [Hwlt Hwb]. split; [exact Hwlt |].
      rewrite Hb1, Hb2.
      repeat split; intros ->; apply Hwb.
      - apply (scratch_in_buffers rs dir); auto.
      - apply (scratch_in_buffers rs dir); auto.
      - apply (scratch_out_buffers rs dir); auto.
      - apply (scratch_out_buffers rs dir); auto. }
  destruct Hloop as (cv & old1 & old2 & oldo & c & H1 & H2 & H3 & H4 & H5 & H6).
  destruct Hlt as (L1 & L2 & L3 & L4).
  assert (forall l, (l < length s)%nat ->
            (s ++ replicate (length (Value ctIn))
                    (zero_poly (if dir then ringQ1 lc else ringQ2 lc))) !! l = s !! l)
    as Hold by (intros l Hl; apply lookup_app_l; exact Hl).
  rewrite Hold in H1.
  2:{ unfold separate in Hsep. rewrite Forall_forall in Hsep.
      apply (Hsep v). eapply list_elem_of_lookup_2; eauto. }
  rewrite Hold in H2 by (destruct i; cbn; lia).
  rewrite Hold in H3 by (destruct i; cbn; lia).
  rewrite lookup_app_r in H4 by lia.
  replace (length s + i - length s)%nat with i in H4 by lia.
  rewrite lookup_replicate_2 in H4 by exact Hi. injection H4 as <-.
  rewrite Hb1 in H2. rewrite Hb2 in H3. rewrite HlQ2 in H5, Hr2.
  exists l1, rsrc, rdst, (ringQ1 lc), (ringQ2 lc), cv, old1, old2, c.
  repeat (split; [assumption |]).
  split.
  - cbn. rewrite Hct. cbn. apply lookup_seq. lia.
  - destruct dir; exact H6.
Qed.

End ThreeStepsTheorem.

Lemma small_owns polys : switcher_owns small_switcher (small_store polys).
Proof.
  split.
  - unfold buffers, small_switcher. cbn [BuffQ1 BuffQ2 fst snd].
    rewrite !NoDup_cons, !elem_of_cons, !elem_of_nil.
    repeat split; try lia. apply NoDup_nil_2.
  - unfold buffers, small_switcher, small_store. cbn [BuffQ1 BuffQ2 fst snd].
    rewrite !Forall_cons. rewrite length_app. cbn [length].
    repeat split; try lia. apply Forall_nil_2.
Qed.

Lemma SwitchNew_three_steps_witness :
  switcher_owns small_switcher store_level2 /\
  separate small_switcher (small_ct 2) store_level2 /\
  exists s' out,
    SwitchNew (L := DegreeOneRings) small_switcher (small_ct 2) true store_level2
      = (s', Ok out) /\
    Value (small_ct 2) !! 1%nat = Some 5%nat /\
    Value out !! 1%nat = Some 7%nat /\
    switch_rows (L := DegreeOneRings) small_switcher true
      (mkRing chain1 1 2) (mkRing chain2 1 1) 2 1 [[4]; [4]; [4]]
      [[0]; [0]; [0]] [[0]; [0]] = Some [[4]; [4]] /\
    s' !! 7%nat = Some [[4]; [4]; [0]].
Proof.
  pose proof (small_owns [residues 3 3 chain1; residues 4 3 chain1]) as Ho.
  pose proof (small_separate 2 [residues 3 3 chain1; residues 4 3 chain1] ltac:(cbn; lia))
    as Hs.
  split; [exact Ho |]. split; [exact Hs |].
  destruct (SwitchNew (L := DegreeOneRings) small_switcher (small_ct 2) true store_level2)
    as [s' [out | e]] eqn:Hrun; [| vm_compute in Hrun; discriminate Hrun].
  exists s', out. split; [reflexivity |]. split; [reflexivity |].
  destruct (SwitchNew_three_steps (L := DegreeOneRings) small_switcher (small_ct 2) true
              store_level2 s' out 1%nat 5%nat Ho Hs Hrun eq_refl)
    as (l1 & rsrc & rdst & r1 & r2 & cv & old1 & old2 & c &
        Hl1 & Hsrc & Hdst & Hr1 & Hr2 & Hcv & Ho1 & Ho2 & Hsw & Hout & Hres).
  vm_compute in Hl1. injection Hl1 as <-.
  vm_compute in Hsrc. injection Hsrc as <-.
  vm_compute in Hdst. injection Hdst as <-.
  vm_compute in Hr1. injection Hr1 as <-.
  vm_compute in Hr2. injection Hr2 as <-.
  vm_compute in Hcv. injection Hcv as <-.
  vm_compute in Ho1. injection Ho1 as <-.
  vm_compute in Ho2. injection Ho2 as <-.
  split; [exact Hout |].
  assert (c = [[4]; [4]]) as -> by (vm_compute in Hsw; injection Hsw as <-; reflexivity).
  split; [exact Hsw | exact Hres].
Defined.

(** ** Switching the secret key *)

Lemma no_own_panic_bind {A B} (m : M A) (k : A -> M B) :
  no_own_panic m -> (forall a, no_own_panic (k a)) -> no_own_panic (bind m k).
Proof.
  intros Hm Hk s s' msg H.
  apply bind_inv in H. destruct H as [(s1 & a & _ & H) | (e & H & He)].
  - exact (Hk a _ _ _ H).
  - injection He as <-. exact (Hm _ _ _ H).
Qed.

Lemma no_own_panic_ret {A} (a : A) : no_own_panic (ret a).
Proof. intros s s' msg H. discriminate. Qed.

Lemma no_own_panic_deref {A} (p : option A) : no_own_panic (deref p).
Proof. intros s s' msg H. destruct p; discriminate. Qed.

Lemma no_own_panic_from_library {A} (o : option A) : no_own_panic (from_library o).
Proof. intros s s' msg H. destruct o; discriminate. Qed.

Lemma no_own_panic_load l : no_own_panic (load l).
Proof. intros s s' msg H. unfold load in H. destruct (s !! l); discriminate. Qed.

Lemma no_own_panic_write l c : no_own_panic (write l c).
Proof.
  intros s s' msg H. unfold write in H.
  destruct (s !! l); [destruct (_ <? _)%nat |]; discriminate.
Qed.

Lemma no_own_panic_NewPoly r : no_own_panic (NewPoly r).
Proof. intros s s' msg H. unfold NewPoly in H. destruct (_ || _); discriminate. Qed.

Lemma no_own_panic_NewSecretKey p : no_own_panic (NewSecretKey p).
Proof.
  unfold NewSecretKey.
  repeat first [ apply no_own_panic_bind; [| intros ?]
               | apply no_own_panic_deref | apply no_own_panic_NewPoly
               | apply no_own_panic_ret ].
Qed.

Lemma sk_LevelQ_inv sk (s s' : Store) l :
  sk_LevelQ sk s = (s', Ok l) ->
  s' = s /\ exists c, s !! ValueQ sk = Some c /\ l = Z.of_nat (length c) - 1.
Proof.
  unfold sk_LevelQ, poly_Level. intros H.
  apply bind_ok_inv in H. destruct H as (s1 & c & Hc & H).
  apply load_inv in Hc. destruct Hc as [-> Hc].
  destruct (s !! ValueQ sk) as [c' |] eqn:E; [injection Hc as -> | discriminate].
  apply ret_inv in H. destruct H as [-> H]. injection H as ->. eauto.
Qed.

Lemma NewSecretKey_inv p (s s' : Store) sk :
  NewSecretKey p s = (s', Ok sk) ->
  exists rq rp,
    RingQ p = Some rq /\ RingP p = Some rp /\
    s' = s ++ [zero_poly rq; zero_poly rp] /\
    sk = mkSecretKey (length s) (S (length s)).
Proof.
  unfold NewSecretKey. intros H.
  apply bind_ok_inv in H. destruct H as (s1 & rq & Hrq & H).
  apply deref_inv in Hrq. destruct Hrq as [-> Hrq].
  destruct (RingQ p) as [rq' |]; [injection Hrq as -> | discriminate].
  apply bind_ok_inv in H. destruct H as (s1 & q & Hq & H).
  apply NewPoly_inv in Hq. destruct Hq as [-> ->].
  apply bind_ok_inv in H. destruct H as (s1 & rp & Hrp & H).
  apply deref_inv in Hrp. destruct Hrp as [-> Hrp].
  destruct (RingP p) as [rp' |]; [injection Hrp as -> | discriminate].
  apply bind_ok_inv in H. destruct H as (s1 & pp & Hpp & H).
  apply NewPoly_inv in Hpp. destruct Hpp as [-> ->].
  apply ret_inv in H. destruct H as [-> H]. injection H as ->.
  do 2 eexists. split; [reflexivity |]. split; [reflexivity |].
  rewrite <- app_assoc. cbn. rewrite length_app. cbn.
  split; [reflexivity |]. f_equal. lia.
Qed.

Section SecretKey.
Context {L : RingLibrary}.

Lemma no_own_panic_ExtendBasis rQ rP polQ buff polP :
  no_own_panic (ExtendBasisSmallNormAndCenterNTTMontgomery rQ rP polQ buff polP).
Proof.
  unfold ExtendBasisSmallNormAndCenterNTTMontgomery.
  repeat first [ apply no_own_panic_bind; [| intros ?]
               | apply no_own_panic_deref | apply no_own_panic_load
               | apply no_own_panic_from_library | apply no_own_panic_write ].
Qed.

Lemma ExtendBasis_inv rQ rP polQ buff polP (s s' : Store) :
  ExtendBasisSmallNormAndCenterNTTMontgomery rQ rP polQ buff polP s = (s', Ok tt) ->
  exists rq rp c b p oldb oldp,
    rQ = Some rq /\ rP = Some rp /\
    s !! polQ = Some c /\
    ExtendBasisSmallNorm_rows rq rp c = Some (b, p) /\
    s !! buff = Some oldb /\
    <[buff := overwrite oldb b]> s !! polP = Some oldp /\
    s' = <[polP := overwrite oldp p]> (<[buff := overwrite oldb b]> s).
Proof.
  unfold ExtendBasisSmallNormAndCenterNTTMontgomery. intros H.
  apply bind_ok_inv in H. destruct H as (s1 & rq & Hrq & H).
  apply deref_inv in Hrq. destruct Hrq as [-> Hrq].
  destruct rQ as [rq' |]; [injection Hrq as -> | discriminate].
  apply bind_ok_inv in H. destruct H as (s1 & rp & Hrp & H).
  apply deref_inv in Hrp. destruct Hrp as [-> Hrp].
  destruct rP as [rp' |]; [injection Hrp as -> | discriminate].
  apply bind_ok_inv in H. destruct H as (s1 & c & Hc & H).
  apply load_inv in Hc. destruct Hc as [-> Hc].
  destruct (s !! polQ) as [c' |] eqn:Ec; [injection Hc as -> | discriminate].
  apply bind_ok_inv in H. destruct H as (s1 & bp & Hbp & H).
  apply from_library_inv in Hbp. destruct Hbp as [-> Hbp].
  destruct (ExtendBasisSmallNorm_rows rq' rp' c') as [[b p] |] eqn:Ek;
    [injection Hbp as -> | discriminate].
  apply bind_ok_inv in H. destruct H as (s1 & [] & Hw1 & Hw2).
  cbn [fst snd] in *.
  apply write_inv in Hw1. destruct Hw1 as [(oldb & Hob & _ & -> & _) | (_ & e & He)];
    [| discriminate].
  apply write_inv in Hw2. destruct Hw2 as [(oldp & Hop & _ & -> & _) | (_ & e & He)];
    [| discriminate].
  exists rq', rp', c', b, p, oldb, oldp. auto 10.
Qed.

End SecretKey.

Section SecretKeyTheorem.
Context {L : RingLibrary}.

Lemma select_chains_inv rs lvl pd rq1 rq2 buff :
  select_chains rs lvl = Ok (pd, rq1, rq2, buff) ->
  rq2 = RingQ pd /\
  ((lvl = MaxLevelQ (params1 rs) /\ pd = params2 rs /\ rq1 = RingQ (params1 rs) /\
    buff = BuffQ1 rs) \/
   (lvl <> MaxLevelQ (params1 rs) /\ lvl = MaxLevelQ (params2 rs) /\ pd = params1 rs /\
    rq1 = RingQ (params2 rs) /\ buff = BuffQ2 rs)).
Proof.
  unfold select_chains.
  destruct (lvl =? MaxLevelQ (params1 rs)) eqn:E1.
  - intros H. injection H as <- <- <- <-. apply Z.eqb_eq in E1. auto 10.
  - destruct (lvl =? MaxLevelQ (params2 rs)) eqn:E2; [| discriminate].
    intros H. injection H as <- <- <- <-.
    apply Z.eqb_neq in E1. apply Z.eqb_eq in E2. auto 10.
Qed.

Lemma select_chains_err rs lvl e :
  select_chains rs lvl = Err e <->
  (lvl <> MaxLevelQ (params1 rs) /\ lvl <> MaxLevelQ (params2 rs) /\ e = Panic no_match_msg).
Proof.
  unfold select_chains.
  destruct (lvl =? MaxLevelQ (params1 rs)) eqn:E1;
    [apply Z.eqb_eq in E1 | apply Z.eqb_neq in E1].
  - split; [discriminate | intros (H & _); contradiction].
  - destruct (lvl =? MaxLevelQ (params2 rs)) eqn:E2;
      [apply Z.eqb_eq in E2 | apply Z.eqb_neq in E2].
    + split; [discriminate | intros (_ & H & _); contradiction].
    + split; [intros H; injection H as <-; auto | intros (_ & _ & ->); reflexivity].
Qed.

(** What [SwitchSecretKey] does once the chains are selected. *)
Lemma SwitchSecretKey_tail_no_own_panic rs skIn
    (sel : Parameters * option Ring * option Ring * (loc * loc)) :
  no_own_panic
    (let '(params_dst, ringQ1, ringQ2, buff) := sel in
     skOut <- NewSecretKey params_dst ;;
     ExtendBasisSmallNormAndCenterNTTMontgomery
       ringQ1 ringQ2 (ValueQ skIn) (fst buff) (ValueQ skOut) ;;;
     ExtendBasisSmallNormAndCenterNTTMontgomery
       ringQ1 (RingP (params1 rs)) (ValueQ skIn) (fst buff) (ValueP skOut) ;;;
     ret skOut).
Proof.
  destruct sel as [[[pd rq1] rq2] buff].
  apply no_own_panic_bind; [apply no_own_panic_NewSecretKey | intros skOut].
  apply no_own_panic_bind; [apply no_own_panic_ExtendBasis | intros _].
  apply no_own_panic_bind; [apply no_own_panic_ExtendBasis | intros _].
  apply no_own_panic_ret.
Qed.

(** C4, as the code has it.  [SwitchSecretKey] compares the level of the
    input key first with the maximum level of chain 1, then with that of
    chain 2, and takes the first that matches: chain 1 to chain 2 if the
    level is chain 1's maximum level; chain 2 to chain 1 if it is chain 2's
    and not chain 1's.  It raises its panic exactly when the level is
    neither.  The key returned is a fresh key over the destination chain
    whose Q and P components are written by the small-norm centred basis
    extension of the Q component of the input key, from the source ring to
    the destination ring and to the auxiliary ring of chain 1. *)
Theorem SwitchSecretKey_first_match rs skIn (s : Store) lvl :
  sk_LevelQ skIn s = (s, Ok lvl) ->
  (lvl = MaxLevelQ (params1 rs) ->
   select_chains rs lvl =
     Ok (params2 rs, RingQ (params1 rs), RingQ (params2 rs), BuffQ1 rs)) /\
  (lvl <> MaxLevelQ (params1 rs) -> lvl = MaxLevelQ (params2 rs) ->
   select_chains rs lvl =
     Ok (params1 rs, RingQ (params2 rs), RingQ (params1 rs), BuffQ2 rs)) /\
  ((exists s' msg, SwitchSecretKey rs skIn s = (s', Err (Panic msg))) <->
   (lvl <> MaxLevelQ (params1 rs) /\ lvl <> MaxLevelQ (params2 rs))) /\
  (forall s' skOut pd rq1 rq2 buff,
     select_chains rs lvl = Ok (pd, rq1, rq2, buff) ->
     SwitchSecretKey rs skIn s = (s', Ok skOut) ->
     (fst buff < length s)%nat -> ValueQ skIn <> fst buff ->
     exists r1 r2 rp rpd c bq q bp p,
       rq1 = Some r1 /\ RingQ pd = Some r2 /\
       RingP pd = Some rpd /\ RingP (params1 rs) = Some rp /\
       s !! ValueQ skIn = Some c /\
       ExtendBasisSmallNorm_rows r1 r2 c = Some (bq, q) /\
       ExtendBasisSmallNorm_rows r1 rp c = Some (bp, p) /\
       skOut = mkSecretKey (length s) (S (length s)) /\
       s' !! length s = Some (overwrite (zero_poly r2) q) /\
       s' !! S (length s) = Some (overwrite (zero_poly rpd) p)).
Proof.
  intros Hlvl.
  split; [| split; [| split]].
  - intros ->. unfold select_chains. rewrite Z.eqb_refl. reflexivity.
  - intros Hne ->. unfold select_chains.
    apply Z.eqb_neq in Hne. rewrite Hne, Z.eqb_refl. reflexivity.
  - unfold SwitchSecretKey. rewrite (bind_run_ok _ _ _ _ _ Hlvl). split.
    + intros (s' & msg & H).
      destruct (select_chains rs lvl) as [sel | e] eqn:Esel.
      * exfalso. unfold bind at 1 in H. cbn [lift] in H.
        exact (SwitchSecretKey_tail_no_own_panic rs skIn sel _ _ _ H).
      * apply select_chains_err in Esel. tauto.
    + intros [H1 H2].
      assert (select_chains rs lvl = Err (Panic no_match_msg)) as Esel
        by (apply select_chains_err; auto).
      exists s, no_match_msg. unfold bind, lift. rewrite Esel. reflexivity.
  - intros s' skOut pd rq1 rq2 buff Hsel H Hbuff Hne.
    unfold SwitchSecretKey in H. rewrite (bind_run_ok _ _ _ _ _ Hlvl) in H.
    unfold bind at 1 in H. unfold lift in H. rewrite Hsel in H.
    apply select_chains_inv in Hsel. destruct Hsel as [-> _].
    apply sk_LevelQ_inv in Hlvl. destruct Hlvl as (_ & c & Hc & _).
    assert (ValueQ skIn < length s)%nat as HskIn by (eapply lookup_lt_Some; eauto).
    apply bind_ok_inv in H. destruct H as (s1 & sk & Hnew & H).
    apply NewSecretKey_inv in Hnew.
    destruct Hnew as (rq & rpd & Hrq & Hrpd & -> & ->). cbn [ValueQ ValueP] in H.
    apply bind_ok_inv in H. destruct H as (s2 & [] & He1 & H).
    apply bind_ok_inv in H. destruct H as (s3 & [] & He2 & H).
    apply ret_inv in H. destruct H as [-> H]. injection H as <-.
    apply ExtendBasis_inv in He1.
    destruct He1 as (r1 & r2 & c1 & bq & q & oldb & oldp &
                     -> & Hr2 & Hc1 & Hk1 & Hob & Hop & ->).
    rewrite Hrq in Hr2. injection Hr2 as <-.
    rewrite lookup_app_l in Hc1 by exact HskIn.
    rewrite Hc in Hc1. injection Hc1 as <-.
    rewrite list_lookup_insert_ne in Hop by lia.
    rewrite lookup_app_r in Hop by lia. rewrite Nat.sub_diag in Hop.
    cbn in Hop. injection Hop as <-.
    apply ExtendBasis_inv in He2.
    destruct He2 as (r1' & rp & c2 & bp & p & oldb2 & oldp2 &
                     Hr1' & Hrp & Hc2 & Hk2 & Hob2 & Hop2 & ->).
    injection Hr1' as <-.
    rewrite list_lookup_insert_ne in Hc2 by lia.
    rewrite list_lookup_insert_ne in Hc2 by congruence.
    rewrite lookup_app_l in Hc2 by exact HskIn.
    rewrite Hc in Hc2. injection Hc2 as <-.
    rewrite list_lookup_insert_ne in Hop2 by lia.
    rewrite list_lookup_insert_ne in Hop2 by lia.
    rewrite list_lookup_insert_ne in Hop2 by lia.
    rewrite lookup_app_r in Hop2 by lia.
    replace (S (length s) - length s)%nat with 1%nat in Hop2 by lia.
    cbn in Hop2. injection Hop2 as <-.
    assert (length (s ++ [zero_poly rq; zero_poly rpd]) = S (S (length s))) as Hlen
      by (rewrite length_app; cbn; lia).
    exists r1, rq, rp, rpd, c, bq, q, bp, p.
    repeat (split; [first [assumption | reflexivity] |]).
    split.
    + rewrite list_lookup_insert_ne by lia.
      rewrite list_lookup_insert_ne by lia.
      apply list_lookup_insert_eq. rewrite length_insert, Hlen. lia.
    + apply list_lookup_insert_eq. rewrite !length_insert, Hlen. lia.
Qed.

End SecretKeyTheorem.

(** Counterexample to the selection read without precedence.  With chains
    of equal length a key of chain 2 at its maximum level is taken for a key
    of chain 1: the residues 12 and 16 of -1 modulo 13 and 17 are extended
    as if they were residues modulo 5 and 7, and the result is not the key
    -1 over chain 1, whose residues are 4 and 6. *)
Lemma SwitchSecretKey_equal_lengths :
  1 = MaxLevelQ (params2 equal_switcher) /\
  select_chains equal_switcher 1 <>
    Ok (params1 equal_switcher, RingQ (params2 equal_switcher),
        RingQ (params1 equal_switcher), BuffQ2 equal_switcher) /\
  ~ selects_by_level equal_switcher 1 /\
  residues (-1) 2 short_chain1 = [[4]; [6]] /\
  exists s',
    SwitchSecretKey (L := DegreeOneRings) equal_switcher (mkSecretKey 4 5)
      (equal_store [residues (-1) 2 chain2; residues (-1) 1 chainP])
    = (s', Ok (mkSecretKey 6 7)) /\
    s' !! 6%nat = Some [[2]; [2]].
Proof.
  assert (select_chains equal_switcher 1 <>
    Ok (params1 equal_switcher, RingQ (params2 equal_switcher),
        RingQ (params1 equal_switcher), BuffQ2 equal_switcher)) as Hne
    by (cbv; discriminate).
  split; [reflexivity |]. split; [exact Hne |]. split.
  - intros (_ & H & _). apply Hne. apply H. reflexivity.
  - split; [reflexivity |]. eexists. split; vm_compute; reflexivity.
Qed.

Lemma SwitchSecretKey_first_match_witness :
  sk_LevelQ (mkSecretKey 4 5) key_store = (key_store, Ok 1) /\
  select_chains small_switcher 1 =
    Ok (small_params1, RingQ small_params2, RingQ small_params1, BuffQ2 small_switcher) /\
  exists s' skOut,
    SwitchSecretKey (L := DegreeOneRings) small_switcher (mkSecretKey 4 5) key_store
      = (s', Ok skOut) /\
    skOut = mkSecretKey 6 7 /\
    s' !! 6%nat = Some (residues (-1) 3 chain1).
Proof.
  destruct (SwitchSecretKey_first_match (L := DegreeOneRings) small_switcher
              (mkSecretKey 4 5) key_store 1 eq_refl) as (_ & Hsel & _ & Hkey).
  split; [reflexivity |].
  split; [apply Hsel; [discriminate | reflexivity] |].
  eexists. eexists. split; [vm_compute; reflexivity |].
  destruct (Hkey _ _ _ _ _ _ (Hsel ltac:(discriminate) eq_refl)
              ltac:(vm_compute; reflexivity) ltac:(cbn; lia) ltac:(cbn; lia))
    as (r1 & r2 & rp & rpd & c & bq & q & bp & p & _ & _ & _ & _ & _ & _ & _ & Hsk & _).
  split; [exact Hsk | vm_compute; reflexivity].
Defined.

(** ** There and back *)

Section RoundTrip.
Context {L : RingLibrary}.

(** C2, as the code has it.  Switching from chain 1 to chain 2 and back
    does not give back a ciphertext at the level of the original unless the
    two chains have the same length: the first switch returns a ciphertext
    that still has the level [l] of the original, the second reads that
    level as a level of chain 2 and returns a ciphertext at level
    [l - Level r2 + Level r1]. *)
Theorem SwitchNew_round_trip_level rs ct (s s1 s2 : Store) out1 out2 l r1 r2 :
  RingQ (params1 rs) = Some r1 -> RingQ (params2 rs) = Some r2 ->
  ct_Level ct s = (s, Ok l) ->
  SwitchNew rs ct true s = (s1, Ok out1) ->
  SwitchNew rs out1 false s1 = (s2, Ok out2) ->
  ct_Level out2 s2 = (s2, Ok (l - Level r2 + Level r1)) /\
  (Level r1 <> Level r2 -> ct_Level out2 s2 <> (s2, Ok l)).
Proof.
  intros Hr1 Hr2 Hl H1 H2.
  apply SwitchNew_output in H1.
  destruct H1 as (l1 & rsrc & rdst & Hl1 & _ & _ & _ & Hout1).
  rewrite Hl in Hl1. injection Hl1 as <-.
  apply SwitchNew_output in H2.
  destruct H2 as (l2 & rsrc' & rdst' & Hl2 & Hsrc & Hdst & _ & Hout2).
  rewrite Hout1 in Hl2. injection Hl2 as <-.
  cbn [source_params destination_params] in Hsrc, Hdst.
  rewrite Hr2 in Hsrc. injection Hsrc as <-.
  rewrite Hr1 in Hdst. injection Hdst as <-.
  split; [exact Hout2 |].
  intros Hne Heq. rewrite Hout2 in Heq. injection Heq as Heq. lia.
Qed.

End RoundTrip.

(** In the small configuration, with the exact basis extension: the
    integer 3 at level 1 of chain 1 (residues 3, 3) comes back at level 2
    with the residues 3, 5, 2. *)
Lemma SwitchNew_round_trip_level_witness :
  RingQ (params1 small_switcher) = Some (top_ring chain1) /\
  RingQ (params2 small_switcher) = Some (top_ring chain2) /\
  ct_Level (small_ct 2) store_level1 = (store_level1, Ok 1) /\
  store_level1 !! 4%nat = Some [[3]; [3]] /\
  exists s1 out1 s2 out2,
    SwitchNew (L := DegreeOneRings) small_switcher (small_ct 2) true store_level1
      = (s1, Ok out1) /\
    SwitchNew (L := DegreeOneRings) small_switcher out1 false s1 = (s2, Ok out2) /\
    ct_Level out2 s2 = (s2, Ok 2) /\
    Value out2 !! 0%nat = Some 8%nat /\
    s2 !! 8%nat = Some [[3]; [5]; [2]].
Proof.
  split; [reflexivity |]. split; [reflexivity |]. split; [reflexivity |].
  split; [reflexivity |].
  eexists. eexists. eexists. eexists.
  split; [vm_compute; reflexivity |]. split; [vm_compute; reflexivity |].
  split; [| split; vm_compute; reflexivity].
  eapply (SwitchNew_round_trip_level (L := DegreeOneRings) small_switcher (small_ct 2)
            store_level1 _ _ _ _ 1 (top_ring chain1) (top_ring chain2)
            eq_refl eq_refl eq_refl);
    vm_compute; reflexivity.
Defined.

(** ** The switcher owns what it allocates *)

Lemma newModulusSwitcherBuffers_inv p1 p2 (s s' : Store) b :
  newModulusSwitcherBuffers p1 p2 s = (s', Ok b) ->
  length s' = (length s + 4)%nat /\
  b = ((length s, S (length s)), (S (S (length s)), S (S (S (length s))))).
Proof.
  unfold newModulusSwitcherBuffers. intros H.
  repeat match type of H with
  | bind (deref _) _ _ = _ =>
      let Hd := fresh "Hd" in
      apply bind_ok_inv in H; destruct H as (? & ? & Hd & H);
      apply deref_inv in Hd; destruct Hd as [-> _]
  | bind (NewPoly _) _ _ = _ =>
      let Hn := fresh "Hn" in
      apply bind_ok_inv in H; destruct H as (? & ? & Hn & H);
      apply NewPoly_inv in Hn; destruct Hn as [-> ->]
  end.
  apply ret_inv in H. destruct H as [-> H]. injection H as ->.
  rewrite !length_app. cbn [length]. split; [lia |].
  repeat f_equal; lia.
Qed.

(** The scratch polynomials of a switcher built by [NewModulusSwitcher]
    are four distinct polynomials of the store. *)
Lemma NewModulusSwitcher_owns p1 p2 (s s' : Store) rs :
  NewModulusSwitcher p1 p2 s = (s', Ok rs) -> switcher_owns rs s'.
Proof.
  unfold NewModulusSwitcher. intros H.
  apply bind_ok_inv in H. destruct H as (s1 & b & Hb & H).
  apply newModulusSwitcherBuffers_inv in Hb. destruct Hb as [Hlen ->].
  assert (s' = s1 /\ BuffQ1 rs = (length s, S (length s)) /\
          BuffQ2 rs = (S (S (length s)), S (S (S (length s))))) as (-> & H1 & H2).
  { destruct (RingQ p1), (RingQ p2); apply ret_inv in H; destruct H as [-> H];
      injection H as ->; auto. }
  unfold switcher_owns, buffers. rewrite H1, H2. cbn [fst snd]. split.
  - rewrite !NoDup_cons, !elem_of_cons, !elem_of_nil.
    repeat split; try lia. apply NoDup_nil_2.
  - rewrite !Forall_cons. repeat split; try lia. apply Forall_nil_2.
Qed.

Lemma switcher_owns_grows rs (s s' : Store) :
  switcher_owns rs s -> (length s <= length s')%nat -> switcher_owns rs s'.
Proof.
  intros [Hnd Hlt] Hlen. split; [exact Hnd |].
  eapply Forall_impl; [exact Hlt |]. cbn. intros l Hl. lia.
Qed.

(** ** Building the switcher *)

Lemma newModulusSwitcherBuffers_store p1 p2 (s s' : Store) b :
  newModulusSwitcherBuffers p1 p2 s = (s', Ok b) ->
  exists r1 r2,
    RingQ p1 = Some r1 /\ RingQ p2 = Some r2 /\
    s' = s ++ [zero_poly r1; zero_poly r1; zero_poly r2; zero_poly r2].
Proof.
  unfold newModulusSwitcherBuffers. intros H.
  destruct (RingQ p1) as [r1 |]; [| discriminate H].
  destruct (RingQ p2) as [r2 |].
  - exists r1, r2. split; [reflexivity |]. split; [reflexivity |].
    cbn [deref] in H. rewrite !bind_ret_l in H.
    repeat match type of H with
    | bind (NewPoly _) _ _ = _ =>
        let Hn := fresh "Hn" in
        apply bind_ok_inv in H; destruct H as (? & ? & Hn & H);
        apply NewPoly_inv in Hn; destruct Hn as [-> ->];
        rewrite ?bind_ret_l in H
    end.
    apply ret_inv in H. destruct H as [-> _].
    rewrite <- !app_assoc. reflexivity.
  - cbn [deref] in H. rewrite !bind_ret_l in H.
    repeat match type of H with
    | bind (NewPoly _) _ _ = _ =>
        apply bind_ok_inv in H; destruct H as (? & ? & _ & H);
        rewrite ?bind_ret_l in H
    end.
    discriminate H.
Qed.

Lemma NewModulusSwitcher_ok_inv p1 p2 (s s' : Store) rs :
  NewModulusSwitcher p1 p2 s = (s', Ok rs) ->
  exists r1 r2,
    RingQ p1 = Some r1 /\ RingQ p2 = Some r2 /\
    s' = s ++ [zero_poly r1; zero_poly r1; zero_poly r2; zero_poly r2] /\
    rs = mkModulusSwitcher p1 p2
           (length s, S (length s)) (S (S (length s)), S (S (S (length s))))
           (Some (NewBasisExtender r1 r2)) (Some (NewDecomposer r1 r2)).
Proof.
  unfold NewModulusSwitcher. intros H.
  apply bind_ok_inv in H. destruct H as (s1 & b & Hb & H).
  pose proof (newModulusSwitcherBuffers_store _ _ _ _ _ Hb) as (r1 & r2 & H1 & H2 & ->).
  apply newModulusSwitcherBuffers_inv in Hb. destruct Hb as [_ ->].
  exists r1, r2. rewrite H1, H2 in *.
  apply ret_inv in H. destruct H as [-> H]. injection H as <-.
  auto.
Qed.

(** The test [RingQ() != nil] of [NewModulusSwitcher] comes too late to
    guard anything: the scratch polynomials are allocated through the two
    rings first.  With a nil ring of chain 1 the call panics with a nil
    dereference before it allocates; with a nil ring of chain 2 it panics
    after the two scratch polynomials of chain 1 are allocated; and a
    switcher that is returned always has its basis extender and its
    decomposer, between the rings of the two chains. *)
Theorem NewModulusSwitcher_nil_ring p1 p2 (s s' : Store) r :
  NewModulusSwitcher p1 p2 s = (s', r) ->
  (RingQ p1 = None -> s' = s /\ r = Err NilDereference) /\
  (forall r1, RingQ p1 = Some r1 -> ring_sizes_ok r1 -> RingQ p2 = None ->
     s' = s ++ [zero_poly r1; zero_poly r1] /\ r = Err NilDereference) /\
  (forall rs, r = Ok rs ->
     exists r1 r2,
       RingQ p1 = Some r1 /\ RingQ p2 = Some r2 /\
       rsBasisExtender rs = Some (NewBasisExtender r1 r2) /\
       rsDecomposer rs = Some (NewDecomposer r1 r2)).
Proof.
  intros H. split; [| split].
  - intros Hnil. unfold NewModulusSwitcher, newModulusSwitcherBuffers in H.
    rewrite Hnil in H. cbn in H. injection H as <- <-. auto.
  - intros r1 Hr1 Hok Hnil.
    unfold NewModulusSwitcher, newModulusSwitcherBuffers in H.
    rewrite Hr1, Hnil in H. cbn [deref] in H.
    rewrite !bind_assoc, !bind_ret_l in H.
    rewrite bind_assoc in H.
    erewrite bind_run_ok in H by (apply NewPoly_run; exact Hok).
    rewrite !bind_assoc, !bind_ret_l in H.
    rewrite bind_assoc in H.
    erewrite bind_run_ok in H by (apply NewPoly_run; exact Hok).
    cbn in H. injection H as <- <-.
    rewrite <- app_assoc. auto.
  - intros rs ->. apply NewModulusSwitcher_ok_inv in H.
    destruct H as (r1 & r2 & H1 & H2 & _ & ->). eauto 10.
Qed.

Lemma NewModulusSwitcher_nil_ring_witness :
  NewModulusSwitcher small_params1 nil_params [] =
    ([[[0]; [0]; [0]]; [[0]; [0]; [0]]], Err NilDereference).
Proof.
  destruct (NewModulusSwitcher small_params1 nil_params []) as [s' r] eqn:Hrun.
  destruct (NewModulusSwitcher_nil_ring small_params1 nil_params [] s' r Hrun)
    as (_ & H & _).
  destruct (H (top_ring chain1) eq_refl ltac:(split; cbn; lia) eq_refl) as [-> ->].
  reflexivity.
Defined.

(** A switcher returned by [NewModulusSwitcher] is over the two parameter
    sets it was given and owns four new polynomials: they are distinct,
    they lie behind everything that was in the store, each is the zero
    polynomial over the whole chain, and the store of before is unchanged.
    So every ciphertext that existed before is separate from the scratch
    polynomials. *)
Theorem NewModulusSwitcher_fresh p1 p2 (s s' : Store) rs :
  NewModulusSwitcher p1 p2 s = (s', Ok rs) ->
  params1 rs = p1 /\ params2 rs = p2 /\
  switcher_owns rs s' /\
  (forall l, l ∈ buffers rs -> (length s <= l)%nat) /\
  (forall l, (l < length s)%nat -> s' !! l = s !! l) /\
  (forall ct, Forall (fun v => (v < length s)%nat) (Value ct) -> separate rs ct s') /\
  (exists r1 r2,
     RingQ p1 = Some r1 /\ RingQ p2 = Some r2 /\
     s' !! fst (BuffQ1 rs) = Some (zero_poly r1) /\
     s' !! snd (BuffQ1 rs) = Some (zero_poly r1) /\
     s' !! fst (BuffQ2 rs) = Some (zero_poly r2) /\
     s' !! snd (BuffQ2 rs) = Some (zero_poly r2)).
Proof.
  intros H. pose proof (NewModulusSwitcher_owns _ _ _ _ _ H) as Howns.
  apply NewModulusSwitcher_ok_inv in H.
  destruct H as (r1 & r2 & H1 & H2 & -> & ->).
  assert (forall l, l ∈ buffers
            (mkModulusSwitcher p1 p2 (length s, S (length s))
               (S (S (length s)), S (S (S (length s))))
               (Some (NewBasisExtender r1 r2)) (Some (NewDecomposer r1 r2))) ->
          (length s <= l)%nat) as Hfresh.
  { intros l. unfold buffers. cbn [BuffQ1 BuffQ2 fst snd].
    rewrite !elem_of_cons, elem_of_nil. lia. }
  split; [reflexivity |]. split; [reflexivity |]. split; [exact Howns |].
  split; [exact Hfresh |].
  split; [intros l Hl; apply lookup_app_l; exact Hl |].
  split.
  - intros ct Hct. unfold separate. eapply Forall_impl; [exact Hct |].
    cbn beta. intros v Hv. split; [rewrite length_app; lia |].
    intros Hin. apply Hfresh in Hin. lia.
  - exists r1, r2. split; [exact H1 |]. split; [exact H2 |].
    cbn [BuffQ1 BuffQ2 fst snd].
    repeat split; (rewrite lookup_app_r by lia);
      match goal with |- _ !! ?n = _ => replace n with (n - 0)%nat by lia end.
    + replace (length s - length s - 0)%nat with 0%nat by lia. reflexivity.
    + replace (S (length s) - length s - 0)%nat with 1%nat by lia. reflexivity.
    + replace (S (S (length s)) - length s - 0)%nat with 2%nat by lia. reflexivity.
    + replace (S (S (S (length s))) - length s - 0)%nat with 3%nat by lia. reflexivity.
Qed.

Lemma NewModulusSwitcher_fresh_witness :
  exists s',
    NewModulusSwitcher small_params1 small_params2 [residues 3 2 chain1] =
      (s', Ok (mkModulusSwitcher small_params1 small_params2 (1, 2)%nat (3, 4)%nat
                 (Some (NewBasisExtender (top_ring chain1) (top_ring chain2)))
                 (Some (NewDecomposer (top_ring chain1) (top_ring chain2))))) /\
    separate
      (mkModulusSwitcher small_params1 small_params2 (1, 2)%nat (3, 4)%nat
         (Some (NewBasisExtender (top_ring chain1) (top_ring chain2)))
         (Some (NewDecomposer (top_ring chain1) (top_ring chain2))))
      (mkCiphertext [0%nat] 40 true true (3, 4)) s'.
Proof.
  eexists. split; [vm_compute; reflexivity |].
  eapply (NewModulusSwitcher_fresh small_params1 small_params2 [residues 3 2 chain1]);
    [vm_compute; reflexivity |].
  cbn. repeat constructor.
Defined.

(** ** Using the switcher again *)

Lemma for_range_ok_each idxs body (s s' : Store) i :
  for_range idxs body s = (s', Ok tt) -> i ∈ idxs ->
  exists si si', body i si = (si', Ok tt).
Proof.
  revert s. induction idxs as [| j idxs IH]; intros s H Hi.
  - apply elem_of_nil in Hi. contradiction.
  - cbn in H. apply bind_ok_inv in H. destruct H as (s1 & [] & Hj & H).
    apply elem_of_cons in Hi. destruct Hi as [-> | Hi]; eauto.
Qed.

Section Reuse.
Context {L : RingLibrary}.

(** A ciphertext returned by [SwitchNew] has the degree of the input, and
    that degree is 0 or 1: the call returns for ciphertexts of one or two
    value components only. *)
Theorem SwitchNew_degree rs ctIn dir (s s' : Store) out :
  SwitchNew rs ctIn dir s = (s', Ok out) ->
  Degree out = Degree ctIn /\ 0 <= Degree ctIn <= 1.
Proof.
  intros H. pose proof H as Hch. apply SwitchNew_changes in Hch.
  destruct Hch as (_ & _ & Hout). destruct (Hout out eq_refl) as [Hval _].
  apply SwitchNew_ok_inv in H.
  destruct H as (l1 & s1 & lc & Hl1 & _ & Hloop & _).
  apply ct_Level_inv in Hl1. destruct Hl1 as (_ & v0 & c & Hv0 & _ & _).
  assert (0 < length (Value ctIn))%nat as Hpos by (eapply lookup_lt_Some; eauto).
  unfold Degree. rewrite Hval, length_seq. split; [reflexivity |].
  split; [lia |].
  destruct (decide (3 <= length (Value ctIn))%nat) as [Hthree |]; [| lia].
  assert (2%nat ∈ seq 0 (length (Value ctIn))) as Hin by (apply elem_of_seq; lia).
  destruct (for_range_ok_each _ _ _ _ _ Hloop Hin) as (si & si' & Hbody).
  rewrite SwitchNew_body_third in Hbody by exact Hthree. discriminate Hbody.
Qed.

(** What a call of [SwitchNew] needs of the store it leaves behind: after
    a successful call the switcher still owns its scratch polynomials, and
    both the input and the returned ciphertext are separate from them, so
    that either can be switched next. *)
Theorem SwitchNew_again rs ctIn dir (s s' : Store) out :
  switcher_owns rs s -> separate rs ctIn s ->
  SwitchNew rs ctIn dir s = (s', Ok out) ->
  switcher_owns rs s' /\ separate rs ctIn s' /\ separate rs out s'.
Proof.
  intros Howns Hsep H. apply SwitchNew_changes in H.
  destruct H as (Hlen & _ & Hout). destruct (Hout out eq_refl) as [Hval Hlen'].
  split; [eapply switcher_owns_grows; eauto |]. split.
  - unfold separate in *. eapply Forall_impl; [exact Hsep |].
    cbn beta. intros v [Hv Hnb]. split; [lia | exact Hnb].
  - unfold separate. rewrite Hval. apply Forall_forall. intros o Ho.
    apply elem_of_seq in Ho. split; [lia |].
    intros Hin. destruct Howns as [_ Hlt]. rewrite Forall_forall in Hlt.
    specialize (Hlt o Hin). lia.
Qed.

End Reuse.

Lemma SwitchNew_degree_witness :
  exists s' out,
    SwitchNew (L := DegreeOneRings) small_switcher (small_ct 2) true store_level1
      = (s', Ok out) /\
    Degree out = 1.
Proof.
  eexists. eexists. split; [vm_compute; reflexivity |].
  eapply eq_trans;
    [eapply (SwitchNew_degree (L := DegreeOneRings) small_switcher (small_ct 2) true
               store_level1); vm_compute; reflexivity
    | reflexivity].
Defined.

Lemma SwitchNew_again_witness :
  exists s' out,
    SwitchNew (L := DegreeOneRings) small_switcher (small_ct 2) true store_level1
      = (s', Ok out) /\
    switcher_owns small_switcher s' /\ separate small_switcher out s'.
Proof.
  destruct (SwitchNew (L := DegreeOneRings) small_switcher (small_ct 2) true store_level1)
    as [s' [out | e]] eqn:Hrun; [| vm_compute in Hrun; discriminate Hrun].
  exists s', out. split; [reflexivity |].
  destruct (SwitchNew_again (L := DegreeOneRings) small_switcher (small_ct 2) true
              store_level1 s' out
              (small_owns [residues 3 2 chain1; residues 4 2 chain1])
              (small_separate 2 [residues 3 2 chain1; residues 4 2 chain1]
                 ltac:(cbn; lia))
              Hrun)
    as (H1 & _ & H3).
  split; assumption.
Defined.

(** ** What switching a key leaves in the store *)

Lemma NewSecretKey_grows p (s s' : Store) r :
  NewSecretKey p s = (s', r) ->
  exists ext, s' = s ++ ext /\
    forall sk, r = Ok sk ->
      sk = mkSecretKey (length s) (S (length s)) /\ length ext = 2%nat.
Proof.
  destruct r as [sk | e]; intros H.
  - apply NewSecretKey_inv in H. destruct H as (rq & rp & _ & _ & -> & ->).
    eexists. split; [reflexivity |]. intros sk H. injection H as <-. auto.
  - assert (exists ext, s' = s ++ ext) as [ext ->]; [| exists ext; split; [auto | discriminate]].
    unfold NewSecretKey in H.
    apply bind_inv in H. destruct H as [(s1 & rq & H1 & H) | (e1 & H1 & _)];
      apply deref_inv in H1; destruct H1 as [-> _];
      [| exists []; symmetry; apply app_nil_r].
    apply bind_inv in H. destruct H as [(s1 & q & H1 & H) | (e1 & H1 & _)];
      [| eapply NewPoly_grows; eauto].
    apply NewPoly_inv in H1. destruct H1 as [-> ->].
    apply bind_inv in H. destruct H as [(s1 & rp & H1 & H) | (e1 & H1 & _)];
      apply deref_inv in H1; destruct H1 as [-> _]; [| eauto].
    apply bind_inv in H. destruct H as [(s1 & q & H1 & H) | (e1 & H1 & _)].
    + apply ret_inv in H. destruct H as [_ H]. discriminate H.
    + apply NewPoly_grows in H1. destruct H1 as [ext ->].
      rewrite <- app_assoc. eauto.
Qed.

Section SecretKeyFrame.
Context {L : RingLibrary}.

Lemma ExtendBasis_frame rQ rP polQ buff polP (s s' : Store) r :
  ExtendBasisSmallNormAndCenterNTTMontgomery rQ rP polQ buff polP s = (s', r) ->
  map length s' = map length s /\
  (forall l, l <> buff -> l <> polP -> s' !! l = s !! l).
Proof.
  unfold ExtendBasisSmallNormAndCenterNTTMontgomery. intros H.
  apply bind_inv in H. destruct H as [(s1 & rq & H1 & H) | (e1 & H1 & _)];
    apply deref_inv in H1; destruct H1 as [-> _]; [| auto].
  apply bind_inv in H. destruct H as [(s1 & rp & H1 & H) | (e1 & H1 & _)];
    apply deref_inv in H1; destruct H1 as [-> _]; [| auto].
  apply bind_inv in H. destruct H as [(s1 & c & H1 & H) | (e1 & H1 & _)];
    apply load_inv in H1; destruct H1 as [-> _]; [| auto].
  apply bind_inv in H. destruct H as [(s1 & bp & H1 & H) | (e1 & H1 & _)];
    apply from_library_inv in H1; destruct H1 as [-> _]; [| auto].
  apply bind_inv in H. destruct H as [(s1 & u & H1 & H) | (e1 & H1 & _)].
  - apply write_frame in H1, H. destruct H1 as [Ha Hb], H as [Hc Hd].
    split; [congruence |]. intros l Hl1 Hl2. rewrite Hd, Hb by assumption. reflexivity.
  - apply write_frame in H1. destruct H1 as [Ha Hb]. split; [exact Ha |].
    intros l Hl1 _. apply Hb. exact Hl1.
Qed.

(** Whatever its outcome, [SwitchSecretKey] changes no polynomial that was
    in the store except the first scratch polynomial of either chain: in
    particular the input key stays as it was, and the second scratch
    polynomials are never used.  When it raises its own panic it has
    changed nothing at all; when it returns, the key returned consists of
    the two polynomials allocated by the call. *)
Theorem SwitchSecretKey_frame rs skIn (s s' : Store) r :
  SwitchSecretKey rs skIn s = (s', r) ->
  (length s <= length s')%nat /\
  (forall l, (l < length s)%nat ->
     l <> fst (BuffQ1 rs) -> l <> fst (BuffQ2 rs) -> s' !! l = s !! l) /\
  (forall msg, r = Err (Panic msg) -> s' = s) /\
  (forall skOut, r = Ok skOut ->
     skOut = mkSecretKey (length s) (S (length s)) /\
     length s' = (length s + 2)%nat).
Proof.
  unfold SwitchSecretKey. intros H.
  assert ((length s <= length s)%nat /\
          (forall l, (l < length s)%nat ->
             l <> fst (BuffQ1 rs) -> l <> fst (BuffQ2 rs) -> s !! l = s !! l)) as Hsame
    by (split; [lia | auto]).
  apply bind_inv in H. destruct H as [(s0 & lvl & Hlvl & H) | (e & Hlvl & ->)].
  2:{ unfold sk_LevelQ, poly_Level in Hlvl.
      apply bind_inv in Hlvl. destruct Hlvl as [(s1 & c & Hc & Hr) | (e' & Hc & He)].
      - apply ret_inv in Hr. destruct Hr as [_ Hr]. discriminate Hr.
      - apply load_inv in Hc. destruct Hc as [-> Hc].
        destruct Hsame as [H1 H2].
        split; [exact H1 |]. split; [exact H2 |].
        split; [| discriminate]. reflexivity. }
  apply sk_LevelQ_inv in Hlvl. destruct Hlvl as [-> _].
  apply bind_inv in H. destruct H as [(s0 & sel & Hsel & H) | (e & Hsel & ->)];
    apply lift_inv in Hsel; destruct Hsel as [-> Hsel].
  2:{ destruct Hsame as [H1 H2].
      split; [exact H1 |]. split; [exact H2 |]. split; [reflexivity | discriminate]. }
  assert (forall s1 msg, (s', r) <> (s1, Err (Panic msg))) as Hown.
  { intros s1 msg. rewrite <- H. apply SwitchSecretKey_tail_no_own_panic. }
  destruct sel as [[[pd rq1] rq2] buff].
  assert (fst buff = fst (BuffQ1 rs) \/ fst buff = fst (BuffQ2 rs)) as Hbuff.
  { symmetry in Hsel. apply select_chains_inv in Hsel.
    destruct Hsel as [_ [(_ & _ & _ & ->) | (_ & _ & _ & _ & ->)]]; auto. }
  apply bind_inv in H. destruct H as [(s1 & skOut & Hnew & H) | (e & Hnew & ->)];
    apply NewSecretKey_grows in Hnew; destruct Hnew as (ext & -> & Hsk).
  2:{ split; [rewrite length_app; lia |].
      split; [intros l Hl _ _; apply lookup_app_l; exact Hl |].
      split; [| discriminate].
      intros msg Hm. injection Hm as ->. exfalso. eapply Hown. reflexivity. }
  destruct (Hsk skOut eq_refl) as [-> Hext]. cbn [ValueQ ValueP] in H.
  apply bind_inv in H. destruct H as [(s1 & u1 & He1 & H) | (e & He1 & ->)];
    apply ExtendBasis_frame in He1; destruct He1 as [Hl1 Hf1].
  2:{ apply (f_equal length) in Hl1. rewrite !length_map, length_app in Hl1.
      split; [lia |]. split; [| split; [| discriminate]].
      - intros l Hl Hb1 Hb2. rewrite Hf1 by (destruct Hbuff; lia || congruence).
        apply lookup_app_l. exact Hl.
      - intros msg Hm. injection Hm as ->. exfalso. eapply Hown. reflexivity. }
  apply bind_inv in H. destruct H as [(s2 & u2 & He2 & H) | (e & He2 & ->)];
    apply ExtendBasis_frame in He2; destruct He2 as [Hl2 Hf2];
    apply (f_equal length) in Hl1, Hl2; rewrite !length_map in Hl1, Hl2;
    rewrite length_app in Hl1.
  2:{ split; [lia |]. split; [| split; [| discriminate]].
      - intros l Hl Hb1 Hb2. rewrite Hf2, Hf1 by (destruct Hbuff; lia || congruence).
        apply lookup_app_l. exact Hl.
      - intros msg Hm. injection Hm as ->. exfalso. eapply Hown. reflexivity. }
  apply ret_inv in H. destruct H as [-> ->].
  split; [lia |]. split; [| split; [discriminate |]].
  - intros l Hl Hb1 Hb2. rewrite Hf2, Hf1 by (destruct Hbuff; lia || congruence).
    apply lookup_app_l. exact Hl.
  - intros sk Hsk'. injection Hsk' as <-. split; [reflexivity | lia].
Qed.

End SecretKeyFrame.

Lemma SwitchSecretKey_frame_witness :
  exists s' skOut,
    SwitchSecretKey (L := DegreeOneRings) small_switcher (mkSecretKey 4 5) key_store
      = (s', Ok skOut) /\
    skOut = mkSecretKey 6 7 /\
    s' !! 4%nat = key_store !! 4%nat /\
    s' !! 3%nat = key_store !! 3%nat.
Proof.
  destruct (SwitchSecretKey (L := DegreeOneRings) small_switcher (mkSecretKey 4 5) key_store)
    as [s' [skOut | e]] eqn:Hrun; [| vm_compute in Hrun; discriminate Hrun].
  exists s', skOut. split; [reflexivity |].
  destruct (SwitchSecretKey_frame (L := DegreeOneRings) small_switcher (mkSecretKey 4 5)
              key_store s' (Ok skOut) Hrun) as (_ & Hkeep & _ & Hout).
  destruct (Hout skOut eq_refl) as [-> _].
  split; [reflexivity |].
  split; apply Hkeep; cbn; lia.
Defined.

(** ** The original pipeline and the comparison program *)

Section OriginalPipelineProofs.
Context {Ct : Type} (st : Stages (Ct := Ct)).

Ltac step_original :=
  match goal with
  | |- context [match ?x with Ok _ => _ | Err _ => _ end] =>
      let E := fresh "E" in destruct x eqn:E; cbn
  end.

(** The original bootstrap of the example program makes eight calls, all
    on the evaluator of chain 1 and in the order decoding, scale down,
    basis raise, encoding, the two modular reductions, multiplication by i
    and addition; it never calls the modulus switcher.  A stage that fails
    ends the run: the calls made are those up to the failing one. *)
Theorem original_bootstrap_calls (ct : Ct) :
  (forall tr out,
     original_bootstrap st ct [] = (tr, Ok out) ->
     tr = original_run /\
     (forall c, c ∈ tr -> evaluator_of c = Some eval) /\
     (forall dir, count_switch dir tr = 0%nat)) /\
  (forall tr e,
     original_bootstrap st ct [] = (tr, Err e) ->
     exists k, (k < 8)%nat /\ tr = take (S k) original_run).
Proof.
  split.
  - intros tr out. unfold original_bootstrap, call, bind, ret. cbn.
    repeat step_original; intros H; try discriminate H.
    injection H as <- <-.
    split; [reflexivity |]. split.
    + intros c Hc. unfold original_run in Hc.
      rewrite !elem_of_cons, elem_of_nil in Hc.
      repeat (destruct Hc as [-> | Hc]; [reflexivity |]). contradiction.
    + intros []; reflexivity.
  - intros tr e. unfold original_bootstrap, call, bind, ret. cbn.
    repeat step_original; intros H; try discriminate H; injection H as <- <-.
    + exists 7%nat. split; [lia | reflexivity].
    + exists 6%nat. split; [lia | reflexivity].
    + exists 5%nat. split; [lia | reflexivity].
    + exists 4%nat. split; [lia | reflexivity].
    + exists 3%nat. split; [lia | reflexivity].
    + exists 2%nat. split; [lia | reflexivity].
    + exists 1%nat. split; [lia | reflexivity].
    + exists 0%nat. split; [lia | reflexivity].
Qed.

End OriginalPipelineProofs.

Lemma original_bootstrap_calls_witness :
  original_bootstrap plain_stages 5 [] = (original_run, Ok 10) /\
  count_switch true original_run = 0%nat.
Proof.
  split; [reflexivity |].
  destruct (original_bootstrap_calls plain_stages 5) as [H _].
  destruct (H original_run 10 eq_refl) as (_ & _ & Hc). apply Hc.
Defined.

Lemma wrap_int_id z : is_int z -> wrap_int z = z.
Proof.
  unfold is_int, wrap_int. intros H.
  rewrite Z.mod_small by lia. lia.
Qed.

(** In the comparison program the correction of the message ratio never
    takes effect.  [BenchBTS] applies it when the flag is 0, which [main]
    passes exactly when the ring degree is the full 2^16, where the
    correction is zero; in the short run, where it would be 3, the flag is
    1 and the correction is skipped. *)
Theorem BenchBTS_ratio_unchanged (flagShort : bool) (LogMessageRatio : Z) :
  is_int LogMessageRatio ->
  BenchBTS_LogMessageRatio (compare_LogN flagShort) (compare_flagShortInt flagShort)
    LogMessageRatio = LogMessageRatio /\
  (flagShort = true -> int_sub 16 (compare_LogN flagShort) = 3).
Proof.
  intros Hint. unfold BenchBTS_LogMessageRatio, compare_LogN, compare_flagShortInt.
  destruct flagShort; cbn [Z.eqb].
  - split; [reflexivity |]. intros _. vm_compute. reflexivity.
  - split; [| discriminate].
    replace (int_sub 16 16) with 0 by (vm_compute; reflexivity).
    unfold int_add. rewrite Z.add_0_r. apply wrap_int_id. exact Hint.
Qed.

Lemma BenchBTS_ratio_unchanged_witness :
  BenchBTS_LogMessageRatio (compare_LogN true) (compare_flagShortInt true) 8 = 8 /\
  BenchBTS_LogMessageRatio (compare_LogN false) (compare_flagShortInt false) 8 = 8.
Proof.
  split.
  - apply (BenchBTS_ratio_unchanged true 8). unfold is_int. lia.
  - apply (BenchBTS_ratio_unchanged false 8). unfold is_int. lia.
Defined.

(** ** The rows of the output *)

Section OutputRows.
Context {L : RingLibrary}.

Lemma transform_ok_rows (k : Coeffs -> option Coeffs) p1 p2 (s s' : Store) :
  transform k p1 p2 s = (s', Ok tt) ->
  exists c r old,
    s !! p1 = Some c /\ k c = Some r /\ s !! p2 = Some old /\
    (length r <= length old)%nat.
Proof.
  unfold transform. intros H.
  apply bind_ok_inv in H. destruct H as (s1 & c & Hc & H).
  apply load_inv in Hc. destruct Hc as [-> Hc].
  destruct (s !! p1) as [c' |] eqn:E1; [injection Hc as -> | discriminate].
  apply bind_ok_inv in H. destruct H as (s2 & r & Hr & H).
  apply from_library_inv in Hr. destruct Hr as [-> Hr].
  destruct (k c') as [r' |] eqn:Ek; [injection Hr as -> | discriminate].
  apply write_inv in H.
  destruct H as [(old & Hold & Hlen & -> & _) | (_ & e & He)]; [| discriminate].
  eauto 10.
Qed.

(** An iteration that returns has written the rows of its last transform
    into an output component with at least as many rows. *)
Lemma SwitchNew_body_output_rows rs ctIn ctOut dir l1 lc i (s s' : Store) :
  SwitchNew_body rs ctIn ctOut dir l1 lc i s = (s', Ok tt) ->
  exists o c r (old : Coeffs) (s3 : Store),
    Value ctOut !! i = Some o /\
    ntt_rows dir (ringQ2 lc) c = Some r /\
    map length s3 = map length s /\ s3 !! o = Some old /\
    (length r <= length old)%nat.
Proof.
  unfold SwitchNew_body. intros H.
  apply bind_ok_inv in H. destruct H as (s0 & v & Hv & H).
  apply index_inv in Hv. destruct Hv as [-> _].
  apply bind_ok_inv in H. destruct H as (s0 & b1 & Hb1 & H).
  apply index2_inv in Hb1. destruct Hb1 as [-> _].
  apply bind_ok_inv in H. destruct H as (s1 & [] & Hintt & H).
  apply transform_frame in Hintt. destruct Hintt as [Hlen1 _].
  apply bind_ok_inv in H. destruct H as (s0 & b2 & Hb2 & H).
  apply index2_inv in Hb2. destruct Hb2 as [-> _].
  apply bind_ok_inv in H. destruct H as (s2 & [] & Hmod & H).
  apply ModUp_inv, transform_frame in Hmod. destruct Hmod as [Hlen2 _].
  apply bind_ok_inv in H. destruct H as (s0 & o & Ho & H).
  apply index_inv in Ho. destruct Ho as [-> Ho].
  destruct (Value ctOut !! i) as [o' |] eqn:Eo; [injection Ho as -> | discriminate].
  apply NTT_inv, transform_ok_rows in H.
  destruct H as (c & r & old & _ & Hr & Hold & Hlen).
  exists o', c, r, old, s2.
  split; [reflexivity |]. split; [exact Hr |].
  split; [congruence |]. split; [exact Hold | exact Hlen].
Qed.

(** From chain 1 to a longer chain 2, [SwitchNew] never returns.  The
    output is allocated over chain 1 at the level of the input; the last
    transform of the first component writes the rows of the destination
    level, which is higher, and runs past the end of the output
    component. *)
Theorem SwitchNew_longer_destination rs ctIn (s : Store) :
  writes_level_rows NTT_rows ->
  params_built (params1 rs) -> params_built (params2 rs) ->
  sizeOf (params1 rs) < sizeOf (params2 rs) ->
  forall s' out, SwitchNew rs ctIn true s <> (s', Ok out).
Proof.
  intros Hntt Hp1 Hp2 Hlt s' out H.
  apply SwitchNew_ok_inv in H.
  destruct H as (l1 & s1 & lc & Hl1 & Hsetup & Hloop & _).
  apply SwitchNew_setup_inv in Hsetup.
  destruct Hsetup as (rsrc & rdst & Hsrc & Hdst & HlQ2 & Hr1 & Hr2 & _ & _ & -> & Hct).
  apply ct_Level_inv in Hl1. destruct Hl1 as (_ & v0 & c0 & Hv0 & _ & _).
  assert (0 < length (Value ctIn))%nat as Hn by (eapply lookup_lt_Some; eauto).
  destruct (length (Value ctIn)) as [| n] eqn:En; [lia |].
  cbn [seq for_range] in Hloop.
  apply bind_ok_inv in Hloop. destruct Hloop as (s2 & [] & Hbody & _).
  apply SwitchNew_body_output_rows in Hbody.
  destruct Hbody as (o & c & r & old & s3 & Ho & Hr & Hlen3 & Hold & Hle).
  cbn [copy_MetaData Value] in Ho. rewrite Hct in Ho. cbn in Ho. injection Ho as <-.
  assert (map length s3 !! length s = Some (length old)) as Hrow
    by (rewrite list_lookup_fmap, Hold; reflexivity).
  rewrite Hlen3, list_lookup_fmap in Hrow.
  rewrite lookup_app_r in Hrow by lia. rewrite Nat.sub_diag in Hrow.
  cbn in Hrow. injection Hrow as Hrow.
  unfold ntt_rows in Hr. apply Hntt in Hr.
  apply AtLevel_inv in Hr1, Hr2. destruct Hr1 as [Hb1 Hr1], Hr2 as [Hb2 Hr2].
  unfold zero_poly in Hrow. rewrite length_replicate in Hrow.
  rewrite Hr1 in Hrow. rewrite Hr2 in Hr. cbn [level] in Hrow, Hr.
  destruct (params_built_level _ Hp1) as (r1 & Hq1 & Hlev1).
  destruct (params_built_level _ Hp2) as (r2 & Hq2 & Hlev2).
  cbn [source_params destination_params] in Hsrc, Hdst.
  rewrite Hq1 in Hsrc. injection Hsrc as <-.
  rewrite Hq2 in Hdst. injection Hdst as <-.
  lia.
Qed.

End OutputRows.

Lemma rows_at_level_length lvl c b :
  rows_at_level lvl c = Some b -> length b = Z.to_nat (lvl + 1).
Proof.
  unfold rows_at_level. cbn zeta.
  destruct (length c <? Z.to_nat (lvl + 1))%nat eqn:E; [discriminate |].
  apply Nat.ltb_ge in E. intros H. injection H as <-.
  rewrite length_take. lia.
Qed.

Lemma SwitchNew_longer_destination_witness :
  sizeOf (params1 longer_switcher) < sizeOf (params2 longer_switcher) /\
  snd (SwitchNew (L := DegreeOneRings) longer_switcher (small_ct 2) true longer_store) =
    Err (IndexOutOfRange 2 2) /\
  forall s' out,
    SwitchNew (L := DegreeOneRings) longer_switcher (small_ct 2) true longer_store
      <> (s', Ok out).
Proof.
  assert (sizeOf (params1 longer_switcher) < sizeOf (params2 longer_switcher)) as Hlt
    by reflexivity.
  split; [exact Hlt |]. split; [vm_compute; reflexivity |].
  apply (SwitchNew_longer_destination (L := DegreeOneRings) longer_switcher (small_ct 2)
           longer_store).
  - intros r c b Hb. cbn in Hb. eapply rows_at_level_length; eauto.
  - exists (top_ring chain2). repeat split.
  - exists (top_ring chain1). repeat split.
  - exact Hlt.
Defined.

(** ** The scratch polynomials carry nothing from call to call *)

Lemma shape_lookup (sA sB : Store) l :
  map length sA = map length sB -> length <$> sA !! l = length <$> sB !! l.
Proof.
  intros H. rewrite <- !list_lookup_fmap.
  change (map length sA !! l = map length sB !! l). rewrite H. reflexivity.
Qed.

Lemma same_but_shape W (sA sB : Store) : same_but W sA sB -> map length sA = map length sB.
Proof. intros [H _]. congruence. Qed.

Lemma same_but_app W (sA sB ext : Store) :
  same_but W sA sB -> same_but W (sA ++ ext) (sB ++ ext).
Proof.
  intros HI. pose proof (same_but_length _ _ _ HI) as Hlen. destruct HI as [H1 H2].
  split; [rewrite !map_app; congruence |].
  intros l Hl. destruct (decide (l < length sA)%nat) as [Hlt | Hge].
  - rewrite !lookup_app_l by lia. apply H2. exact Hl.
  - rewrite !lookup_app_r by lia. rewrite Hlen. reflexivity.
Qed.

Lemma same_but_insert (W : loc -> Prop) (sA sB : Store) p (xA xB : Coeffs) :
  same_but W sA sB -> length xA = length xB -> W p \/ xA = xB ->
  same_but W (<[p := xA]> sA) (<[p := xB]> sB).
Proof.
  intros HI Hx Hp. pose proof (same_but_length _ _ _ HI) as Hlen. destruct HI as [H1 H2].
  split.
  - apply list_eq. intros j. rewrite !list_lookup_fmap.
    destruct (decide (j = p)) as [-> | Hne].
    + destruct (decide (p < length sA)%nat) as [Hlt | Hge].
      * rewrite !list_lookup_insert_eq by lia. cbn. congruence.
      * rewrite !list_insert_ge by lia.
        apply shape_lookup. congruence.
    + rewrite !list_lookup_insert_ne by congruence.
      apply shape_lookup. congruence.
  - intros l Hl. destruct (decide (l = p)) as [-> | Hne].
    + destruct Hp as [Hp | ->]; [contradiction |].
      destruct (decide (p < length sA)%nat) as [Hlt | Hge].
      * rewrite !list_lookup_insert_eq by lia. reflexivity.
      * rewrite !list_insert_ge by lia. apply H2. exact Hl.
    + rewrite !list_lookup_insert_ne by congruence. apply H2. exact Hl.
Qed.

Lemma take_overwrite (old new : Coeffs) n :
  length new = n -> take n (overwrite old new) = new.
Proof. intros <-. unfold overwrite. apply take_app_length. Qed.

Lemma simulates_pure {A} P (m : M A) :
  (exists x, forall s, m s = (s, x)) -> simulates P P m.
Proof.
  intros [x Hx] sA sB sA' r HP H. rewrite Hx in H. injection H as <- <-.
  exists sB. split; [apply Hx | auto].
Qed.

Lemma simulates_ret {A} P (a : A) : simulates P P (ret a).
Proof. apply simulates_pure. exists (Ok a). reflexivity. Qed.

Lemma simulates_lift {A} P (x : result A) : simulates P P (lift x).
Proof. apply simulates_pure. exists x. reflexivity. Qed.

Lemma simulates_deref {A} P (p : option A) : simulates P P (deref p).
Proof. apply simulates_pure. destruct p; eexists; reflexivity. Qed.

Lemma simulates_index {A} P (l : list A) i : simulates P P (index l i).
Proof. apply simulates_pure. unfold index. destruct (l !! i); eexists; reflexivity. Qed.

Lemma simulates_index2 {A} P (a : A * A) i : simulates P P (index2 a i).
Proof. apply simulates_pure. destruct i as [| [| i]]; eexists; reflexivity. Qed.

Lemma simulates_bind {A B} P Q R (m : M A) (k : A -> M B) (Pa : A -> Prop) :
  simulates P Q m -> returns m Pa ->
  (forall a, Pa a -> simulates Q R (k a)) ->
  simulates P R (bind m k).
Proof.
  intros Hm Hret Hk sA sB sA' r HP H.
  apply bind_inv in H. destruct H as [(s1 & a & H1 & H2) | (e & H1 & ->)].
  - destruct (Hm _ _ _ _ HP H1) as (sB1 & HB1 & HQ).
    destruct (Hk a (Hret _ _ _ H1) _ _ _ _ (HQ a eq_refl) H2) as (sB' & HB' & HR).
    exists sB'. split; [| exact HR]. rewrite (bind_run_ok _ _ _ _ _ HB1). exact HB'.
  - destruct (Hm _ _ _ _ HP H1) as (sB' & HB' & _).
    exists sB'. split; [| discriminate]. apply bind_run_err. exact HB'.
Qed.

Lemma simulates_bind_any {A B} P Q R (m : M A) (k : A -> M B) :
  simulates P Q m -> (forall a, simulates Q R (k a)) -> simulates P R (bind m k).
Proof.
  intros Hm Hk. apply (simulates_bind P Q R m k (fun _ => True)); auto.
  intros s s' a _. exact I.
Qed.

Lemma simulates_for_range P idxs body :
  (forall i, simulates P P (body i)) -> simulates P P (for_range idxs body).
Proof.
  intros Hb. induction idxs as [| i idxs IH]; cbn.
  - apply simulates_ret.
  - eapply simulates_bind_any; [apply Hb | intros _; exact IH].
Qed.

Lemma simulates_load W l :
  ~ W l -> simulates (same_but W) (same_but W) (load l).
Proof.
  intros Hl sA sB sA' r HI H. apply load_inv in H. destruct H as [-> Hr].
  exists sB. split; [| intros _ _; exact HI].
  unfold load. destruct HI as [_ H2]. rewrite (H2 l Hl).
  destruct (sA !! l); subst r; reflexivity.
Qed.

Lemma simulates_NewPoly W r : simulates (same_but W) (same_but W) (NewPoly r).
Proof.
  intros sA sB sA' x HI H. pose proof (same_but_length _ _ _ HI) as Hlen.
  unfold NewPoly in *. destruct (_ || _).
  - injection H as <- <-. exists sB. split; [reflexivity | intros _ _; exact HI].
  - unfold alloc in *. injection H as <- <-.
    exists (sB ++ [zero_poly r]). split; [rewrite Hlen; reflexivity |].
    intros _ _. apply same_but_app. exact HI.
Qed.

Lemma simulates_NewPolys W n r : simulates (same_but W) (same_but W) (NewPolys n r).
Proof.
  induction n as [| n IH]; cbn.
  - apply simulates_ret.
  - eapply simulates_bind_any; [apply simulates_NewPoly | intros l].
    eapply simulates_bind_any; [exact IH | intros ls]. apply simulates_ret.
Qed.

Lemma simulates_NewCiphertext W p deg lvl :
  simulates (same_but W) (same_but W) (NewCiphertext p deg lvl).
Proof.
  unfold NewCiphertext.
  eapply simulates_bind_any; [apply simulates_deref | intros rq].
  eapply simulates_bind_any; [apply simulates_lift | intros r].
  destruct (deg + 1 <? 0).
  - apply simulates_pure. eexists. reflexivity.
  - eapply simulates_bind_any; [apply simulates_NewPolys | intros vs]. apply simulates_ret.
Qed.

Lemma simulates_ct_Level W ct :
  (forall v, v ∈ Value ct -> ~ W v) ->
  simulates (same_but W) (same_but W) (ct_Level ct).
Proof.
  intros Hv. unfold ct_Level, poly_Level.
  eapply simulates_bind; [apply simulates_index | apply returns_index | intros v0 Hv0].
  eapply simulates_bind_any; [apply simulates_load; auto | intros c]. apply simulates_ret.
Qed.

Section ScratchIndependence.
Context {L : RingLibrary}.

Lemma simulates_SwitchNew_setup W rs ctIn dir l1 :
  simulates (same_but W) (same_but W) (SwitchNew_setup rs ctIn dir l1).
Proof.
  unfold SwitchNew_setup. destruct dir.
  - eapply simulates_bind_any; [apply simulates_deref | intros r1].
    eapply simulates_bind_any; [apply simulates_deref | intros r2].
    eapply simulates_bind_any; [apply simulates_NewCiphertext | intros ctOut].
    eapply simulates_bind_any; [apply simulates_lift | intros rq1].
    eapply simulates_bind_any; [apply simulates_lift | intros rq2].
    apply simulates_ret.
  - eapply simulates_bind_any; [apply simulates_deref | intros r1].
    eapply simulates_bind_any; [apply simulates_deref | intros r2].
    eapply simulates_bind_any; [apply simulates_NewCiphertext | intros ctOut].
    eapply simulates_bind_any; [apply simulates_lift | intros rq1].
    eapply simulates_bind_any; [apply simulates_lift | intros rq2].
    apply simulates_ret.
Qed.

Lemma simulates_transform P Q (k : Coeffs -> option Coeffs) p1 p2 :
  (forall sA sB, P sA sB -> map length sA = map length sB) ->
  (forall sA sB cA cB,
     P sA sB -> sA !! p1 = Some cA -> sB !! p1 = Some cB -> k cA = k cB) ->
  (forall sA sB cA c oldA oldB,
     P sA sB -> sA !! p1 = Some cA -> k cA = Some c ->
     sA !! p2 = Some oldA -> sB !! p2 = Some oldB ->
     (length c <= length oldA)%nat -> length oldA = length oldB ->
     Q (<[p2 := overwrite oldA c]> sA) (<[p2 := overwrite oldB c]> sB)) ->
  simulates P Q (transform k p1 p2).
Proof.
  intros Hshape Hk HQ sA sB sA' r HP H.
  pose proof (Hshape _ _ HP) as Hlen.
  pose proof (shape_lookup sA sB p1 Hlen) as S1.
  pose proof (shape_lookup sA sB p2 Hlen) as S2.
  unfold transform, bind, load in H |- *.
  destruct (sA !! p1) as [cA |] eqn:EA, (sB !! p1) as [cB |] eqn:EB;
    cbn in S1; try discriminate S1.
  2:{ injection H as <- <-. exists sB. split; [reflexivity | discriminate]. }
  rewrite <- (Hk _ _ _ _ HP EA EB).
  destruct (k cA) as [c |] eqn:Ek; cbn in H |- *.
  2:{ injection H as <- <-. exists sB. split; [reflexivity | discriminate]. }
  unfold write in H |- *.
  destruct (sA !! p2) as [oldA |] eqn:FA, (sB !! p2) as [oldB |] eqn:FB;
    cbn in S2; try discriminate S2.
  2:{ injection H as <- <-. exists sB. split; [reflexivity | discriminate]. }
  injection S2 as S2. rewrite <- S2.
  destruct (length oldA <? length c)%nat eqn:Elt.
  - injection H as <- <-. eexists. split; [reflexivity | discriminate].
  - injection H as <- <-. eexists. split; [reflexivity |].
    intros _ _. apply Nat.ltb_ge in Elt. eapply HQ; eauto.
Qed.

End ScratchIndependence.

Section ScratchIndependenceTheorem.
Context {L : RingLibrary}.

Lemma same_rows_insert n l (sA sB : Store) (oldA oldB c : Coeffs) :
  (l < length sA)%nat -> (l < length sB)%nat -> length c = n ->
  same_rows n l (<[l := overwrite oldA c]> sA) (<[l := overwrite oldB c]> sB).
Proof.
  intros HA HB Hc. unfold same_rows.
  rewrite !list_lookup_insert_eq by assumption. cbn.
  rewrite !take_overwrite by exact Hc. reflexivity.
Qed.

Lemma simulates_SwitchNew_body rs ctIn ctOut dir l1 lc i :
  level_local L ->
  level (ringQ1 lc) = l1 -> level (ringQ2 lc) = levelQ2 lc ->
  (forall x y, x = fst (buffQ1 lc) \/ x = snd (buffQ1 lc) ->
               y = fst (buffQ2 lc) \/ y = snd (buffQ2 lc) ->
               x <> y /\ x ∈ buffers rs /\ y ∈ buffers rs) ->
  (forall v, v ∈ Value ctIn -> v ∉ buffers rs) ->
  (forall o, o ∈ Value ctOut -> o ∉ buffers rs) ->
  simulates (same_but (fun l => l ∈ buffers rs)) (same_but (fun l => l ∈ buffers rs))
    (SwitchNew_body rs ctIn ctOut dir l1 lc i).
Proof.
  intros [Hiw Hqr Hqw Hpr Hpw Hnr Hlr] Hl1 Hl2 Hbuf Hin Hout. unfold SwitchNew_body.
  set (W := fun l => l ∈ buffers rs).
  eapply simulates_bind; [apply simulates_index | apply returns_index | intros v Hv].
  eapply simulates_bind; [apply simulates_index2 | apply returns_index2 | intros b1 Hb1].
  eapply (simulates_bind_any _
            (fun sA sB => same_but W sA sB /\ same_rows (Z.to_nat (l1 + 1)) b1 sA sB)).
  { unfold INTTLazy. apply simulates_transform.
    - intros sA sB HI. eapply same_but_shape; eauto.
    - intros sA sB cA cB [_ HI] HA HB.
      rewrite (HI v) in HB by (apply Hin; exact Hv). congruence.
    - intros sA sB cA c oldA oldB HI HA Hc FA FB Hle Hlen.
      assert (W b1) as Hw.
      { destruct (Hbuf b1 (fst (buffQ2 lc)) Hb1 (or_introl eq_refl)) as (_ & Hw & _).
        exact Hw. }
      split.
      + apply same_but_insert; [exact HI | | left; exact Hw].
        rewrite !overwrite_length by lia. exact Hlen.
      + apply same_rows_insert;
          [eapply lookup_lt_Some; eauto | eapply lookup_lt_Some; eauto |].
        apply Hiw in Hc. rewrite Hl1 in Hc. exact Hc. }
  intros _.
  eapply simulates_bind; [apply simulates_index2 | apply returns_index2 | intros b2 Hb2].
  destruct (Hbuf b1 b2 Hb1 Hb2) as (Hne & Hw1 & Hw2).
  eapply (simulates_bind_any _
            (fun sA sB => same_but W sA sB /\
                          same_rows (Z.to_nat (levelQ2 lc + 1)) b2 sA sB)).
  { assert (forall k, modup_reads_rows k -> modup_writes_rows k -> forall be,
              simulates
                (fun sA sB => same_but W sA sB /\ same_rows (Z.to_nat (l1 + 1)) b1 sA sB)
                (fun sA sB => same_but W sA sB /\
                              same_rows (Z.to_nat (levelQ2 lc + 1)) b2 sA sB)
                (transform (k be l1 (levelQ2 lc)) b1 b2)) as Hmod.
    { intros k Hr Hw be. apply simulates_transform.
      - intros sA sB [HI _]. eapply same_but_shape; eauto.
      - intros sA sB cA cB [_ Hrows] HA HB. apply Hr.
        unfold same_rows in Hrows. rewrite HA, HB in Hrows. cbn in Hrows. congruence.
      - intros sA sB cA c oldA oldB [HI _] HA Hc FA FB Hle Hlen. split.
        + apply same_but_insert; [exact HI | | left; exact Hw2].
          rewrite !overwrite_length by lia. exact Hlen.
        + apply same_rows_insert;
            [eapply lookup_lt_Some; eauto | eapply lookup_lt_Some; eauto |].
          eapply Hw; eauto. }
    destruct dir; unfold ModUpQtoP, ModUpPtoQ;
      (eapply simulates_bind_any; [apply simulates_deref | intros be]);
      apply Hmod; assumption. }
  intros _.
  eapply simulates_bind; [apply simulates_index | apply returns_index | intros o Ho].
  assert (forall k, reads_level_rows k ->
            simulates
              (fun sA sB => same_but W sA sB /\
                            same_rows (Z.to_nat (levelQ2 lc + 1)) b2 sA sB)
              (same_but W)
              (transform (k (ringQ2 lc)) b2 o)) as Hntt.
  { intros k Hr. apply simulates_transform.
    - intros sA sB [HI _]. eapply same_but_shape; eauto.
    - intros sA sB cA cB [_ Hrows] HA HB. apply Hr. rewrite Hl2.
      unfold same_rows in Hrows. rewrite HA, HB in Hrows. cbn in Hrows. congruence.
    - intros sA sB cA c oldA oldB [HI _] HA Hc FA FB Hle Hlen.
      assert (oldA = oldB) as ->.
      { destruct HI as [_ HI]. rewrite (HI o) in FB by (apply Hout; exact Ho).
        congruence. }
      apply same_but_insert; [exact HI | reflexivity | right; reflexivity]. }
  destruct dir; unfold NTT, NTTLazy; apply Hntt; assumption.
Qed.

(** What an earlier call left in the scratch polynomials has no effect on
    a call of [SwitchNew], when the library's calls at a level read and
    write the rows of that level only.  From two stores that differ in the
    contents of the scratch polynomials alone, the call ends in the same
    way: with the same panic, or with the same ciphertext, whose
    components, like every other polynomial that is not scratch, have the
    same contents in both stores. *)
Theorem SwitchNew_scratch_independent rs ctIn dir (sA sB sA' : Store) r :
  level_local L ->
  switcher_owns rs sA -> separate rs ctIn sA ->
  same_but (fun l => l ∈ buffers rs) sA sB ->
  SwitchNew rs ctIn dir sA = (sA', r) ->
  exists sB',
    SwitchNew rs ctIn dir sB = (sB', r) /\
    (forall out, r = Ok out -> same_but (fun l => l ∈ buffers rs) sA' sB').
Proof.
  intros Hloc Howns Hsep HI H. rewrite SwitchNew_unfold in H |- *.
  set (W := fun l => l ∈ buffers rs) in *.
  assert (forall v, v ∈ Value ctIn -> ~ W v) as Hin.
  { intros v Hv. unfold separate in Hsep. rewrite Forall_forall in Hsep.
    apply (Hsep v Hv). }
  apply bind_inv in H. destruct H as [(s0 & l1 & Hlvl & H) | (e & Hlvl & ->)].
  2:{ destruct (simulates_ct_Level W ctIn Hin _ _ _ _ HI Hlvl) as (sB' & HB & _).
      exists sB'. split; [apply bind_run_err; exact HB | discriminate]. }
  destruct (simulates_ct_Level W ctIn Hin _ _ _ _ HI Hlvl) as (sB0 & HB0 & HI0).
  specialize (HI0 _ eq_refl). rewrite (bind_run_ok _ _ _ _ _ HB0).
  pose proof (ct_Level_pure _ _ _ _ Hlvl) as ->.
  apply bind_inv in H. destruct H as [(s1 & lc & Hset & H) | (e & Hset & ->)].
  2:{ destruct (simulates_SwitchNew_setup W rs ctIn dir l1 _ _ _ _ HI0 Hset)
        as (sB' & HB & _).
      exists sB'. split; [apply bind_run_err; exact HB | discriminate]. }
  destruct (simulates_SwitchNew_setup W rs ctIn dir l1 _ _ _ _ HI0 Hset)
    as (sB1 & HB1 & HI1).
  specialize (HI1 _ eq_refl). rewrite (bind_run_ok _ _ _ _ _ HB1).
  apply SwitchNew_setup_inv in Hset.
  destruct Hset as (rsrc & rdst & _ & _ & _ & Hr1 & Hr2 & Hb1 & Hb2 & _ & Hct).
  apply AtLevel_inv in Hr1, Hr2. destruct Hr1 as [_ Hr1], Hr2 as [_ Hr2].
  destruct (owns_distinct rs dir sA Howns) as [Hdist Hlt]. cbn zeta in Hdist, Hlt.
  assert (simulates (same_but W) (same_but W)
            (for_range (seq 0 (length (Value ctIn)))
               (SwitchNew_body rs ctIn (copy_MetaData (ctOut0 lc) ctIn) dir l1 lc) ;;;
             ret (copy_MetaData (ctOut0 lc) ctIn))) as Hsim.
  { eapply simulates_bind_any; [| intros _; apply simulates_ret].
    apply simulates_for_range. intros i.
    apply simulates_SwitchNew_body.
    - exact Hloc.
    - rewrite Hr1. reflexivity.
    - rewrite Hr2. reflexivity.
    - rewrite Hb1, Hb2. intros x y Hx Hy.
      split; [| split; [apply (scratch_in_buffers rs dir); exact Hx
                       | apply (scratch_out_buffers rs dir); exact Hy]].
      destruct Hx as [-> | ->], Hy as [-> | ->]; tauto.
    - exact Hin.
    - intros o Ho. cbn [copy_MetaData Value] in Ho. rewrite Hct in Ho. cbn [Value] in Ho.
      apply elem_of_seq in Ho. intros Hw.
      destruct Howns as [_ Hall]. rewrite Forall_forall in Hall.
      specialize (Hall o Hw). lia. }
  destruct (Hsim _ _ _ _ HI1 H) as (sB' & HB' & HQ).
  exists sB'. split; [exact HB' | exact HQ].
Qed.

End ScratchIndependenceTheorem.

Lemma rows_at_level_take lvl (c c' : Coeffs) :
  take (Z.to_nat (lvl + 1)) c = take (Z.to_nat (lvl + 1)) c' ->
  rows_at_level lvl c = rows_at_level lvl c'.
Proof.
  intros H. unfold rows_at_level. cbn zeta.
  pose proof (f_equal length H) as Hlen. rewrite !length_take in Hlen.
  destruct (Nat.ltb_spec (length c) (Z.to_nat (lvl + 1))),
           (Nat.ltb_spec (length c') (Z.to_nat (lvl + 1)));
    try lia; [reflexivity | rewrite H; reflexivity].
Qed.

Lemma exactly_length n o b : exactly n o = Some b -> length b = n.
Proof.
  unfold exactly. destruct o as [b' |]; [| discriminate].
  destruct (length b' =? n)%nat eqn:E; [| discriminate].
  intros H. injection H as <-. apply Nat.eqb_eq. exact E.
Qed.

Lemma LevelCheckedRings_level_local : level_local LevelCheckedRings.
Proof.
  split.
  - intros r c b H. cbn in H. eapply rows_at_level_length; eauto.
  - intros be lsrc ldst c c' H. cbn. unfold mod_up.
    rewrite (rows_at_level_take _ _ _ H). reflexivity.
  - intros be lsrc ldst c b H. cbn in H. eapply exactly_length; eauto.
  - intros be lsrc ldst c c' H. cbn. unfold mod_up.
    rewrite (rows_at_level_take _ _ _ H). reflexivity.
  - intros be lsrc ldst c b H. cbn in H. eapply exactly_length; eauto.
  - intros r c c' H. cbn. apply rows_at_level_take. exact H.
  - intros r c c' H. cbn. apply rows_at_level_take. exact H.
Qed.

Lemma SwitchNew_scratch_independent_witness :
  same_but (fun l => l ∈ buffers small_switcher) store_level1 store_level1_used /\
  store_level1 !! 0%nat <> store_level1_used !! 0%nat /\
  exists sA' sB' out,
    SwitchNew (L := LevelCheckedRings) small_switcher (small_ct 2) true store_level1
      = (sA', Ok out) /\
    SwitchNew (L := LevelCheckedRings) small_switcher (small_ct 2) true store_level1_used
      = (sB', Ok out) /\
    sB' !! 6%nat = sA' !! 6%nat.
Proof.
  assert (same_but (fun l => l ∈ buffers small_switcher) store_level1 store_level1_used)
    as HI.
  { split; [reflexivity |]. intros l Hl.
    unfold buffers, small_switcher in Hl. cbn [BuffQ1 BuffQ2 fst snd] in Hl.
    rewrite !elem_of_cons, elem_of_nil in Hl.
    do 4 (destruct l as [| l]; [exfalso; apply Hl; auto |]). reflexivity. }
  split; [exact HI |]. split; [discriminate |].
  destruct (SwitchNew (L := LevelCheckedRings) small_switcher (small_ct 2) true store_level1)
    as [sA' [out | e]] eqn:Hrun; [| vm_compute in Hrun; discriminate Hrun].
  destruct (SwitchNew_scratch_independent (L := LevelCheckedRings) small_switcher
              (small_ct 2) true store_level1 store_level1_used sA' (Ok out)
              LevelCheckedRings_level_local
              (small_owns [residues 3 2 chain1; residues 4 2 chain1])
              (small_separate 2 [residues 3 2 chain1; residues 4 2 chain1]
                 ltac:(cbn; lia))
              HI Hrun) as (sB' & HB & Hsame).
  exists sA', sB', out. split; [reflexivity |]. split; [exact HB |].
  destruct (Hsame out eq_refl) as [_ Hkeep]. apply Hkeep.
  unfold buffers, small_switcher. cbn [BuffQ1 BuffQ2 fst snd].
  rewrite !elem_of_cons, elem_of_nil. lia.
Defined.

(** ** Rows of the output that no call writes *)

Section TrailingRows.
Context {L : RingLibrary}.

(** When the last transform writes the rows of its level, all of them, a
    component of the output of [SwitchNew] is made of the rows of the
    destination level, written by that transform, followed in direction
    chain 1 to chain 2 by as many zero rows as chain 1 has more primes than
    chain 2: rows left over from the allocation at the level of the input,
    which no call writes.  In direction chain 2 to chain 1 no row is left
    over. *)
Theorem SwitchNew_trailing_rows rs ctIn dir (s s' : Store) out i v :
  writes_level_rows NTT_rows -> writes_level_rows NTTLazy_rows ->
  switcher_owns rs s -> separate rs ctIn s ->
  SwitchNew rs ctIn dir s = (s', Ok out) ->
  Value ctIn !! i = Some v ->
  exists l1 rsrc rdst (c : Coeffs),
    ct_Level ctIn s = (s, Ok l1) /\
    RingQ (source_params rs dir) = Some rsrc /\
    RingQ (destination_params rs dir) = Some rdst /\
    length c = Z.to_nat (l1 - Level rsrc + Level rdst + 1) /\
    s' !! (length s + i)%nat =
      Some (c ++ replicate (if dir then Z.to_nat (Level rsrc - Level rdst) else 0%nat)
                           (replicate (Z.to_nat (RingDegree rsrc)) 0)).
Proof.
  intros Hntt Hlazy Howns Hsep H Hv.
  apply SwitchNew_ok_inv in H.
  destruct H as (l1 & s1 & lc & Hl1 & Hsetup & Hloop & ->).
  apply SwitchNew_setup_inv in Hsetup.
  destruct Hsetup as (rsrc & rdst & Hsrc & Hdst & HlQ2 & Hr1 & Hr2 & Hb1 & Hb2 & -> & Hct).
  destruct (owns_distinct rs dir s Howns) as [Hdist Hlt]. cbn zeta in Hdist, Hlt.
  rewrite <- Hb1, <- Hb2 in Hdist, Hlt.
  assert (i < length (Value ctIn))%nat as Hi by (eapply lookup_lt_Some; eauto).
  eapply (SwitchNew_loop_result _ _ _ _ _ _ _ _ (length s) i v) in Hloop;
    [| cbn; rewrite Hct; reflexivity | | exact Hdist | exact Hlt | exact Hv].
  2:{ unfold separate in Hsep. rewrite Forall_forall in Hsep. apply Forall_forall.
      intros w Hw. destruct (Hsep w Hw) as [Hwlt Hwb]. split; [exact Hwlt |].
      rewrite Hb1, Hb2.
      repeat split; intros ->; apply Hwb.
      - apply (scratch_in_buffers rs dir); auto.
      - apply (scratch_in_buffers rs dir); auto.
      - apply (scratch_out_buffers rs dir); auto.
      - apply (scratch_out_buffers rs dir); auto. }
  destruct Hloop as (cv & old1 & old2 & oldo & c & _ & _ & _ & H4 & H5 & H6).
  rewrite lookup_app_r in H4 by lia.
  replace (length s + i - length s)%nat with i in H4 by lia.
  rewrite lookup_replicate_2 in H4 by exact Hi. injection H4 as <-.
  assert (length c = Z.to_nat (level (ringQ2 lc) + 1)) as Hc.
  { unfold switch_rows in H5.
    destruct (INTTLazy_rows (ringQ1 lc) cv) as [a |]; [| discriminate].
    destruct (modup_rows rs dir l1 (levelQ2 lc) (overwrite old1 a)) as [b |];
      [| discriminate].
    unfold ntt_rows in H5. destruct dir; [eapply Hntt | eapply Hlazy]; eauto. }
  apply AtLevel_inv in Hr1, Hr2. destruct Hr1 as [Hlo1 Hr1], Hr2 as [Hlo2 Hr2].
  rewrite Hr2 in Hc. cbn [level] in Hc. rewrite HlQ2 in Hc, Hlo2.
  exists l1, rsrc, rdst, c.
  split; [exact Hl1 |]. split; [exact Hsrc |]. split; [exact Hdst |].
  split; [exact Hc |].
  rewrite H6. f_equal. unfold overwrite. f_equal.
  unfold zero_poly. rewrite drop_replicate. rewrite Hc.
  destruct dir.
  - rewrite Hr1. cbn [level RingDegree]. f_equal. unfold Level in *. lia.
  - rewrite Hr2. cbn [level RingDegree]. rewrite HlQ2.
    replace (Z.to_nat (l1 - Level rsrc + Level rdst + 1) -
             Z.to_nat (l1 - Level rsrc + Level rdst + 1))%nat with 0%nat by lia.
    reflexivity.
Qed.

End TrailingRows.

Lemma SwitchNew_trailing_rows_witness :
  exists s' out,
    SwitchNew (L := DegreeOneRings) small_switcher (small_ct 2) true store_level2
      = (s', Ok out) /\
    s' !! 7%nat = Some ([[4]; [4]] ++ [[0]]).
Proof.
  destruct (SwitchNew (L := DegreeOneRings) small_switcher (small_ct 2) true store_level2)
    as [s' [out | e]] eqn:Hrun; [| vm_compute in Hrun; discriminate Hrun].
  exists s', out. split; [reflexivity |].
  destruct (SwitchNew_trailing_rows (L := DegreeOneRings) small_switcher (small_ct 2) true
              store_level2 s' out 1%nat 5%nat
              ltac:(intros r c b Hb; cbn in Hb; eapply rows_at_level_length; eauto)
              ltac:(intros r c b Hb; cbn in Hb; eapply rows_at_level_length; eauto)
              (small_owns [residues 3 3 chain1; residues 4 3 chain1])
              (small_separate 2 [residues 3 3 chain1; residues 4 3 chain1]
                 ltac:(cbn; lia))
              Hrun eq_refl)
    as (l1 & rsrc & rdst & c & Hl1 & Hsrc & Hdst & Hc & Hres).
  vm_compute in Hl1. injection Hl1 as <-.
  vm_compute in Hsrc. injection Hsrc as <-.
  vm_compute in Hdst. injection Hdst as <-.
  cbn in Hres. rewrite Hres.
  pose proof Hrun as Hfull. vm_compute in Hfull.
  injection Hfull as Hs' _. rewrite <- Hs' in Hres. cbn in Hres.
  injection Hres as Hres.
  destruct c as [| c0 [| c1 [| c2 c]]]; try discriminate.
  cbn in Hres. injection Hres as <- <-. reflexivity.
Defined.

(** In its short run the bootstrapping example does correct the message
    ratio of both its parameter sets, by the 3 that the ring degree is short
    of 16; in its full-size run it leaves the ratio alone. *)
Theorem slim_ratio_corrected (flagShort : bool) (LogMessageRatio : Z) :
  is_int LogMessageRatio -> is_int (LogMessageRatio + 3) ->
  slim_LogMessageRatio flagShort LogMessageRatio =
    (if flagShort then LogMessageRatio + 3 else LogMessageRatio).
Proof.
  intros Hint Hint3.
  unfold slim_LogMessageRatio, slim_LogN. destruct flagShort; [| reflexivity].
  replace (int_sub 16 (int_sub 16 3)) with 3 by (vm_compute; reflexivity).
  unfold int_add. apply wrap_int_id. exact Hint3.
Qed.

(** From the ratio 5 that the example gives both parameter sets. *)
Lemma slim_ratio_corrected_witness :
  slim_LogMessageRatio true 5 = 8 /\ slim_LogMessageRatio false 5 = 5.
Proof.
  split.
  - apply (slim_ratio_corrected true 5); unfold is_int; lia.
  - apply (slim_ratio_corrected false 5); unfold is_int; lia.
Defined.

(** ** When [SwitchNew] returns *)

Lemma AtLevel_run r l :
  0 <= l <= MaxLevel r -> AtLevel r l = Ok (mkRing (SubRings r) (RingDegree r) l).
Proof.
  intros [H1 H2]. unfold AtLevel.
  destruct (Z.ltb_spec l 0); [lia |].
  destruct (Z.ltb_spec (MaxLevel r) l); [lia |]. reflexivity.
Qed.

Lemma NewPolys_run n r (s : Store) :
  ring_sizes_ok r ->
  NewPolys n r s = (s ++ replicate n (zero_poly r), Ok (seq (length s) n)).
Proof.
  intros Hok. revert s. induction n as [| n IH]; intros s; cbn.
  - unfold ret. rewrite app_nil_r. reflexivity.
  - rewrite (bind_run_ok _ _ _ _ _ (NewPoly_run r s Hok)).
    rewrite (bind_run_ok _ _ _ _ _ (IH (s ++ [zero_poly r]))).
    unfold ret. rewrite <- app_assoc, length_app. cbn [length app].
    replace (length s + 1)%nat with (S (length s)) by lia. reflexivity.
Qed.

Lemma NewCiphertext_run p deg lvl rq (s : Store) :
  RingQ p = Some rq -> 0 <= lvl <= MaxLevel rq -> 0 <= RingDegree rq -> 0 <= deg + 1 ->
  NewCiphertext p deg lvl s =
    (s ++ replicate (Z.to_nat (deg + 1))
            (zero_poly (mkRing (SubRings rq) (RingDegree rq) lvl)),
     Ok (mkCiphertext (seq (length s) (Z.to_nat (deg + 1))) 0 (nttFlag p) false (0, 0))).
Proof.
  intros Hrq Hlvl Hdeg Hn. unfold NewCiphertext. rewrite Hrq. cbn [deref].
  rewrite bind_ret_l. rewrite (AtLevel_run _ _ Hlvl).
  unfold lift at 1. unfold bind at 1.
  destruct (Z.ltb_spec (deg + 1) 0); [lia |].
  erewrite bind_run_ok by (apply NewPolys_run; split; cbn; lia).
  reflexivity.
Qed.

Lemma enough_rows_shape (s1 st : Store) l n :
  map length st = map length s1 -> enough_rows s1 l n -> enough_rows st l n.
Proof.
  intros Hshape (c & Hc & Hn).
  pose proof (shape_lookup st s1 l Hshape) as Hl. rewrite Hc in Hl. cbn in Hl.
  destruct (st !! l) as [c' |] eqn:E; [| discriminate]. cbn in Hl. injection Hl as Hl.
  exists c'. split; [exact E | lia].
Qed.

Lemma index_run {A} (l : list A) i a (s : Store) :
  l !! i = Some a -> index l i s = (s, Ok a).
Proof. intros H. unfold index. rewrite H. reflexivity. Qed.

Lemma transform_run (k : Coeffs -> option Coeffs) p1 p2 (s : Store) n m :
  enough_rows s p1 n -> enough_rows s p2 m ->
  (forall c, n <= Z.of_nat (length c) ->
     exists b, k c = Some b /\ Z.of_nat (length b) <= m) ->
  exists s', transform k p1 p2 s = (s', Ok tt) /\ map length s' = map length s.
Proof.
  intros (c & Hc & Hn) (old & Hold & Hm) Hk.
  destruct (Hk c Hn) as (b & Hb & Hlen).
  unfold transform, bind, load, write, from_library, ret. rewrite Hc, Hb.
  cbv beta iota. rewrite Hold.
  destruct (Nat.ltb_spec (length old) (length b)); [lia |].
  eexists. split; [reflexivity |].
  apply list_eq. intros j. rewrite !list_lookup_fmap.
  destruct (decide (j = p2)) as [-> |].
  - rewrite list_lookup_insert_eq by (eapply lookup_lt_Some; eauto).
    rewrite Hold. cbn. f_equal. apply overwrite_length. lia.
  - rewrite list_lookup_insert_ne by congruence. reflexivity.
Qed.

Lemma index2_run {A} (a : A * A) i (s : Store) :
  (i < 2)%nat -> index2 a i s = (s, Ok (match i with O => fst a | _ => snd a end)).
Proof. intros H. destruct i as [| [| i]]; [reflexivity | reflexivity | lia]. Qed.

Lemma enough_rows_app (s ext : Store) l n :
  enough_rows s l n -> enough_rows (s ++ ext) l n.
Proof.
  intros (c & Hc & Hn). exists c. split; [| exact Hn].
  rewrite lookup_app_l by (eapply lookup_lt_Some; eauto). exact Hc.
Qed.

Lemma for_range_returns (Inv : Store -> Prop) idxs (body : nat -> M unit) (s : Store) :
  (forall i st, i ∈ idxs -> Inv st -> exists st', body i st = (st', Ok tt) /\ Inv st') ->
  Inv s ->
  exists s', for_range idxs body s = (s', Ok tt) /\ Inv s'.
Proof.
  revert s. induction idxs as [| i idxs IH]; intros s Hbody Hinv; cbn.
  - exists s. split; [reflexivity | exact Hinv].
  - assert (i ∈ i :: idxs) as Hhere by (apply elem_of_cons; auto).
    destruct (Hbody i s Hhere Hinv) as (s1 & H1 & Hinv1).
    rewrite (bind_run_ok _ _ _ _ _ H1).
    apply IH; [| exact Hinv1].
    intros j st Hj. apply Hbody. apply elem_of_cons. auto.
Qed.

Section Returns.
Context {L : RingLibrary}.

(** An iteration returns from every store with the shape of the store
    [s1] in which its four polynomials have the rows it needs. *)
Lemma SwitchNew_body_returns rs ctIn ctOut (dir : bool) l1 lc i v o be (s1 st : Store) :
  returns_at_level L ->
  rsBasisExtender rs = Some be ->
  level (ringQ1 lc) = l1 -> level (ringQ2 lc) = levelQ2 lc ->
  0 <= l1 <= MaxLevel (if dir then beRingQ be else beRingP be) ->
  0 <= levelQ2 lc <= MaxLevel (if dir then beRingP be else beRingQ be) ->
  Value ctIn !! i = Some v -> Value ctOut !! i = Some o -> (i < 2)%nat ->
  enough_rows s1 v (l1 + 1) ->
  enough_rows s1 (pick (buffQ1 lc) i) (l1 + 1) ->
  enough_rows s1 (pick (buffQ2 lc) i) (levelQ2 lc + 1) ->
  enough_rows s1 o (levelQ2 lc + 1) ->
  map length st = map length s1 ->
  exists st',
    SwitchNew_body rs ctIn ctOut dir l1 lc i st = (st', Ok tt) /\
    map length st' = map length s1.
Proof.
  intros [Hi Hn Hl Hq Hp] Hbe Hl1 Hl2 Hr1 Hr2 Hv Ho Hlt Ev Eb1 Eb2 Eo Hshape.
  unfold SwitchNew_body.
  rewrite (bind_run_ok _ _ _ _ _ (index_run _ _ _ st Hv)).
  rewrite (bind_run_ok _ _ _ _ _ (index2_run (buffQ1 lc) i st Hlt)).
  fold (pick (buffQ1 lc) i).
  destruct (transform_run (INTTLazy_rows (ringQ1 lc)) v (pick (buffQ1 lc) i) st
              (l1 + 1) (l1 + 1)) as (st1 & Hrun1 & Hshape1).
  { eapply enough_rows_shape; eauto. }
  { eapply enough_rows_shape; eauto. }
  { intros c Hc. destruct (Hi (ringQ1 lc) c) as (b & Hb & Hlen);
      [rewrite Hl1; lia |].
    exists b. split; [exact Hb |]. rewrite Hlen, Hl1. lia. }
  unfold INTTLazy. rewrite (bind_run_ok _ _ _ _ _ Hrun1).
  rewrite (bind_run_ok _ _ _ _ _ (index2_run (buffQ2 lc) i st1 Hlt)).
  fold (pick (buffQ2 lc) i).
  assert (map length st1 = map length s1) as Hs1 by congruence.
  assert (exists st2,
            (if dir
             then ModUpQtoP (rsBasisExtender rs) l1 (levelQ2 lc)
                    (pick (buffQ1 lc) i) (pick (buffQ2 lc) i)
             else ModUpPtoQ (rsBasisExtender rs) l1 (levelQ2 lc)
                    (pick (buffQ1 lc) i) (pick (buffQ2 lc) i)) st1 = (st2, Ok tt) /\
            map length st2 = map length st1) as (st2 & Hrun2 & Hshape2).
  { rewrite Hbe. destruct dir; unfold ModUpQtoP, ModUpPtoQ; cbn [deref];
      rewrite bind_ret_l;
      apply (transform_run _ _ _ _ (l1 + 1) (levelQ2 lc + 1));
      try (eapply enough_rows_shape; eauto).
    - intros c Hc. destruct (Hq be l1 (levelQ2 lc) c Hr1 Hr2) as (b & Hb & Hlen); [lia |].
      exists b. split; [exact Hb |]. rewrite Hlen. lia.
    - intros c Hc. destruct (Hp be l1 (levelQ2 lc) c Hr1 Hr2) as (b & Hb & Hlen); [lia |].
      exists b. split; [exact Hb |]. rewrite Hlen. lia. }
  rewrite (bind_run_ok _ _ _ _ _ Hrun2).
  rewrite (bind_run_ok _ _ _ _ _ (index_run _ _ _ st2 Ho)).
  assert (map length st2 = map length s1) as Hs2 by congruence.
  assert (forall k, total_at_level k ->
            exists st', transform (k (ringQ2 lc)) (pick (buffQ2 lc) i) o st2 = (st', Ok tt) /\
                        map length st' = map length st2) as Hntt.
  { intros k Hk.
    apply (transform_run _ _ _ _ (levelQ2 lc + 1) (levelQ2 lc + 1));
      try (eapply enough_rows_shape; eauto).
    intros c Hc. destruct (Hk (ringQ2 lc) c) as (b & Hb & Hlen); [rewrite Hl2; lia |].
    exists b. split; [exact Hb |]. rewrite Hlen, Hl2. lia. }
  destruct dir; unfold NTT, NTTLazy.
  - destruct (Hntt _ Hn) as (st' & Hrun & Hsh). exists st'. split; [exact Hrun | congruence].
  - destruct (Hntt _ Hl) as (st' & Hrun & Hsh). exists st'. split; [exact Hrun | congruence].
Qed.

End Returns.

Section ReturnsTheorem.
Context {L : RingLibrary}.

(** [SwitchNew] returns when the library's calls return on polynomials
    that have the rows of their level, and: the switcher has the basis
    extender between the rings of its two chains; the ciphertext has one or
    two components, all at the same level; that level and the destination
    level are levels of the source and of the destination chain; the
    scratch polynomials have the rows of those levels; and, from chain 1 to
    chain 2, chain 2 is not the longer chain. *)
Theorem SwitchNew_returns rs ctIn (dir : bool) (s : Store) l1 r1 r2 :
  returns_at_level L ->
  RingQ (params1 rs) = Some r1 -> RingQ (params2 rs) = Some r2 ->
  rsBasisExtender rs = Some (NewBasisExtender r1 r2) ->
  0 <= RingDegree r1 ->
  (1 <= length (Value ctIn) <= 2)%nat ->
  (forall v, v ∈ Value ctIn ->
     exists c, s !! v = Some c /\ Z.of_nat (length c) - 1 = l1) ->
  0 <= l1 <= MaxLevel (if dir then r1 else r2) ->
  0 <= l1 - Level (if dir then r1 else r2) + Level (if dir then r2 else r1)
    <= MaxLevel (if dir then r2 else r1) ->
  (dir = true -> Level r2 <= Level r1) ->
  (forall b, b = fst (scratch_in rs dir) \/ b = snd (scratch_in rs dir) ->
     enough_rows s b (l1 + 1)) ->
  (forall b, b = fst (scratch_out rs dir) \/ b = snd (scratch_out rs dir) ->
     enough_rows s b
       (l1 - Level (if dir then r1 else r2) + Level (if dir then r2 else r1) + 1)) ->
  exists s' out, SwitchNew rs ctIn dir s = (s', Ok out).
Proof.
  intros Hlib Hq1 Hq2 Hbe Hdeg Hn Hcomp Hlv1 Hlv2 Hslip Hin Hout.
  rewrite SwitchNew_unfold.
  destruct (lookup_lt_is_Some_2 (Value ctIn) 0%nat ltac:(lia)) as [v0 Hv0].
  destruct (Hcomp v0 ltac:(eapply list_elem_of_lookup_2; eauto)) as (c0 & Hc0 & Hlen0).
  assert (ct_Level ctIn s = (s, Ok l1)) as Hlvl
    by (rewrite <- Hlen0; apply (ct_Level_run ctIn s v0 c0); assumption).
  rewrite (bind_run_ok _ _ _ _ _ Hlvl).
  set (rsrc := if dir then r1 else r2) in *.
  set (rdst := if dir then r2 else r1) in *.
  set (lQ2 := l1 - Level rsrc + Level rdst) in *.
  set (lc := mkSwitchLocals (scratch_in rs dir) (scratch_out rs dir) lQ2
               (set_Scale
                  (mkCiphertext (seq (length s) (length (Value ctIn))) 0
                     (nttFlag (params1 rs)) false (0, 0))
                  (DefaultScale (destination_params rs dir)))
               (mkRing (SubRings rsrc) (RingDegree rsrc) l1)
               (mkRing (SubRings rdst) (RingDegree rdst) lQ2)).
  set (s1 := s ++ replicate (length (Value ctIn))
                    (zero_poly (mkRing (SubRings r1) (RingDegree r1)
                                  (if dir then l1 else lQ2)))).
  assert (SwitchNew_setup rs ctIn dir l1 s = (s1, Ok lc)) as Hsetup.
  { unfold SwitchNew_setup. subst s1 lc lQ2 rsrc rdst.
    destruct dir; rewrite Hq1, Hq2; cbn [deref]; rewrite !bind_ret_l;
      (erewrite bind_run_ok
         by (apply NewCiphertext_run; [exact Hq1 | assumption | exact Hdeg
                                      | unfold Degree; lia]));
      rewrite !AtLevel_run by assumption;
      unfold lift, bind, ret; rewrite Degree_components; reflexivity. }
  rewrite (bind_run_ok _ _ _ _ _ Hsetup).
  destruct (for_range_returns (fun st => map length st = map length s1)
              (seq 0 (length (Value ctIn)))
              (SwitchNew_body rs ctIn (copy_MetaData (ctOut0 lc) ctIn) dir l1 lc) s1)
    as (s' & Hloop & _); [| reflexivity |].
  2:{ rewrite (bind_run_ok _ _ _ _ _ Hloop). unfold ret. eauto. }
  intros i st Hi Hshape. apply elem_of_seq in Hi.
  destruct (lookup_lt_is_Some_2 (Value ctIn) i ltac:(lia)) as [v Hv].
  destruct (Hcomp v ltac:(eapply list_elem_of_lookup_2; eauto)) as (c & Hc & Hlen).
  apply (SwitchNew_body_returns rs ctIn _ dir l1 lc i v (length s + i)%nat
           (NewBasisExtender r1 r2) s1 st Hlib Hbe).
  - reflexivity.
  - reflexivity.
  - destruct dir; exact Hlv1.
  - destruct dir; exact Hlv2.
  - exact Hv.
  - cbn. apply lookup_seq. lia.
  - lia.
  - apply enough_rows_app. exists c. split; [exact Hc | lia].
  - apply enough_rows_app. apply Hin. cbn [lc buffQ1]. destruct i; cbn; auto.
  - apply enough_rows_app. apply Hout. cbn [lc buffQ2]. destruct i; cbn; auto.
  - eexists. split.
    + subst s1. rewrite lookup_app_r by lia.
      replace (length s + i - length s)%nat with i by lia.
      apply lookup_replicate_2. lia.
    + unfold zero_poly. rewrite length_replicate. cbn [level lc levelQ2].
      destruct dir; [specialize (Hslip eq_refl); subst lQ2 rsrc rdst; lia | lia].
  - exact Hshape.
Qed.

End ReturnsTheorem.

Lemma rows_at_level_total lvl (c : Coeffs) :
  (Z.to_nat (lvl + 1) <= length c)%nat ->
  exists b, rows_at_level lvl c = Some b /\ length b = Z.to_nat (lvl + 1).
Proof.
  intros H. unfold rows_at_level. cbn zeta.
  destruct (Nat.ltb_spec (length c) (Z.to_nat (lvl + 1))); [lia |].
  eexists. split; [reflexivity |]. rewrite length_take. lia.
Qed.

Lemma mod_up_total src dst lsrc ldst (c : Coeffs) :
  0 <= ldst <= MaxLevel dst ->
  (Z.to_nat (lsrc + 1) <= length c)%nat ->
  exists b, mod_up src dst lsrc ldst c = Some b /\ length b = Z.to_nat (ldst + 1).
Proof.
  intros Hdst Hc. unfold mod_up.
  destruct (rows_at_level_total lsrc c Hc) as (c' & -> & _).
  eexists. split; [reflexivity |].
  unfold extend_rows. rewrite length_map, length_take.
  unfold MaxLevel in Hdst. lia.
Qed.

Lemma DegreeOneRings_returns : returns_at_level DegreeOneRings.
Proof.
  split.
  - intros r c H. cbn. apply rows_at_level_total. exact H.
  - intros r c H. cbn. apply rows_at_level_total. exact H.
  - intros r c H. cbn. apply rows_at_level_total. exact H.
  - intros be lsrc ldst c _ Hdst H. cbn. apply mod_up_total; assumption.
  - intros be lsrc ldst c _ Hdst H. cbn. apply mod_up_total; assumption.
Qed.

Lemma SwitchNew_returns_witness :
  exists s' out,
    SwitchNew (L := DegreeOneRings) small_switcher (small_ct 2) true store_level1
      = (s', Ok out).
Proof.
  apply (SwitchNew_returns (L := DegreeOneRings) small_switcher (small_ct 2) true
           store_level1 1 (top_ring chain1) (top_ring chain2)
           DegreeOneRings_returns eq_refl eq_refl eq_refl).
  - cbn. lia.
  - cbn. lia.
  - intros v Hv. cbn in Hv. rewrite !elem_of_cons, elem_of_nil in Hv.
    destruct Hv as [-> | [-> | []]]; eexists; split; reflexivity.
  - vm_compute. split; intros H; discriminate H.
  - vm_compute. split; intros H; discriminate H.
  - intros _. vm_compute. intros H; discriminate H.
  - intros b [-> | ->]; eexists;
      (split; [reflexivity | vm_compute; intros H; discriminate H]).
  - intros b [-> | ->]; eexists;
      (split; [reflexivity | vm_compute; intros H; discriminate H]).
Defined.

(** ** The keys of the bootstrapping example *)

Section KeySetupProofs.
Context {Sk Evk Boot : Type} (kc : KeyCalls (Sk := Sk) (Evk := Evk) (Boot := Boot)).

(** When the generation of the evaluation keys of chain 2 fails, [main]
    panics with the error variable of the first generation, which is nil
    at that point: the error of the failure is not reported.  This is the
    only way that [main] panics with a nil error while setting up its keys
    and evaluators; every other failure panics with its own error. *)
Theorem main_keys_nil_panic (sk : Sk) :
  main_keys kc sk = inl (panic_error None) <->
  snd (GenEvaluationKeys kc sk) = None /\
  exists sk2, ms_SwitchSecretKey kc sk = Ok sk2 /\
              snd (GenEvaluationKeys2 kc sk2) <> None.
Proof.
  unfold main_keys.
  destruct (GenEvaluationKeys kc sk) as [evk [e |]]; cbn [snd].
  { split; [discriminate | intros [H _]; discriminate H]. }
  destruct (ms_SwitchSecretKey kc sk) as [sk2 | p].
  2:{ split; [discriminate | intros (_ & sk2 & H & _); discriminate H]. }
  destruct (GenEvaluationKeys2 kc sk2) as [evk2 [e2 |]] eqn:E2.
  { split; [intros _ | reflexivity].
    split; [reflexivity |]. exists sk2. rewrite E2. split; [reflexivity | discriminate]. }
  assert (~ exists sk2', Ok sk2 = Ok sk2' /\ snd (GenEvaluationKeys2 kc sk2') <> None)
    as Hno.
  { intros (sk2' & H & Hne). injection H as <-. rewrite E2 in Hne. contradiction. }
  destruct (NewEvaluator kc evk) as [ev [e |]].
  { split; [discriminate | intros [_ H]; contradiction]. }
  destruct (NewEvaluator2 kc evk2) as [ev2 [e |]];
    (split; [discriminate | intros [_ H]; contradiction]).
Qed.

End KeySetupProofs.

Lemma main_keys_nil_panic_witness :
  main_keys failing_keys2 7 = inl (panic_error None).
Proof.
  apply (main_keys_nil_panic failing_keys2 7).
  split; [reflexivity |]. exists 8. split; [reflexivity | discriminate].
Defined.

(** Counterexample to an out-of-bounds panic on every ciphertext of three
    components.  At level 0 of chain 1 the destination level is -1: the
    library refuses it before the loop is entered, and the call ends with
    that panic. *)
Lemma SwitchNew_three_components_other_panic :
  (3 <= length (Value (small_ct 3)))%nat /\
  ct_Level (small_ct 3) store_three_level0 = (store_three_level0, Ok 0) /\
  snd (SwitchNew (L := DegreeOneRings) small_switcher (small_ct 3) true store_three_level0)
    = Err (LibraryPanic "level cannot be negative") /\
  snd (SwitchNew (L := DegreeOneRings) small_switcher (small_ct 3) true store_three_level0)
    <> Err (IndexOutOfRange 2 2).
Proof.
  split; [cbn; lia |]. split; [reflexivity |].
  split; [vm_compute; reflexivity | vm_compute; discriminate].
Qed.

(** ** The destination level *)








Section NoOwnPanic.
Context {L : RingLibrary}.





End NoOwnPanic.


Section DestinationLevelTheorem.
Context {L : RingLibrary}.




End DestinationLevelTheorem.


